(** * Psychoacoustic correction (ISO 226 equal-loudness compensation)

    A shallow embedding of [psychoacoustic_correction.cpp]: the classes
    [PsychoacousticCorrection] and [OptimizedPsychoacousticEQ].

    The source computes in C++ [float].  The code is embedded once, over
    the signature [Arith] of the operations it uses, and read in two
    arithmetics:

    - [F32]: IEEE-754 binary32 on [SpecFloat.spec_float] (precision 24,
      emax 128).  This is what the compiled program computes; every
      definition evaluates with [vm_compute].  Each operation of the
      source is one correctly rounded binary32 operation, to nearest with
      ties to even: expressions are evaluated in [float] itself and a
      product is not fused with the sum that follows it.  There is one
      NaN, without payload.
    - [RR]: exact real numbers, the arithmetic in which the formulas of the
      specification are written (no rounding, no NaN, no infinities).  It
      is a companion reading: each property of the program is stated on
      [F32], and a part on [RR] adds what holds of the formula.

    The two libm functions the source calls, [std::pow] and [std::tanh],
    are a second signature [Libm]: their code is not part of the
    repository.  Over [RR] they are the mathematical functions; over [F32]
    they stay parameters, and what is proved there holds whatever they
    return, or for every function with the properties the statement
    names (a [tanhf] that is monotone, a [powf] that is positive on the
    range of exponents it is called with).

    The binary32 operations are related to the reals they round in the
    part on rounding: the result of an operation on finite numbers is the
    binary32 value nearest to the exact result, so the operations keep
    the order.

    Vectors and arrays are lists, indexed by [int] (here [Z]).  The loops
    that update a vector in place thread the vector through a fold. *)

From Stdlib Require Import ZArith List Bool Lia.
From Stdlib Require Import Reals Lra.
From Stdlib Require Import Floats.SpecFloat.
Import ListNotations.

Local Open Scope Z_scope.

(** ** The arithmetic signature *)

Class Arith := {
  num : Type;
  (** [lit n d]: the unsuffixed decimal literal [n/d] (a C++ [double])
      stored into a [float], as in the initialisers of the tables. *)
  lit : Z -> Z -> num;
  (** [litf n d]: the literal [n/d] with suffix [f]. *)
  litf : Z -> Z -> num;
  (** [of_int i]: the conversion [(float) i] of an [int]. *)
  of_int : Z -> num;
  add : num -> num -> num;
  sub : num -> num -> num;
  mul : num -> num -> num;
  div : num -> num -> num;
  neg : num -> num;
  (** [ltb x y] is [x < y] and [leb x y] is [x <= y]; [x > y] and [x >= y]
      are written with the arguments exchanged. *)
  ltb : num -> num -> bool;
  leb : num -> num -> bool
}.

Class Libm (A : Arith) := {
  pow : num -> num -> num;
  tanh : num -> num
}.

(** ** IEEE-754 binary32 *)

Module B32.

Definition prec : Z := 24.
Definition emax : Z := 128.

Definition t := spec_float.

Definition of_Z (z : Z) : t := binary_normalize prec emax z 0 false.

Definition fadd : t -> t -> t := SFadd prec emax.
Definition fsub : t -> t -> t := SFsub prec emax.
Definition fmul : t -> t -> t := SFmul prec emax.
Definition fdiv : t -> t -> t := SFdiv prec emax.
Definition fneg : t -> t := SFopp.
Definition flt : t -> t -> bool := SFltb.
Definition fle : t -> t -> bool := SFleb.

(** A literal with suffix [f]: the binary32 nearest to [n/d].  [n] and [d]
    are exactly representable (below [2^24]), so the correctly rounded
    quotient is the correctly rounded literal. *)
Definition of_dec (n d : Z) : t := fdiv (of_Z n) (of_Z d).

(** An unsuffixed literal is a binary64 first, then narrowed. *)
Definition f64_of_dec (n d : Z) : spec_float :=
  SFdiv 53 1024 (binary_normalize 53 1024 n 0 false)
                (binary_normalize 53 1024 d 0 false).

Definition of_f64 (x : spec_float) : t :=
  match x with
  | S754_finite s m e => binary_round prec emax s m e
  | _ => x
  end.

Definition of_double_dec (n d : Z) : t := of_f64 (f64_of_dec n d).

(** Well-formed binary32 values: the canonical representations. *)
Definition valid (x : t) : bool := valid_binary prec emax x.

Definition is_finite (x : t) : bool :=
  match x with
  | S754_zero _ | S754_finite _ _ _ => true
  | _ => false
  end.

Definition is_nan (x : t) : bool :=
  match x with
  | S754_nan => true
  | _ => false
  end.

End B32.

Definition F32 : Arith := {|
  num := B32.t;
  lit := B32.of_double_dec;
  litf := B32.of_dec;
  of_int := B32.of_Z;
  add := B32.fadd;
  sub := B32.fsub;
  mul := B32.fmul;
  div := B32.fdiv;
  neg := B32.fneg;
  ltb := B32.flt;
  leb := B32.fle
|}.

(** libm over binary32: the two functions are parameters. *)
Definition F32_libm (powf : B32.t -> B32.t -> B32.t) (tanhf : B32.t -> B32.t)
  : Libm F32 := @Build_Libm F32 powf tanhf.

(** ** Exact real numbers *)

Definition Rltb (x y : R) : bool := if Rlt_dec x y then true else false.
Definition Rleb (x y : R) : bool := if Rle_dec x y then true else false.

Definition RR : Arith := {|
  num := R;
  lit := fun n d => (IZR n / IZR d)%R;
  litf := fun n d => (IZR n / IZR d)%R;
  of_int := IZR;
  add := Rplus;
  sub := Rminus;
  mul := Rmult;
  div := Rdiv;
  neg := Ropp;
  ltb := Rltb;
  leb := Rleb
|}.

Definition RR_libm : Libm RR := @Build_Libm RR Rpower Rtrigo_def.tanh.

(** ** Arrays *)

(** [a[i]] for an [int] index.  Reading out of range is undefined in the
    source; the statements below carry the length hypotheses that exclude
    it, and the default is returned there.  No index is negative. *)
Definition at_ {T : Type} (dflt : T) (a : list T) (i : Z) : T :=
  nth (Z.to_nat i) a dflt.

(** [a[i] = v]; nothing is written out of range. *)
Fixpoint upd_nat {T : Type} (a : list T) (i : nat) (v : T) : list T :=
  match a, i with
  | [], _ => []
  | _ :: r, O => v :: r
  | x :: r, S j => x :: upd_nat r j v
  end.

Definition upd {T : Type} (a : list T) (i : Z) (v : T) : list T :=
  if i <? 0 then a else upd_nat a (Z.to_nat i) v.

(** The indices [0, 1, ..., n-1] of a [for (int i = 0; i < n; i++)]. *)
Definition range (n : Z) : list Z := map Z.of_nat (seq 0 (Z.to_nat n)).

(** ** class PsychoacousticCorrection *)

Section Correction.

Context {A : Arith}.

Definition zero : num := of_int 0.

Definition NUM_FREQUENCIES : Z := 29.

Definition FREQUENCIES : list num :=
  [ of_int 20; of_int 25; lit 315 10; of_int 40; of_int 50; of_int 63;
    of_int 80; of_int 100; of_int 125; of_int 160; of_int 200; of_int 250;
    of_int 315; of_int 400; of_int 500; of_int 630; of_int 800;
    of_int 1000; of_int 1250; of_int 1600; of_int 2000; of_int 2500;
    of_int 3150; of_int 4000; of_int 5000; of_int 6300; of_int 8000;
    of_int 10000; of_int 12500 ].

Definition NUM_PHON_LEVELS : Z := 11.

Definition PHON_LEVELS : list num :=
  map of_int [0; 10; 20; 30; 40; 50; 60; 70; 80; 90; 100].

(** A row of the SPL table, written in tenths of a dB: [743] is the
    literal [74.3]. *)
Definition spl_row (tenths : list Z) : list num :=
  map (fun x => lit x 10) tenths.

(** The initialiser gives four rows; the remaining seven of the
    [NUM_PHON_LEVELS] rows are zero-initialised. *)
Definition ISO226_SPL : list (list num) :=
  [ spl_row [743; 650; 563; 484; 417; 355; 298; 251; 207; 168; 138; 112;
             89; 72; 60; 50; 44; 42; 37; 26; 10; -12; -36; -39; -11; 43;
             111; 153; 164];
    spl_row [832; 743; 659; 580; 514; 455; 400; 352; 310; 270; 237; 211;
             188; 170; 157; 146; 138; 134; 130; 126; 118; 106; 89; 79; 96;
             144; 207; 247; 256];
    spl_row [998; 931; 865; 800; 741; 687; 636; 589; 545; 504; 466; 431;
             399; 371; 346; 324; 304; 290; 278; 266; 255; 239; 220; 205;
             213; 254; 313; 354; 366];
    spl_row [1095; 1037; 980; 926; 874; 825; 778; 734; 692; 652; 614; 578;
             545; 514; 486; 460; 435; 415; 400; 385; 372; 355; 335; 316;
             322; 360; 417; 458; 471] ]
  ++ repeat (repeat zero 29) 7.

Definition freq_at (i : Z) : num := at_ zero FREQUENCIES i.
Definition spl_at (p i : Z) : num := at_ zero (at_ [] ISO226_SPL p) i.

(** *** interpolatePhonToSPL *)

(** The [for] loop with [break]: [n] iterations remain, [i] is the loop
    variable.  When no iteration breaks, [freqIdx] keeps its initial
    value [0]. *)
Fixpoint find_freqIdx (n : nat) (i : Z) (frequency : num) : Z :=
  match n with
  | O => 0
  | S n' =>
      if leb (freq_at i) frequency && leb frequency (freq_at (i + 1))
      then i
      else find_freqIdx n' (i + 1) frequency
  end.

Definition freqIdx_of (frequency : num) : Z :=
  find_freqIdx (Z.to_nat (NUM_FREQUENCIES - 1)) 0 frequency.

Definition phonIdx_of (phonLevel : num) : Z :=
  if ltb (of_int 50) phonLevel then 3 else 2.

Definition interpolatePhonToSPL (frequency phonLevel : num) : num :=
  let freqIdx := freqIdx_of frequency in
  let phonIdx := phonIdx_of phonLevel in
  let f1 := freq_at freqIdx in
  let f2 := freq_at (freqIdx + 1) in
  let spl1 := spl_at phonIdx freqIdx in
  let spl2 := spl_at phonIdx (freqIdx + 1) in
  let ratio := div (sub frequency f1) (sub f2 f1) in
  add spl1 (mul ratio (sub spl2 spl1)).

(** *** calculateCorrectionCurve *)

Definition calculateCorrectionCurve (currentPhon targetPhon : num)
  : list num :=
  map (fun i =>
         let currentSPL := interpolatePhonToSPL (freq_at i) currentPhon in
         let targetSPL := interpolatePhonToSPL (freq_at i) targetPhon in
         sub targetSPL currentSPL)
      (range NUM_FREQUENCIES).

(** *** convertToFFTBins *)

(** The object's two data members. *)
Record PsychoacousticCorrection := {
  sampleRate : num;
  fftSize : Z
}.

Context {L : Libm A}.

(** The [while] loop that advances [idx].  Each iteration increments
    [idx] and the guard requires [idx < NUM_FREQUENCIES - 1], so from
    [idx = 0] at most [NUM_FREQUENCIES - 1] iterations run; [fuel] bounds
    them. *)
Fixpoint scan_idx (fuel : nat) (idx : Z) (freq : num) : Z :=
  match fuel with
  | O => idx
  | S fuel' =>
      if (idx <? NUM_FREQUENCIES - 1) && ltb (freq_at (idx + 1)) freq
      then scan_idx fuel' (idx + 1) freq
      else idx
  end.

Definition bin_freq (pc : PsychoacousticCorrection) (bin : Z) : num :=
  div (mul (of_int bin) (sampleRate pc)) (of_int (fftSize pc)).

Definition bin_idx (pc : PsychoacousticCorrection) (bin : Z) : Z :=
  scan_idx (Z.to_nat (NUM_FREQUENCIES - 1)) 0 (bin_freq pc bin).

(** The value assigned to [fftGains[bin]] inside the [if]. *)
Definition interpolated_gain (correctionCurve : list num)
    (idx : Z) (freq : num) : num :=
  let f1 := freq_at idx in
  let f2 := freq_at (idx + 1) in
  let g1 := at_ zero correctionCurve idx in
  let g2 := at_ zero correctionCurve (idx + 1) in
  let ratio := div (sub freq f1) (sub f2 f1) in
  let gainDB := add g1 (mul ratio (sub g2 g1)) in
  pow (litf 10 1) (div gainDB (litf 20 1)).

(** One iteration of the [for] loop over the bins. *)
Definition convert_bin (pc : PsychoacousticCorrection)
    (correctionCurve fftGains : list num) (bin : Z) : list num :=
  let freq := bin_freq pc bin in
  let idx := bin_idx pc bin in
  if idx <? NUM_FREQUENCIES - 1
  then upd fftGains bin (interpolated_gain correctionCurve idx freq)
  else fftGains.

Definition numBins_of (pc : PsychoacousticCorrection) : Z :=
  Z.quot (fftSize pc) 2 + 1.

Definition convertToFFTBins (pc : PsychoacousticCorrection)
    (correctionCurve : list num) : list num :=
  let numBins := numBins_of pc in
  let fftGains := repeat (litf 1 1) (Z.to_nat numBins) in
  fold_left (convert_bin pc correctionCurve) (range numBins) fftGains.

(** The value [fftGains[bin]] holds on exit: the initial [1.0f] unless
    the [if] stored an interpolated gain. *)
Definition bin_gain (pc : PsychoacousticCorrection)
    (correctionCurve : list num) (bin : Z) : num :=
  if bin_idx pc bin <? NUM_FREQUENCIES - 1
  then interpolated_gain correctionCurve (bin_idx pc bin) (bin_freq pc bin)
  else litf 1 1.

(** *** smoothTransition *)

(** The right-hand side of the assignment in the loop body, for the
    entries [new = newGains[i]] and [cur = currentGains[i]]. *)
Definition blend (new cur smoothingFactor : num) : num :=
  add (mul cur smoothingFactor) (mul new (sub (litf 1 1) smoothingFactor)).

(** [newGains] is updated in place; the updated vector is returned. *)
Definition smooth_bin (currentGains : list num) (smoothingFactor : num)
    (newGains : list num) (i : Z) : list num :=
  upd newGains i
      (blend (at_ zero newGains i) (at_ zero currentGains i)
             smoothingFactor).

Definition smoothTransition (newGains currentGains : list num)
    (smoothingFactor : num) : list num :=
  fold_left (smooth_bin currentGains smoothingFactor)
            (range (Z.of_nat (length newGains))) newGains.

(** The same loop when both references name one vector, as in
    [smoothTransition(g, g, s)]: every read goes to the vector being
    updated. *)
Definition smooth_bin_self (smoothingFactor : num) (gains : list num)
    (i : Z) : list num :=
  smooth_bin gains smoothingFactor gains i.

Definition smoothTransition_self (gains : list num) (smoothingFactor : num)
  : list num :=
  fold_left (smooth_bin_self smoothingFactor)
            (range (Z.of_nat (length gains))) gains.

(** *** applyCorrection *)

(** [std::complex<float>]. *)
Record complex := Cx { re : num; im : num }.

(** [z *= g] for a [float] [g]. *)
Definition cscale (z : complex) (g : num) : complex :=
  Cx (mul (re z) g) (mul (im z) g).

(** [std::conj]. *)
Definition conj (z : complex) : complex := Cx (re z) (neg (im z)).

Definition czero : complex := Cx zero zero.

Definition effective_gain (g adaptiveFactor : num) : num :=
  add (litf 1 1) (mul (sub g (litf 1 1)) adaptiveFactor).

(** The two kinds of store the loop performs on [spectrum]. *)
Inductive write := Scaled (i : Z) | Mirrored (i : Z).

(** The loop state: the spectrum and, as ghost state, the stores made so
    far (most recent first). *)
Definition corr_state : Type := list complex * list write.

Definition correct_bin (pc : PsychoacousticCorrection) (gains : list num)
    (adaptiveFactor : num) (st : corr_state) (bin : Z) : corr_state :=
  let '(spectrum, log) := st in
  let numBins := numBins_of pc in
  let gain := effective_gain (at_ zero gains bin) adaptiveFactor in
  let spectrum := upd spectrum bin (cscale (at_ czero spectrum bin) gain) in
  let log := Scaled bin :: log in
  if (0 <? bin) && (bin <? numBins - 1)
  then (upd spectrum (fftSize pc - bin) (conj (at_ czero spectrum bin)),
        Mirrored (fftSize pc - bin) :: log)
  else (spectrum, log).

Definition applyCorrection_log (pc : PsychoacousticCorrection)
    (spectrum : list complex) (gains : list num) (adaptiveFactor : num)
  : corr_state :=
  fold_left (correct_bin pc gains adaptiveFactor)
            (range (numBins_of pc)) (spectrum, []).

Definition applyCorrection (pc : PsychoacousticCorrection)
    (spectrum : list complex) (gains : list num) (adaptiveFactor : num)
  : list complex :=
  fst (applyCorrection_log pc spectrum gains adaptiveFactor).

(** What the loop has stored at index [j] once the bins [0 .. n-1] are
    processed, in terms of the spectrum [s0] on entry: a processed bin is
    the entry scaled by its effective gain, the mirror image of a
    processed inner bin is its conjugate, everything else is untouched. *)
Definition scaled_bin (s0 : list complex) (gains : list num)
    (adaptiveFactor : num) (k : Z) : complex :=
  cscale (at_ czero s0 k) (effective_gain (at_ zero gains k) adaptiveFactor).

Definition corrected_upto (pc : PsychoacousticCorrection) (n : Z)
    (s0 : list complex) (gains : list num) (adaptiveFactor : num) (j : Z)
  : complex :=
  if j <? n then scaled_bin s0 gains adaptiveFactor j
  else if (0 <? fftSize pc - j)
          && (fftSize pc - j <? Z.min n (numBins_of pc - 1))
  then conj (scaled_bin s0 gains adaptiveFactor (fftSize pc - j))
  else at_ czero s0 j.

(** The stores the loop may perform: bin [k] itself, and the mirror
    [fftSize - k] of an inner bin. *)
Definition write_ok (pc : PsychoacousticCorrection) (w : write) : Prop :=
  match w with
  | Scaled i => 0 <= i < numBins_of pc
  | Mirrored i =>
      exists k, 0 < k < numBins_of pc - 1 /\ i = fftSize pc - k
  end.

(** ** class OptimizedPsychoacousticEQ *)

(** [std::clamp(v, lo, hi)]. *)
Definition clamp (v lo hi : num) : num :=
  if ltb v lo then lo else if ltb hi v then hi else v.

Definition getAdaptiveCompensationFactor (listeningDuration : num) : num :=
  let minutes := div listeningDuration (litf 60 1) in
  let factor :=
    sub (litf 5 10) (mul (litf 3 10) (tanh (div minutes (litf 10 1)))) in
  clamp factor (litf 2 10) (litf 5 10).

(** ** The interpolation the specification asks for *)

(** Written from the specification's words (section 4.1), to be compared
    with [interpolatePhonToSPL]: locate the bracketing interval in
    [FREQUENCIES] by linear scan, locate the bracketing rows in
    [PHON_LEVELS] "analogously", interpolate linearly in frequency within
    each of the two rows, then linearly in phon between the two results. *)
Fixpoint bracket (table : list num) (n : nat) (i : Z) (x : num) : Z :=
  match n with
  | O => 0
  | S n' =>
      if leb (at_ zero table i) x && leb x (at_ zero table (i + 1))
      then i
      else bracket table n' (i + 1) x
  end.

Definition lerp (x x1 x2 y1 y2 : num) : num :=
  add y1 (mul (div (sub x x1) (sub x2 x1)) (sub y2 y1)).

Definition row_interp (row fi : Z) (frequency : num) : num :=
  lerp frequency (freq_at fi) (freq_at (fi + 1))
       (spl_at row fi) (spl_at row (fi + 1)).

Definition bilinear_spec (frequency phonLevel : num) : num :=
  let fi := bracket FREQUENCIES (Z.to_nat (NUM_FREQUENCIES - 1)) 0
                    frequency in
  let pi := bracket PHON_LEVELS (Z.to_nat (NUM_PHON_LEVELS - 1)) 0
                    phonLevel in
  lerp phonLevel (at_ zero PHON_LEVELS pi) (at_ zero PHON_LEVELS (pi + 1))
       (row_interp pi fi frequency) (row_interp (pi + 1) fi frequency).

(** ** Vocabulary of the statements *)

(** [frequency] lies in the tabulated range [20 Hz, 12.5 kHz]. *)
Definition in_table_range (frequency : num) : Prop :=
  leb (freq_at 0) frequency = true
  /\ leb frequency (freq_at (NUM_FREQUENCIES - 1)) = true.

(** [frequency] lies below the first or above the last table frequency. *)
Definition out_of_table_range (frequency : num) : Prop :=
  ltb frequency (freq_at 0) = true
  \/ ltb (freq_at (NUM_FREQUENCIES - 1)) frequency = true.

(** Two phon levels on the same side of the threshold [50] of
    [interpolatePhonToSPL]. *)
Definition same_side_of_50 (p1 p2 : num) : Prop :=
  (leb p1 (of_int 50) = true /\ leb p2 (of_int 50) = true)
  \/ (ltb (of_int 50) p1 = true /\ ltb (of_int 50) p2 = true).

(** The spectrum is conjugate-symmetric on entry: every upper bin is the
    conjugate of its mirror. *)
Definition hermitian (pc : PsychoacousticCorrection)
    (spectrum : list complex) : Prop :=
  forall k, 0 < k < numBins_of pc - 1 ->
    at_ czero spectrum (fftSize pc - k) = conj (at_ czero spectrum k).

(** What [applyCorrection] with strength 0 does to [spectrum], giving
    [out]: the lower bins [0 .. B-1] are as before, the mirror of every
    inner bin holds its conjugate, and the array as a whole is unchanged
    when it was conjugate-symmetric on entry. *)
Definition strength_zero_effect (pc : PsychoacousticCorrection)
    (spectrum out : list complex) : Prop :=
  length out = length spectrum
  /\ (forall k, 0 <= k < numBins_of pc ->
        at_ czero out k = at_ czero spectrum k)
  /\ (forall k, 0 < k < numBins_of pc - 1 ->
        at_ czero out (fftSize pc - k) = conj (at_ czero spectrum k))
  /\ (hermitian pc spectrum -> out = spectrum).

(** ** Inputs used in the examples *)

(** The configuration of the example processor: 48 kHz, 2048 points. *)
Definition pc_48k_2048 : PsychoacousticCorrection :=
  {| sampleRate := of_int 48000; fftSize := 2048 |}.

(** A curve of 20 dB at 20 Hz and 0 dB at every other table frequency. *)
Definition curve_20dB_at_20Hz : list num :=
  of_int 20 :: repeat zero 28.

(** A four-point transform and a spectrum that is not conjugate-symmetric:
    bin 3 is not the conjugate of bin 1. *)
Definition pc_4 : PsychoacousticCorrection :=
  {| sampleRate := of_int 48000; fftSize := 4 |}.

Definition spectrum_4 : list complex :=
  [ Cx (of_int 1) zero; Cx (of_int 2) (of_int 3);
    Cx (of_int 4) zero; Cx (of_int 5) (of_int 6) ].

Definition unit_gains_3 : list num := repeat (litf 1 1) 3.

(** An eight-point transform with a gain of 2 on every bin. *)
Definition pc_8 : PsychoacousticCorrection :=
  {| sampleRate := of_int 48000; fftSize := 8 |}.

Definition spectrum_8 : list complex :=
  map (fun k => Cx (of_int k) (of_int (k + 1))) (range 8).

Definition double_gains_5 : list num := repeat (of_int 2) 5.

End Correction.

(** ** The rest of [psychoacoustic_correction.cpp] and its callers *)

(** [std::log10], which [getCurrentCorrectionCurve] calls: a third libm
    function, a parameter like the other two. *)
Class LibmLog (A : Arith) := {
  log10 : num -> num
}.

Definition RR_log : LibmLog RR :=
  @Build_LibmLog RR (fun x => (ln x / ln 10)%R).

Definition F32_log (log10f : B32.t -> B32.t) : LibmLog F32 :=
  @Build_LibmLog F32 log10f.

(** *** OptimizedPsychoacousticEQ::calculateSimplifiedCorrection *)

Module Simplified.
Section Defs.

Context {A : Arith}.

Record SimplifiedEQ := {
  bassGain : num;
  midGain : num;
  trebleGain : num
}.

Definition calculateSimplifiedCorrection (currentPhon targetPhon : num)
  : SimplifiedEQ :=
  let phonDiff := sub targetPhon currentPhon in
  let compensationFactor := litf 4 10 in
  let bass := mul (mul phonDiff (litf 8 10)) compensationFactor in
  let mid := mul (mul phonDiff (litf 1 10)) compensationFactor in
  let treble := mul (mul phonDiff (litf 3 10)) compensationFactor in
  {| bassGain := clamp bass (neg (litf 6 1)) (litf 6 1);
     midGain := clamp mid (neg (litf 2 1)) (litf 2 1);
     trebleGain := clamp treble (neg (litf 3 1)) (litf 3 1) |}.

End Defs.
End Simplified.

(** *** class AdaptiveLoudnessEQ *)

Module AdaptiveLoudnessEQ.
Section Defs.

Context {A : Arith} {L : Libm A}.

Record t := {
  corrector : PsychoacousticCorrection;
  currentGains : list num;
  currentPhon : num;
  targetPhon : num
}.

(** The constructor: [corrector(sampleRate)] takes the default transform
    size 2048, and [currentGains(1025, 1.0f)]. *)
Definition make (sampleRate : num) : t :=
  {| corrector := {| sampleRate := sampleRate; fftSize := 2048 |};
     currentGains := repeat (litf 1 1) 1025;
     currentPhon := litf 40 1;
     targetPhon := litf 60 1 |}.

Definition updateEnvironment (eq : t) (noiseFloorDB playbackLevelDB : num)
  : t :=
  let currentPhon := playbackLevelDB in
  let targetPhon := add currentPhon (litf 5 1) in
  let correctionDB := calculateCorrectionCurve currentPhon targetPhon in
  let newGains := convertToFFTBins (corrector eq) correctionDB in
  let newGains :=
    smoothTransition newGains (currentGains eq) (litf 98 100) in
  {| corrector := corrector eq;
     currentGains := newGains;
     currentPhon := currentPhon;
     targetPhon := targetPhon |}.

(** A run of calls, one per pair (noise floor, playback level). *)
Definition updates (eq : t) (calls : list (num * num)) : t :=
  fold_left (fun e c => updateEnvironment e (fst c) (snd c)) calls eq.

End Defs.
End AdaptiveLoudnessEQ.

(** *** psychoacoustic_example.cpp: class PsychoacousticProcessor *)

(** The members that drive the correction; the transform, the window and
    the overlap buffers belong to the host framework and are left out.
    The two [std::atomic<float>] members are plain values here: every
    method below runs on one thread. *)
Module PsychoacousticProcessor.
Section Defs.

Context {A : Arith} {L : Libm A} {G : LibmLog A}.

Definition fftOrder : Z := 11.
Definition fftSize : Z := Z.shiftl 1 fftOrder.

Record t := {
  corrector : PsychoacousticCorrection;
  currentNoiseFloor : num;
  targetPhon : num;
  currentGains : list num
}.

Definition make : t :=
  {| corrector := Build_PsychoacousticCorrection (litf 48000 1) fftSize;
     currentNoiseFloor := litf 40 1;
     targetPhon := litf 52 1;
     currentGains := repeat (litf 1 1) (Z.to_nat (Z.quot fftSize 2 + 1)) |}.

Definition updateCorrectionCurve (p : t) : t :=
  let noise := currentNoiseFloor p in
  let target := targetPhon p in
  let currentPhon := add noise (litf 8 1) in
  let correctionDB := calculateCorrectionCurve currentPhon target in
  let newGains := convertToFFTBins (corrector p) correctionDB in
  let newGains := smoothTransition newGains (currentGains p) (litf 99 100) in
  {| corrector := corrector p;
     currentNoiseFloor := noise;
     targetPhon := target;
     currentGains := newGains |}.

(** [sampleRate] is the [double] argument converted to [float]. *)
Definition prepareToPlay (p : t) (sampleRate : num) : t :=
  updateCorrectionCurve
    {| corrector := Build_PsychoacousticCorrection sampleRate fftSize;
       currentNoiseFloor := currentNoiseFloor p;
       targetPhon := targetPhon p;
       currentGains := currentGains p |}.

Definition setNoiseFloor (p : t) (noiseDB : num) : t :=
  updateCorrectionCurve
    {| corrector := corrector p;
       currentNoiseFloor := noiseDB;
       targetPhon := targetPhon p;
       currentGains := currentGains p |}.

Definition setTargetPhon (p : t) (phon : num) : t :=
  updateCorrectionCurve
    {| corrector := corrector p;
       currentNoiseFloor := currentNoiseFloor p;
       targetPhon := phon;
       currentGains := currentGains p |}.

Definition applyPsychoacousticCorrection (p : t) (spectrum : list complex)
  : list complex :=
  applyCorrection (corrector p) spectrum (currentGains p) (litf 1 1).

Definition getCurrentCorrectionCurve (p : t) : list num :=
  map (fun gain => mul (litf 20 1) (log10 gain)) (currentGains p).

End Defs.
End PsychoacousticProcessor.

(** *** psychoacoustic_example.cpp: class SimplePsychoacousticEQ *)

(** The three settings and the band gains [updateFilters] computes from
    them; the filter design that consumes the gains is the host
    framework's. *)
Module SimplePsychoacousticEQ.
Section Defs.

Context {A : Arith}.

Record t := {
  currentNoiseFloor : num;
  currentPhon : num;
  targetPhon : num
}.

Definition make : t :=
  {| currentNoiseFloor := litf 40 1;
     currentPhon := litf 48 1;
     targetPhon := litf 53 1 |}.

Definition updateFilters_eq (s : t) : Simplified.SimplifiedEQ :=
  Simplified.calculateSimplifiedCorrection (currentPhon s) (targetPhon s).

(** The new settings, and the band gains handed to the filters. *)
Definition updateEnvironment (s : t) (noiseDB : num)
  : t * Simplified.SimplifiedEQ :=
  let currentPhon := add noiseDB (litf 8 1) in
  let targetPhon := add currentPhon (litf 5 1) in
  let s' := {| currentNoiseFloor := noiseDB;
               currentPhon := currentPhon;
               targetPhon := targetPhon |} in
  (s', updateFilters_eq s').

End Defs.
End SimplePsychoacousticEQ.

(** ** Vocabulary of the further statements *)

(** The all-zero correction curve and the all-unity gain vector. *)
Definition zero_curve {A : Arith} : list num :=
  repeat zero (Z.to_nat NUM_FREQUENCIES).

Definition unit_gains {A : Arith} (n : Z) : list num :=
  repeat (litf 1 1) (Z.to_nat n).

(** [+0.0f]. *)
Definition f32_is_pos_zero (x : B32.t) : bool :=
  match x with
  | S754_zero false => true
  | _ => false
  end.

(** A libm whose [pow] returns its exponent: run with it, the code of
    [convertToFFTBins] yields the exponent it passes to [pow]. *)
Definition F32_pow_exponent : Libm F32 :=
  F32_libm (fun _ y => y) (fun x => x).

(** A processor at 48 kHz whose 1025 gains are all [1]: it applies no
    correction. *)
Definition at_unity {A : Arith} (p : PsychoacousticProcessor.t) : Prop :=
  PsychoacousticProcessor.corrector p = pc_48k_2048
  /\ PsychoacousticProcessor.currentGains p = unit_gains 1025.

(** ** Well-formed binary32 inputs *)

(** Both parts of a spectrum entry are canonical binary32 values (NaN and
    the infinities included). *)
Definition valid_cx (z : @complex F32) : bool :=
  B32.valid (@re F32 z) && B32.valid (@im F32 z).

(** A gain vector of canonical, finite values. *)
Definition finite_gains (g : list B32.t) : Prop :=
  forall j, 0 <= j < Z.of_nat (length g) ->
    B32.valid (at_ (@zero F32) g j) = true
    /\ B32.is_finite (at_ (@zero F32) g j) = true.

(** ** The real value of a binary32 number and its rounding *)

(** Powers of two, and the real number that a finite binary32 value
    stands for (zeros, infinities and NaN are sent to [0]). *)
Definition bpow (e : Z) : R := powerRZ 2 e.

Definition B2R (x : B32.t) : R :=
  match x with
  | S754_finite s m e =>
      if s then (- (IZR (Zpos m) * bpow e))%R else (IZR (Zpos m) * bpow e)%R
  | _ => 0%R
  end.

(** [z] is an integer nearest to [y], the even one of the two on a tie. *)
Definition nearest_even (y : R) (z : Z) : Prop :=
  (Rabs (y - IZR z) < 1 / 2)%R
  \/ (Rabs (y - IZR z) = (1 / 2)%R /\ Z.even z = true).

(** The mantissa, round bit and sticky bit of [mrs] locate the real
    [y]: at the mantissa, in the lower half above it, at the middle, or
    in the upper half. *)
Definition located (y : R) (mrs : shr_record) : Prop :=
  let m := IZR (shr_m mrs) in
  match shr_r mrs, shr_s mrs with
  | false, false => y = m
  | false, true => (m < y < m + 1 / 2)%R
  | true, false => y = (m + 1 / 2)%R
  | true, true => (m + 1 / 2 < y < m + 1)%R
  end.

(** The binary32 value with sign [s] for the rounded mantissa [z] at
    exponent [e]: a mantissa that reached [2^24] is renormalised, an
    exponent beyond the largest one gives an infinity. *)
Definition encode (s : bool) (z e : Z) : B32.t :=
  let '(mrs, e') := shr_fexp B32.prec B32.emax z e loc_Exact in
  match shr_m mrs with
  | Z0 => S754_zero s
  | Zpos m =>
      if e' <=? B32.emax - B32.prec then S754_finite s m e'
      else S754_infinity s
  | Zneg _ => S754_nan
  end.

Definition in_binade (v : R) (mag : Z) : Prop :=
  (bpow (mag - 1) <= v < bpow mag)%R.

Definition fexp32 (mag : Z) : Z := fexp B32.prec B32.emax mag.

(** [r] is the binary32 value, of sign [s], nearest to the positive real
    [v] (ties to even); [rnd v r]: [r] is the rounding of the real [v]. *)
Definition rnd_pos (v : R) (s : bool) (r : B32.t) : Prop :=
  exists mag z,
    in_binade v mag
    /\ nearest_even (v / bpow (fexp32 mag)) z
    /\ r = encode s z (fexp32 mag).

Definition rnd (v : R) (r : B32.t) : Prop :=
  (v = 0%R /\ exists s, r = S754_zero s)
  \/ ((0 < v)%R /\ rnd_pos v false r)
  \/ ((v < 0)%R /\ rnd_pos (- v) true r).

Definition is_pos_or_zero (r : B32.t) : Prop :=
  match r with
  | S754_zero false | S754_finite false _ _ | S754_infinity false => True
  | _ => False
  end.

Definition is_neg_or_zero (r : B32.t) : Prop :=
  match r with
  | S754_zero true | S754_finite true _ _ | S754_infinity true => True
  | _ => False
  end.

(** ** Vocabulary of the statements on rounded values *)

(** Segment [i] of [FREQUENCIES] in binary32: its two ends and their
    difference [c] are finite, [c] is positive, and the ratio
    [(freq - f1) / c] of [convertToFFTBins] is at least [-4] at
    [freq = 0] and at most [1] at [freq = f2]. *)
Definition segment_ok (i : Z) : bool :=
  let f1 := @freq_at F32 i in
  let f2 := @freq_at F32 (i + 1) in
  let c := B32.fsub f2 f1 in
  B32.valid f1 && B32.valid f2 && B32.is_finite f1 && B32.is_finite f2
  && B32.valid c && B32.is_finite c && B32.flt (S754_zero false) c
  && B32.fle (B32.of_Z (-4)) (B32.fdiv (B32.fsub (S754_zero false) f1) c)
  && B32.fle (B32.fdiv c c) (B32.of_Z 1).

(** A correction curve whose 29 entries are canonical and lie within
    [-100] and [100] dB. *)
Definition moderate_curve (curve : list B32.t) : Prop :=
  forall i, 0 <= i < NUM_FREQUENCIES ->
    B32.valid (at_ (@zero F32) curve i) = true
    /\ B32.fle (B32.of_Z (-100)) (at_ (@zero F32) curve i) = true
    /\ B32.fle (at_ (@zero F32) curve i) (B32.of_Z 100) = true.

(** A transform size that is a positive [int] and a sample rate that is
    finite and not negative. *)
Definition usable_rate (pc : @PsychoacousticCorrection F32) : Prop :=
  0 < fftSize pc < 2 ^ 31
  /\ B32.valid (sampleRate pc) = true
  /\ B32.is_finite (sampleRate pc) = true
  /\ B32.fle (S754_zero false) (sampleRate pc) = true.

(** [powf(10.0f, y)] is positive for every exponent within [-b] and
    [b]. *)
Definition pow10_positive_on (powf : B32.t -> B32.t -> B32.t) (b : Z)
  : Prop :=
  forall y, B32.fle (B32.of_Z (- b)) y = true ->
            B32.fle y (B32.of_Z b) = true ->
    B32.flt (S754_zero false) (powf (B32.of_dec 10 1) y) = true.

(** The curve that asks for [-2000] dB at every frequency. *)
Definition curve_minus_2000 : list B32.t := repeat (B32.of_Z (-2000)) 29.

(** One band of [calculateSimplifiedCorrection]:
    [std::clamp(d * k * 0.4f, -lim, lim)]. *)
Definition band {A : Arith} (d k lim : num) : num :=
  clamp (mul (mul d k) (litf 4 10)) (neg lim) lim.

(** A monotone function with values in [[-1, 1]]: the identity, cut at
    [-1] and at [1]. *)
Definition clip_unit (x : B32.t) : B32.t :=
  @clamp F32 x (B32.fneg (B32.of_dec 1 1)) (B32.of_dec 1 1).

(** * Properties *)

(** ** Arrays and loops *)

Section ArrayFacts.

Context {T : Type}.
Implicit Types (a : list T) (v d : T).

Lemma upd_nat_length a i v : length (upd_nat a i v) = length a.
Proof.
  revert i; induction a as [|x r IH]; intros [|j]; simpl; auto.
Qed.

Lemma upd_length a i v : length (upd a i v) = length a.
Proof.
  unfold upd; destruct (i <? 0); auto using upd_nat_length.
Qed.

Lemma nth_upd_nat_same a i v d :
  (i < length a)%nat -> nth i (upd_nat a i v) d = v.
Proof.
  revert i; induction a as [|x r IH]; intros [|j] H; simpl in *;
    try lia; auto.
  apply IH; lia.
Qed.

Lemma nth_upd_nat_other a i j v d :
  i <> j -> nth j (upd_nat a i v) d = nth j a d.
Proof.
  revert i j; induction a as [|x r IH]; intros [|i] [|j] H; simpl;
    try congruence; auto.
Qed.

Lemma at_upd_same a i v d :
  0 <= i < Z.of_nat (length a) -> at_ d (upd a i v) i = v.
Proof.
  intros H; unfold at_, upd.
  destruct (Z.ltb_spec i 0); [lia|].
  apply nth_upd_nat_same; lia.
Qed.

Lemma at_upd_other a i j v d :
  0 <= j -> i <> j -> at_ d (upd a i v) j = at_ d a j.
Proof.
  intros Hj H; unfold at_, upd.
  destruct (Z.ltb_spec i 0); auto.
  apply nth_upd_nat_other; lia.
Qed.

Lemma at_repeat v d n i : 0 <= i < Z.of_nat n -> at_ d (repeat v n) i = v.
Proof.
  intros H; unfold at_.
  apply nth_repeat_lt; lia.
Qed.

End ArrayFacts.

Lemma range_succ n : 0 <= n -> range (n + 1) = range n ++ [n].
Proof.
  intros H; unfold range.
  replace (Z.to_nat (n + 1)) with (S (Z.to_nat n)) by lia.
  rewrite seq_S, map_app; simpl.
  now rewrite Z2Nat.id.
Qed.

Lemma range_nonpos n : n <= 0 -> range n = [].
Proof.
  intros H; unfold range.
  now replace (Z.to_nat n) with O by lia.
Qed.

Lemma in_range n i : In i (range n) <-> 0 <= i < n.
Proof.
  unfold range; rewrite in_map_iff; split.
  - intros (k & <- & Hk); apply in_seq in Hk; lia.
  - intros H; exists (Z.to_nat i); split; [lia|].
    apply in_seq; lia.
Qed.

(** Induction along a [for] loop: an invariant [P k s] that holds on entry
    and is kept by the body for each [k] in [0 .. n-1] holds on exit. *)
Lemma for_loop_ind {St : Type} (body : St -> Z -> St)
    (P : Z -> St -> Prop) (n : Z) (s0 : St) :
  0 <= n ->
  P 0 s0 ->
  (forall k s, 0 <= k < n -> P k s -> P (k + 1) (body s k)) ->
  P n (fold_left body (range n) s0).
Proof.
  intros Hn H0 Hstep.
  assert (G : forall m, (m <= Z.to_nat n)%nat ->
              P (Z.of_nat m) (fold_left body (range (Z.of_nat m)) s0)).
  { induction m as [|m IH]; intros Hm.
    - exact H0.
    - replace (Z.of_nat (S m)) with (Z.of_nat m + 1) by lia.
      rewrite range_succ, fold_left_app by lia; simpl.
      apply Hstep; [lia | apply IH; lia]. }
  specialize (G (Z.to_nat n) (Nat.le_refl _)).
  now rewrite Z2Nat.id in G.
Qed.

Lemma list_eq_at {T : Type} (d : T) (a b : list T) :
  length a = length b ->
  (forall j, 0 <= j < Z.of_nat (length a) -> at_ d a j = at_ d b j) ->
  a = b.
Proof.
  intros Hlen H; apply (nth_ext _ _ d d Hlen).
  intros n Hn; specialize (H (Z.of_nat n)).
  unfold at_ in H; rewrite Nat2Z.id in H; apply H; lia.
Qed.

(** ** The loops of [PsychoacousticCorrection], in any arithmetic *)

Section CorrectionFacts.

Context {A : Arith}.

Lemma numBins_bounds (pc : PsychoacousticCorrection) :
  0 < fftSize pc ->
  1 <= numBins_of pc <= fftSize pc
  /\ fftSize pc <= 2 * (numBins_of pc - 1) + 1
  /\ 2 * (numBins_of pc - 1) <= fftSize pc.
Proof.
  intros H; unfold numBins_of.
  rewrite Z.quot_div_nonneg by lia.
  pose proof (Z.div_mod (fftSize pc) 2 ltac:(lia)).
  pose proof (Z.mod_pos_bound (fftSize pc) 2 ltac:(lia)).
  lia.
Qed.

Ltac split_ltb :=
  repeat match goal with
    | |- context [?a <? ?b] => destruct (Z.ltb_spec a b); simpl
    end.

(** The loop of [applyCorrection]: what every index holds on exit, and
    which stores were made. *)
Lemma applyCorrection_log_inv (pc : PsychoacousticCorrection)
    (s0 : list complex) (gains : list num) (af : num) :
  0 < fftSize pc ->
  Z.of_nat (length s0) = fftSize pc ->
  let st := applyCorrection_log pc s0 gains af in
  length (fst st) = length s0
  /\ (forall j, 0 <= j < fftSize pc ->
        at_ czero (fst st) j
        = corrected_upto pc (numBins_of pc) s0 gains af j)
  /\ Forall (write_ok pc) (snd st).
Proof.
  intros Hpos Hlen.
  destruct (numBins_bounds pc Hpos) as (Hb1 & Hb2 & Hb3).
  unfold applyCorrection_log.
  apply (for_loop_ind (correct_bin pc gains af)
           (fun n st =>
              length (fst st) = length s0
              /\ (forall j, 0 <= j < fftSize pc ->
                    at_ czero (fst st) j
                    = corrected_upto pc n s0 gains af j)
              /\ Forall (write_ok pc) (snd st))).
  - lia.
  - simpl; split; [reflexivity|split; [|constructor]].
    intros j Hj; unfold corrected_upto.
    split_ltb; auto; lia.
  - intros k [s log] Hk (IHlen & IHat & IHlog);
      simpl in IHlen, IHat, IHlog.
    assert (Hsk : at_ czero s k = at_ czero s0 k).
    { rewrite IHat by lia; unfold corrected_upto.
      split_ltb; auto; lia. }
    unfold correct_bin.
    set (s1 := upd s k _).
    assert (Hs1k : at_ czero s1 k = scaled_bin s0 gains af k).
    { unfold s1; rewrite at_upd_same by lia.
      unfold scaled_bin; now rewrite Hsk. }
    assert (Hs1o : forall j, 0 <= j -> j <> k ->
                     at_ czero s1 j = at_ czero s j).
    { intros j Hj Hne; unfold s1; apply at_upd_other; auto. }
    assert (Hs1len : length s1 = length s0).
    { unfold s1; now rewrite upd_length. }
    destruct (Z.ltb_spec 0 k) as [Hk0|Hk0];
      destruct (Z.ltb_spec k (numBins_of pc - 1)) as [Hk1|Hk1]; simpl.
    all: split; [rewrite ?upd_length; auto|split].
    all: try (constructor; simpl; auto; try lia;
              try (constructor; simpl; auto; lia); eauto).
    all: intros j Hj; unfold corrected_upto.
    all: destruct (Z.eq_dec j k) as [->|Hjk].
    all: try (destruct (Z.eq_dec j (fftSize pc - k)) as [->|Hjm]).
    all: rewrite ?at_upd_same, ?at_upd_other, ?Hs1k by lia.
    all: try rewrite Hs1o by lia.
    all: try rewrite IHat by lia; unfold corrected_upto.
    all: split_ltb; try lia; try reflexivity; try (f_equal; f_equal; lia).
Qed.

(** The [while] loop of [convertToFFTBins] leaves on its own guard: the
    fuel never runs out first. *)
Lemma scan_idx_exit (fuel : nat) (idx : Z) (freq : num) :
  0 <= idx ->
  NUM_FREQUENCIES - 1 <= idx + Z.of_nat fuel ->
  let r := scan_idx fuel idx freq in
  idx <= r
  /\ (r <? NUM_FREQUENCIES - 1) && ltb (freq_at (r + 1)) freq = false
  /\ forall i, idx <= i < r -> ltb (freq_at (i + 1)) freq = true.
Proof.
  revert idx; induction fuel as [|fuel IH]; intros idx H0 Hf;
    cbn [scan_idx].
  - split; [lia|split; [|intros; lia]].
    destruct (Z.ltb_spec idx (NUM_FREQUENCIES - 1)); [lia|reflexivity].
  - destruct ((idx <? NUM_FREQUENCIES - 1) && ltb (freq_at (idx + 1)) freq)
      eqn:E.
    + destruct (IH (idx + 1)) as (H1 & H2 & H3); [lia|lia|].
      split; [lia|split; [exact H2|]].
      intros i Hi; destruct (Z.eq_dec i idx) as [->|Hne].
      * now apply andb_prop in E.
      * apply H3; lia.
    + split; [lia|split; [exact E|intros; lia]].
Qed.

(** When every table frequency from [idx + 1] on is below [freq], the
    scan runs to the last index. *)
Lemma scan_idx_all (fuel : nat) (idx : Z) (freq : num) :
  0 <= idx <= NUM_FREQUENCIES - 1 ->
  Z.of_nat fuel = NUM_FREQUENCIES - 1 - idx ->
  (forall i, idx <= i < NUM_FREQUENCIES - 1 ->
     ltb (freq_at (i + 1)) freq = true) ->
  scan_idx fuel idx freq = NUM_FREQUENCIES - 1.
Proof.
  revert idx; induction fuel as [|fuel IH]; intros idx H0 Hf Hall;
    cbn [scan_idx].
  - lia.
  - rewrite Hall by lia.
    destruct (Z.ltb_spec idx (NUM_FREQUENCIES - 1)); simpl; [|lia].
    apply IH; [lia|lia|].
    intros i Hi; apply Hall; lia.
Qed.

(** When the first comparison fails the scan stays at [0]. *)
Lemma scan_idx_stay (fuel : nat) (freq : num) :
  ltb (freq_at 1) freq = false -> scan_idx fuel 0 freq = 0.
Proof.
  intros H; destruct fuel; cbn [scan_idx]; [reflexivity|].
  change (0 + 1) with 1.
  now rewrite H, andb_false_r.
Qed.

(** The loop of [convertToFFTBins]: the length of the result and the
    value of every bin. *)
Lemma convertToFFTBins_at {L : Libm A} (pc : PsychoacousticCorrection)
    (curve : list num) :
  let out := convertToFFTBins pc curve in
  length out = Z.to_nat (numBins_of pc)
  /\ forall bin, 0 <= bin < numBins_of pc ->
       at_ zero out bin = bin_gain pc curve bin.
Proof.
  unfold convertToFFTBins.
  remember (numBins_of pc) as n eqn:Hn.
  destruct (Z.leb_spec 0 n) as [Hpos|Hneg].
  2:{ rewrite range_nonpos by lia; simpl.
      rewrite repeat_length; split; [reflexivity|intros; lia]. }
  pose (P := fun (k : Z) (g : list num) =>
               length g = Z.to_nat n
               /\ forall bin, 0 <= bin < n ->
                    at_ zero g bin
                    = if bin <? k then bin_gain pc curve bin else litf 1 1).
  assert (G : P n (fold_left (convert_bin pc curve) (range n)
                             (repeat (litf 1 1) (Z.to_nat n)))).
  { apply (for_loop_ind _ P); unfold P; [lia| |].
    - rewrite repeat_length; split; [reflexivity|].
      intros bin Hb; rewrite at_repeat by lia; split_ltb; auto; lia.
    - intros k g Hk (IHlen & IHat); unfold convert_bin.
      destruct (bin_idx pc k <? NUM_FREQUENCIES - 1) eqn:E.
      + split; [now rewrite upd_length|].
        intros bin Hb; destruct (Z.eq_dec bin k) as [->|Hne].
        * rewrite at_upd_same by lia.
          unfold bin_gain; rewrite E; split_ltb; auto; lia.
        * rewrite at_upd_other, IHat by lia; split_ltb; auto; lia.
      + split; [exact IHlen|].
        intros bin Hb; rewrite IHat by lia.
        destruct (Z.eq_dec bin k) as [->|Hne].
        * unfold bin_gain; rewrite E; split_ltb; auto; lia.
        * split_ltb; auto; lia. }
  destruct G as (Glen & Gat); split; [exact Glen|].
  intros bin Hb; rewrite Gat by lia; split_ltb; auto; lia.
Qed.

(** The loop of [smoothTransition]: index [j] holds the blend of the two
    inputs at [j]. *)
Lemma smoothTransition_at (newGains currentGains : list num) (s : num) :
  let out := smoothTransition newGains currentGains s in
  length out = length newGains
  /\ forall j, 0 <= j < Z.of_nat (length newGains) ->
       at_ zero out j
       = blend (at_ zero newGains j) (at_ zero currentGains j) s.
Proof.
  unfold smoothTransition.
  remember (Z.of_nat (length newGains)) as n eqn:Hn.
  pose (P := fun (k : Z) (st : list num) =>
                 length st = length newGains
                 /\ forall j, 0 <= j < n ->
                      at_ zero st j
                      = if j <? k
                        then blend (at_ zero newGains j)
                                   (at_ zero currentGains j) s
                        else at_ zero newGains j).
  assert (G : P n (fold_left (smooth_bin currentGains s) (range n)
                             newGains)).
  { apply (for_loop_ind _ P); unfold P; [lia| |].
    - split; [reflexivity|]; intros j Hj; split_ltb; auto; lia.
    - intros k st Hk (IHlen & IHat); unfold smooth_bin; split.
      + now rewrite upd_length.
      + intros j Hj; destruct (Z.eq_dec j k) as [->|Hne].
        * rewrite at_upd_same by lia.
          rewrite IHat by lia; split_ltb; try lia; reflexivity.
        * rewrite at_upd_other, IHat by lia; split_ltb; auto; lia. }
  destruct G as (Glen & Gat); split; [exact Glen|].
  intros j Hj; rewrite Gat by lia; split_ltb; auto; lia.
Qed.

(** With both references on one vector the loop computes the same. *)
Lemma smoothTransition_self_eq (gains : list num) (s : num) :
  smoothTransition_self gains s = smoothTransition gains gains s.
Proof.
  destruct (smoothTransition_at gains gains s) as (Hlen & Hat).
  unfold smoothTransition_self.
  remember (Z.of_nat (length gains)) as n eqn:Hn.
  pose (P := fun (k : Z) (st : list num) =>
                 length st = length gains
                 /\ forall j, 0 <= j < n ->
                      at_ zero st j
                      = if j <? k
                        then blend (at_ zero gains j) (at_ zero gains j) s
                        else at_ zero gains j).
  assert (G : P n (fold_left (smooth_bin_self s) (range n) gains)).
  { apply (for_loop_ind _ P); unfold P; [lia| |].
    - split; [reflexivity|]; intros j Hj; split_ltb; auto; lia.
    - intros k st Hk (IHlen & IHat); unfold smooth_bin_self, smooth_bin; split.
      + now rewrite upd_length.
      + intros j Hj; destruct (Z.eq_dec j k) as [->|Hne].
        * rewrite at_upd_same by lia.
          rewrite IHat by lia; split_ltb; try lia; reflexivity.
        * rewrite at_upd_other, IHat by lia; split_ltb; auto; lia. }
  destruct G as (Glen & Gat).
  apply (list_eq_at zero); [congruence|].
  intros j Hj; rewrite Glen in Hj.
  rewrite Gat, Hat by lia; split_ltb; auto; lia.
Qed.

(** When the effective gain leaves every lower bin as it is (as a gain of
    one does), the loop changes nothing below [B] and stores the
    conjugate of bin [k] at [fftSize - k]. *)
Lemma applyCorrection_unit_gain (pc : PsychoacousticCorrection)
    (spectrum : list complex) (gains : list num) (af : num) :
  0 < fftSize pc ->
  Z.of_nat (length spectrum) = fftSize pc ->
  (forall k, 0 <= k < numBins_of pc ->
     scaled_bin spectrum gains af k = at_ czero spectrum k) ->
  strength_zero_effect pc spectrum
    (applyCorrection pc spectrum gains af).
Proof.
  intros Hpos Hlen Hunit; unfold strength_zero_effect.
  set (out := applyCorrection pc spectrum gains af).
  destruct (numBins_bounds pc Hpos) as (Hb1 & Hb2 & Hb3).
  destruct (applyCorrection_log_inv pc spectrum gains af Hpos Hlen)
    as (Glen & Gat & _).
  fold (applyCorrection pc spectrum gains af) in Glen, Gat.
  fold out in Glen, Gat.
  assert (Hat : forall j, 0 <= j < fftSize pc ->
            at_ czero out j
            = if (numBins_of pc <=? j) && (0 <? fftSize pc - j)
                 && (fftSize pc - j <? numBins_of pc - 1)
              then conj (at_ czero spectrum (fftSize pc - j))
              else at_ czero spectrum j).
  { intros j Hj; rewrite Gat by exact Hj; unfold corrected_upto.
    destruct (Z.leb_spec (numBins_of pc) j);
      destruct (Z.ltb_spec j (numBins_of pc));
      destruct (Z.ltb_spec 0 (fftSize pc - j));
      destruct (Z.ltb_spec (fftSize pc - j)
                           (Z.min (numBins_of pc) (numBins_of pc - 1)));
      destruct (Z.ltb_spec (fftSize pc - j) (numBins_of pc - 1));
      simpl; try reflexivity; try lia;
      rewrite Hunit by lia; reflexivity. }
  split; [exact Glen|split; [|split]].
  - intros k Hk; rewrite Hat by lia.
    destruct (Z.leb_spec (numBins_of pc) k); [lia|reflexivity].
  - intros k Hk; rewrite Hat by lia.
    destruct (Z.leb_spec (numBins_of pc) (fftSize pc - k));
      destruct (Z.ltb_spec 0 (fftSize pc - (fftSize pc - k)));
      destruct (Z.ltb_spec (fftSize pc - (fftSize pc - k))
                           (numBins_of pc - 1)); simpl; try lia.
    do 2 f_equal; lia.
  - intros Hherm; apply (list_eq_at czero); [exact Glen|].
    intros j Hj; rewrite Glen in Hj; rewrite Hat by lia.
    destruct (Z.leb_spec (numBins_of pc) j);
      destruct (Z.ltb_spec 0 (fftSize pc - j));
      destruct (Z.ltb_spec (fftSize pc - j) (numBins_of pc - 1));
      simpl; try reflexivity.
    rewrite <- Hherm by lia.
    f_equal; lia.
Qed.

(** Every bin is the initial [1.0f] or a value returned by [pow]. *)
Lemma bin_gain_cases {L : Libm A} (pc : PsychoacousticCorrection)
    (curve : list num) (bin : Z) :
  bin_gain pc curve bin = litf 1 1
  \/ exists x, bin_gain pc curve bin = pow (litf 10 1) x.
Proof.
  unfold bin_gain, interpolated_gain.
  destruct (bin_idx pc bin <? NUM_FREQUENCIES - 1); eauto.
Qed.

(** The result of [convertToFFTBins] has [fftSize/2 + 1] entries, each
    the initial [1.0f] or a value returned by [pow(10.0f, _)]. *)
Lemma convertToFFTBins_shape {L : Libm A} (pc : PsychoacousticCorrection)
    (curve : list num) :
  0 < fftSize pc ->
  let out := convertToFFTBins pc curve in
  Z.of_nat (length out) = Z.quot (fftSize pc) 2 + 1
  /\ Forall (fun g => g = litf 1 1 \/ exists x, g = pow (litf 10 1) x) out.
Proof.
  intros Hpos out.
  destruct (numBins_bounds pc Hpos) as (Hb1 & _).
  destruct (convertToFFTBins_at pc curve) as (Hlen & Hat).
  fold out in Hlen, Hat.
  split; [rewrite Hlen; unfold numBins_of in *; lia|].
  apply Forall_forall; intros g Hin.
  destruct (In_nth out g zero Hin) as (n & Hn & <-).
  specialize (Hat (Z.of_nat n)).
  unfold at_ in Hat at 1; rewrite Nat2Z.id in Hat.
  rewrite Hat by lia.
  apply bin_gain_cases.
Qed.

(** C4. After [applyCorrection] on a spectrum of [fftSize] entries, with
    [B = fftSize/2 + 1]: for every [k] with [0 < k < B - 1] the entry
    [fftSize - k] is exactly the conjugate of the entry [k]; and no
    mirrored (conjugate) store is ever made to bin [0] (DC) or to bin
    [B - 1] (Nyquist).  This holds in every arithmetic, binary32
    included. *)
Theorem C4_conjugate_symmetry_after_correction
    (pc : PsychoacousticCorrection) (spectrum : list complex)
    (gains : list num) (strength : num) :
  0 < fftSize pc ->
  Z.of_nat (length spectrum) = fftSize pc ->
  Z.of_nat (length gains) = numBins_of pc ->
  let out := applyCorrection pc spectrum gains strength in
  let stores := snd (applyCorrection_log pc spectrum gains strength) in
  (forall k, 0 < k < numBins_of pc - 1 ->
     at_ czero out (fftSize pc - k) = conj (at_ czero out k))
  /\ ~ In (Mirrored 0) stores
  /\ ~ In (Mirrored (numBins_of pc - 1)) stores.
Proof.
  intros Hpos Hlen _ out stores.
  destruct (numBins_bounds pc Hpos) as (Hb1 & Hb2 & Hb3).
  destruct (applyCorrection_log_inv pc spectrum gains strength Hpos Hlen)
    as (_ & Hat & Hlog).
  fold (applyCorrection pc spectrum gains strength) in Hat.
  fold out in Hat; fold stores in Hlog.
  rewrite Forall_forall in Hlog.
  split; [|split].
  - intros k Hk; rewrite !Hat by lia; unfold corrected_upto.
    split_ltb; try lia.
    do 3 f_equal; lia.
  - intros Hin; destruct (Hlog _ Hin) as (k & Hk & E); lia.
  - intros Hin; destruct (Hlog _ Hin) as (k & Hk & E); lia.
Qed.

End CorrectionFacts.

(** ** Comparisons of binary32 *)

Module B32Facts.
Import B32.

Ltac cmp_cases :=
  repeat match goal with
    | H : context [Pos.compare_cont Eq ?a ?b] |- _ =>
        change (Pos.compare_cont Eq a b) with (Pos.compare a b) in H
    | |- context [Pos.compare_cont Eq ?a ?b] =>
        change (Pos.compare_cont Eq a b) with (Pos.compare a b)
    end;
  repeat match goal with
    | H : context [Z.compare ?a ?b] |- _ =>
        destruct (Z.compare_spec a b); simpl in H
    | |- context [Z.compare ?a ?b] =>
        destruct (Z.compare_spec a b); simpl
    | H : context [Pos.compare ?a ?b] |- _ =>
        destruct (Pos.compare_spec a b); simpl in H
    | |- context [Pos.compare ?a ?b] =>
        destruct (Pos.compare_spec a b); simpl
    end.

Ltac by_cases :=
  unfold flt, fle, SFltb, SFleb, SFcompare;
  repeat match goal with
    | x : t |- _ => destruct x as [[]|[]| |[] ? ?]
    end;
  simpl; intros; try discriminate; try reflexivity;
  cmp_cases; try discriminate; try reflexivity; try lia.

Lemma flt_not_fle (a b : t) : flt a b = true -> fle b a = false.
Proof. by_cases. Qed.

Lemma fle_not_flt (a b : t) : fle a b = true -> flt b a = false.
Proof. by_cases. Qed.

Lemma fle_flt_trans (a b c : t) :
  fle a b = true -> flt b c = true -> flt a c = true.
Proof. by_cases. Qed.

Lemma flt_fle_trans (a b c : t) :
  flt a b = true -> fle b c = true -> flt a c = true.
Proof. by_cases. Qed.

(** Outside NaN the order is total. *)
Lemma not_flt_fle (a b : t) :
  is_nan a = false -> is_nan b = false -> flt a b = false -> fle b a = true.
Proof. unfold is_nan; by_cases. Qed.

End B32Facts.

(** ** The table scans in binary32 *)

Section F32Scan.

Import B32Facts.
#[local] Existing Instance F32.

Lemma table_sorted_f32 :
  forallb (fun i => B32.fle (freq_at 0) (freq_at i)
                    && B32.fle (freq_at i) (freq_at 28))
          (range 29)
  = true.
Proof. vm_compute; reflexivity. Qed.

Lemma freq_between_f32 (i : Z) :
  0 <= i <= 28 ->
  B32.fle (freq_at 0) (freq_at i) = true
  /\ B32.fle (freq_at i) (freq_at 28) = true.
Proof.
  intros Hi.
  pose proof table_sorted_f32 as H.
  rewrite forallb_forall in H.
  specialize (H i); rewrite in_range in H.
  apply andb_prop, H; lia.
Qed.

Lemma find_freqIdx_none_f32 (n : nat) (i : Z) (f : num) :
  0 <= i -> i + Z.of_nat n <= 28 ->
  out_of_table_range f ->
  find_freqIdx n i f = 0.
Proof.
  intros H0 Hn Hout; revert i H0 Hn.
  induction n as [|n IH]; intros i H0 Hn; cbn [find_freqIdx]; [reflexivity|].
  replace (leb (freq_at i) f && leb f (freq_at (i + 1))) with false.
  { apply IH; lia. }
  symmetry; destruct Hout as [Hlo|Hhi].
  - apply andb_false_intro1.
    apply flt_not_fle; eapply flt_fle_trans; [exact Hlo|].
    apply freq_between_f32; lia.
  - apply andb_false_intro2.
    apply flt_not_fle; eapply fle_flt_trans; [|exact Hhi].
    apply freq_between_f32; lia.
Qed.

Lemma freqIdx_out_of_range_f32 (f : num) :
  out_of_table_range f -> freqIdx_of f = 0.
Proof. intros H; apply find_freqIdx_none_f32; simpl; auto; lia. Qed.

End F32Scan.

(** ** Rounding of binary32: multiplication by one *)

Module B32Round.
Import B32.

Lemma one_eq : of_dec 1 1 = S754_finite false 8388608 (-23).
Proof. vm_compute; reflexivity. Qed.

Lemma digits_shift (m : positive) :
  Zpos (digits2_pos (m * 8388608)) = Zpos (digits2_pos m) + 23.
Proof.
  rewrite Pos.mul_comm; cbn [Pos.mul digits2_pos]; lia.
Qed.

(** The product of a canonical mantissa with the mantissa [2^23] of [1.0f]
    is shifted back by 23 bits, exactly. *)
Lemma shr_fexp_shift (m : positive) (e : Z) :
  fexp prec emax (Zpos (digits2_pos m) + e) = e ->
  shr_fexp prec emax (Zpos (m * 8388608)) (e + -23) loc_Exact
  = (Build_shr_record (Zpos m) false false, e).
Proof.
  intros Hc; unfold shr_fexp, Zdigits2.
  rewrite digits_shift.
  replace (Z.pos (digits2_pos m) + 23 + (e + -23))
    with (Z.pos (digits2_pos m) + e) by lia.
  rewrite Hc.
  replace (e - (e + -23)) with 23 by lia.
  rewrite Pos.mul_comm.
  cbn [Pos.mul shr shr_record_of_loc iter_pos shr_1 orb].
  f_equal; lia.
Qed.

Lemma shr_fexp_canonical (m : positive) (e : Z) :
  fexp prec emax (Zpos (digits2_pos m) + e) = e ->
  shr_fexp prec emax (Zpos m) e loc_Exact
  = (Build_shr_record (Zpos m) false false, e).
Proof.
  intros Hc; unfold shr_fexp, Zdigits2.
  now rewrite Hc, Z.sub_diag.
Qed.

Lemma fmul_one_r (x : t) : valid x = true -> fmul x (of_dec 1 1) = x.
Proof.
  rewrite one_eq.
  destruct x as [s|s| |s m e]; try reflexivity.
  - destruct s; reflexivity.
  - destruct s; reflexivity.
  - unfold valid, valid_binary, bounded, canonical_mantissa.
    intros H; apply andb_prop in H; destruct H as [Hc Hb].
    apply Z.eqb_eq in Hc.
    unfold fmul, SFmul, binary_round_aux.
    rewrite (shr_fexp_shift m e Hc).
    cbn [shr_m loc_of_shr_record round_nearest_even].
    rewrite (shr_fexp_canonical m e Hc).
    cbn [shr_m]; rewrite Hb.
    now rewrite xorb_false_r.
Qed.

(** [1 + d * 0 = 1] as soon as [d] is finite. *)
Lemma one_plus_finite_times_zero (d : t) :
  is_finite d = true ->
  fadd (of_dec 1 1) (fmul d (of_Z 0)) = of_dec 1 1.
Proof.
  rewrite one_eq; destruct d as [s|s| |s m e]; try discriminate;
    intros _; destruct s; reflexivity.
Qed.

End B32Round.

(** ** The program in binary32 *)

Section Binary32Program.

Import B32Facts.
#[local] Existing Instance F32.

(** *** interpolatePhonToSPL and calculateCorrectionCurve *)

(** C5. For every phon level [p], also NaN and the infinities,
    [calculateCorrectionCurve p p] is the vector of [N = 29] entries that
    are all exactly [+0.0f]. *)
Theorem C5_same_level_zero_correction (p : num) :
  calculateCorrectionCurve p p = repeat zero (Z.to_nat NUM_FREQUENCIES).
Proof.
  unfold calculateCorrectionCurve, interpolatePhonToSPL, phonIdx_of.
  destruct (ltb (of_int 50) p); vm_compute; reflexivity.
Qed.

Lemma phonIdx_same_side (p1 p2 : num) :
  same_side_of_50 p1 p2 -> phonIdx_of p1 = phonIdx_of p2.
Proof.
  unfold phonIdx_of; intros [[H1 H2]|[H1 H2]].
  - apply fle_not_flt in H1, H2.
    change (ltb (of_int 50) p1 = false) in H1.
    change (ltb (of_int 50) p2 = false) in H2.
    now rewrite H1, H2.
  - now rewrite H1, H2.
Qed.

(** C6. For two phon levels on the same side of 50 (both [<= 50] or both
    [> 50]), [interpolatePhonToSPL] returns the same value at every
    frequency of the table range, and [calculateCorrectionCurve p1 p2] is
    the all-zero vector. *)
Theorem C6_same_side_no_correction (p1 p2 : num) :
  same_side_of_50 p1 p2 ->
  (forall f, in_table_range f ->
     interpolatePhonToSPL f p1 = interpolatePhonToSPL f p2)
  /\ calculateCorrectionCurve p1 p2
     = repeat zero (Z.to_nat NUM_FREQUENCIES).
Proof.
  intros H; apply phonIdx_same_side in H; split.
  - intros f _; unfold interpolatePhonToSPL; now rewrite H.
  - unfold calculateCorrectionCurve, interpolatePhonToSPL.
    rewrite H; unfold phonIdx_of.
    destruct (ltb (of_int 50) p2); vm_compute; reflexivity.
Qed.

Lemma C6_witness :
  same_side_of_50 (of_int 40) (of_int 45)
  /\ in_table_range (of_int 1000)
  /\ interpolatePhonToSPL (of_int 1000) (of_int 40)
     = interpolatePhonToSPL (of_int 1000) (of_int 45)
  /\ calculateCorrectionCurve (of_int 40) (of_int 45)
     = repeat zero (Z.to_nat NUM_FREQUENCIES).
Proof.
  assert (H : same_side_of_50 (of_int 40) (of_int 45)).
  { left; split; vm_compute; reflexivity. }
  assert (R : in_table_range (of_int 1000)).
  { split; vm_compute; reflexivity. }
  destruct (C6_same_side_no_correction _ _ H) as (G1 & G2).
  split; [exact H|split; [exact R|split; [exact (G1 _ R)|exact G2]]].
Defined.

(** C10. For every phon level and every frequency below 20 Hz or above
    12.5 kHz the bracket index stays [0] and the result is the linear
    extrapolation along the first table segment (20-25 Hz); at frequency
    [0] that is [spl1 - 4 * (spl2 - spl1)], which is not the table's edge
    value [spl1]. *)
Theorem C10_out_of_range_extrapolates (f p : num) :
  out_of_table_range f ->
  let spl1 := spl_at (phonIdx_of p) 0 in
  let spl2 := spl_at (phonIdx_of p) 1 in
  freqIdx_of f = 0
  /\ interpolatePhonToSPL f p = lerp f (freq_at 0) (freq_at 1) spl1 spl2
  /\ interpolatePhonToSPL zero p = sub spl1 (mul (of_int 4) (sub spl2 spl1))
  /\ interpolatePhonToSPL zero p <> spl1.
Proof.
  intros Hout spl1 spl2.
  pose proof (freqIdx_out_of_range_f32 f Hout) as Hidx.
  split; [exact Hidx|split; [|split]].
  - unfold interpolatePhonToSPL; rewrite Hidx; reflexivity.
  - subst spl1 spl2; unfold interpolatePhonToSPL, phonIdx_of.
    destruct (ltb (of_int 50) p); vm_compute; reflexivity.
  - subst spl1 spl2; unfold interpolatePhonToSPL, phonIdx_of.
    destruct (ltb (of_int 50) p); vm_compute; discriminate.
Qed.

Lemma C10_witness :
  out_of_table_range (of_int 15000)
  /\ freqIdx_of (of_int 15000) = 0
  /\ interpolatePhonToSPL (of_int 15000) (of_int 40)
     = lerp (of_int 15000) (freq_at 0) (freq_at 1)
            (spl_at 2 0) (spl_at 2 1).
Proof.
  assert (H : out_of_table_range (of_int 15000)).
  { right; vm_compute; reflexivity. }
  split; [exact H|].
  pose proof (C10_out_of_range_extrapolates (of_int 15000) (of_int 40) H)
    as G.
  split; [exact (proj1 G)|exact (proj1 (proj2 G))].
Defined.

(** C2 fails on the code.  [interpolatePhonToSPL] does not interpolate
    along the phon axis: for every input the result is the interpolation
    in frequency within one row, row 3 above 50 phon and row 2 otherwise.
    At 1000 Hz it returns 29.0 both for 0 phon and for 50 phon, where the
    bilinear interpolation of the specification returns the tabulated 4.2
    at 0 phon. *)
Theorem C2_phon_axis_not_interpolated :
  (forall f p,
     interpolatePhonToSPL f p
     = row_interp (if ltb (of_int 50) p then 3 else 2) (freqIdx_of f) f)
  /\ interpolatePhonToSPL (of_int 1000) (of_int 0) = lit 290 10
  /\ interpolatePhonToSPL (of_int 1000) (of_int 50) = lit 290 10
  /\ bilinear_spec (of_int 1000) (of_int 0) = lit 42 10
  /\ interpolatePhonToSPL (of_int 1000) (of_int 0)
     <> bilinear_spec (of_int 1000) (of_int 0).
Proof.
  split; [intros f p; reflexivity|].
  repeat split; try (vm_compute; reflexivity).
  vm_compute; discriminate.
Qed.

(** *** applyCorrection with strength 0 *)

(** C3 as stated fails.  With strength 0 and unit gains the four-point
    spectrum [1, 2+3i, 4, 5+6i] is not left unchanged: bin 3 becomes
    [2-3i], the conjugate of bin 1. *)
Lemma C3_counterexample :
  Z.of_nat (length spectrum_4) = fftSize pc_4
  /\ Z.of_nat (length unit_gains_3) = numBins_of pc_4
  /\ applyCorrection pc_4 spectrum_4 unit_gains_3 zero <> spectrum_4.
Proof.
  split; [reflexivity|split; [reflexivity|]].
  intros H; apply (f_equal (fun s => im (at_ czero s 3))) in H.
  vm_compute in H; discriminate H.
Qed.

(** In binary32 the effective gain at strength 0 is exactly [1.0f] when
    [g - 1.0f] is finite, and scaling a well-formed entry by [1.0f]
    returns it bit for bit. *)
Lemma applyCorrection_strength_zero_f32 (pc : PsychoacousticCorrection)
    (spectrum : list complex) (gains : list num) :
  0 < fftSize pc ->
  Z.of_nat (length spectrum) = fftSize pc ->
  (forall k, 0 <= k < numBins_of pc ->
     valid_cx (at_ czero spectrum k) = true
     /\ B32.is_finite (sub (at_ zero gains k) (litf 1 1)) = true) ->
  strength_zero_effect pc spectrum
    (applyCorrection pc spectrum gains zero).
Proof.
  intros Hpos Hlen Hok.
  apply applyCorrection_unit_gain; auto.
  intros k Hk; destruct (Hok k Hk) as (Hv & Hf).
  unfold scaled_bin, effective_gain.
  change (add (litf 1 1) (mul (sub (at_ zero gains k) (litf 1 1)) zero))
    with (B32.fadd (B32.of_dec 1 1)
            (B32.fmul (sub (at_ zero gains k) (litf 1 1)) (B32.of_Z 0))).
  rewrite B32Round.one_plus_finite_times_zero by exact Hf.
  destruct (at_ czero spectrum k) as [r i].
  unfold valid_cx in Hv; apply andb_prop in Hv; destruct Hv as (Hr & Hi).
  unfold cscale; simpl in *.
  now rewrite !B32Round.fmul_one_r.
Qed.

(** *** smoothTransition *)

(** C7 as stated fails.  In binary32 the blend of [3.0f] with itself at
    [s = 0.1f] is [2.9999998f]: [3*0.1f] rounds to [0.3000000119],
    [1 - 0.1f] to [0.8999999762], [3*0.8999999762] to [2.6999998093], and
    their sum to [2.9999997616]. *)
Lemma C7_counterexample :
  smoothTransition [of_int 3] [of_int 3] (litf 1 10) <> [of_int 3]
  /\ smoothTransition_self [of_int 3] (litf 1 10) <> [of_int 3].
Proof.
  split; intros H; apply (f_equal (fun g => at_ zero g 0)) in H;
    vm_compute in H; discriminate H.
Qed.

Lemma blend_3_tenth_value :
  smoothTransition [of_int 3] [of_int 3] (litf 1 10)
  = [S754_finite false 12582911 (-22)]
  /\ of_int 3 = S754_finite false 12582912 (-22).
Proof. split; vm_compute; reflexivity. Qed.

(** At the two ends of the range of [smoothingFactor] nothing is rounded:
    for finite gains the blend with itself is exact. *)
Lemma blend_self_endpoints_f32 (x : num) :
  B32.valid x = true -> B32.is_finite x = true ->
  blend x x (litf 1 1) = x /\ blend x x zero = x.
Proof.
  intros Hv Hf; unfold blend.
  change (sub (litf 1 1) (litf 1 1)) with (B32.fsub (B32.of_dec 1 1)
                                                  (B32.of_dec 1 1)).
  change (sub (litf 1 1) zero) with (B32.fsub (B32.of_dec 1 1) (B32.of_Z 0)).
  replace (B32.fsub (B32.of_dec 1 1) (B32.of_dec 1 1)) with (B32.of_Z 0)
    by (vm_compute; reflexivity).
  replace (B32.fsub (B32.of_dec 1 1) (B32.of_Z 0)) with (B32.of_dec 1 1)
    by (vm_compute; reflexivity).
  change (mul x (litf 1 1)) with (B32.fmul x (B32.of_dec 1 1)).
  change (mul x (B32.of_dec 1 1)) with (B32.fmul x (B32.of_dec 1 1)).
  rewrite !B32Round.fmul_one_r by exact Hv.
  destruct x as [s|s| |s m e]; try discriminate;
    destruct s; split; reflexivity.
Qed.

Lemma smoothTransition_endpoints_f32 (g : list num) :
  finite_gains g ->
  smoothTransition g g (litf 1 1) = g /\ smoothTransition g g zero = g.
Proof.
  intros Hg; split.
  - destruct (smoothTransition_at g g (litf 1 1)) as (Hlen & Hat).
    apply (list_eq_at zero); [exact Hlen|].
    intros j Hj; rewrite Hlen in Hj; rewrite Hat by exact Hj.
    destruct (Hg j Hj) as (Hv & Hf).
    apply (blend_self_endpoints_f32 _ Hv Hf).
  - destruct (smoothTransition_at g g zero) as (Hlen & Hat).
    apply (list_eq_at zero); [exact Hlen|].
    intros j Hj; rewrite Hlen in Hj; rewrite Hat by exact Hj.
    destruct (Hg j Hj) as (Hv & Hf).
    apply (blend_self_endpoints_f32 _ Hv Hf).
Qed.

(** *** convertToFFTBins and getAdaptiveCompensationFactor, for any libm *)

Section WithLibm.

Variable powf : B32.t -> B32.t -> B32.t.
Variable tanhf : B32.t -> B32.t.

Let libm : Libm F32 := F32_libm powf tanhf.

(** A bin whose centre frequency lies above the last table frequency
    keeps the initial gain [1.0f]. *)
Lemma convertToFFTBins_above_range_unity_f32
    (pc : PsychoacousticCorrection) (curve : list num) (bin : Z) :
  0 <= bin < numBins_of pc ->
  ltb (freq_at (NUM_FREQUENCIES - 1)) (bin_freq pc bin) = true ->
  at_ zero (convertToFFTBins (L:=libm) pc curve) bin = litf 1 1.
Proof.
  intros Hb Hhi.
  destruct (convertToFFTBins_at (L:=libm) pc curve) as (_ & Hat).
  rewrite Hat by exact Hb.
  unfold bin_gain, bin_idx.
  rewrite scan_idx_all; [reflexivity|simpl; lia|reflexivity|].
  intros i Hi; eapply fle_flt_trans; [|exact Hhi].
  apply freq_between_f32; unfold NUM_FREQUENCIES in Hi; lia.
Qed.

(** The DC bin of the 48 kHz / 2048-point configuration has centre
    frequency [0], below the table, and does not keep the gain [1.0f]:
    the scan leaves [idx = 0], the guard [idx < 28] holds, and the curve
    is extrapolated four segments down, to 100 dB. *)
Lemma dc_bin_f32 :
  bin_freq pc_48k_2048 0 = zero
  /\ ltb (bin_freq pc_48k_2048 0) (freq_at 0) = true
  /\ at_ zero (convertToFFTBins (L:=libm) pc_48k_2048 curve_20dB_at_20Hz) 0
     = powf (of_int 10) (of_int 5).
Proof.
  destruct (convertToFFTBins_at (L:=libm) pc_48k_2048 curve_20dB_at_20Hz)
    as (_ & Hat).
  split; [vm_compute; reflexivity|split; [vm_compute; reflexivity|]].
  rewrite Hat by (vm_compute; split; congruence).
  vm_compute; reflexivity.
Qed.

(** [std::clamp] returns a value between its bounds unless it is given
    NaN, which it returns. *)
Lemma getAdaptiveCompensationFactor_range_f32 (seconds : num) :
  let r := getAdaptiveCompensationFactor (L:=libm) seconds in
  B32.is_nan r = true
  \/ (leb (litf 2 10) r = true /\ leb r (litf 5 10) = true).
Proof.
  unfold getAdaptiveCompensationFactor, clamp.
  match goal with |- context [ltb ?v (litf 2 10)] => set (factor := v) end.
  destruct (ltb factor (litf 2 10)) eqn:E1.
  { right; split; vm_compute; reflexivity. }
  destruct (ltb (litf 5 10) factor) eqn:E2.
  { right; split; vm_compute; reflexivity. }
  destruct (B32.is_nan factor) eqn:En; [left; reflexivity|right].
  split; apply not_flt_fle;
    first [exact En | exact E1 | exact E2 | reflexivity].
Qed.

(** With [tanh(+0) = +0], as C requires of [tanhf], the factor at
    duration [0] is exactly [0.5f]. *)
Lemma getAdaptiveCompensationFactor_at_zero_f32 :
  tanhf zero = zero ->
  getAdaptiveCompensationFactor (L:=libm) zero = litf 5 10.
Proof.
  intros H; unfold getAdaptiveCompensationFactor.
  replace (div (div zero (litf 60 1)) (litf 10 1)) with zero
    by (vm_compute; reflexivity).
  change (tanh zero) with (tanhf zero); rewrite H.
  vm_compute; reflexivity.
Qed.

End WithLibm.

End Binary32Program.

(** ** The program in exact arithmetic *)

Section ExactProgram.

#[local] Existing Instance RR.
#[local] Existing Instance RR_libm.

Lemma Rltb_true (x y : R) : Rltb x y = true <-> (x < y)%R.
Proof. unfold Rltb; destruct (Rlt_dec x y); split; auto; discriminate. Qed.

Lemma Rltb_false (x y : R) : Rltb x y = false <-> (y <= x)%R.
Proof.
  unfold Rltb; destruct (Rlt_dec x y); split; auto; try discriminate; lra.
Qed.

Lemma Rleb_true (x y : R) : Rleb x y = true <-> (x <= y)%R.
Proof. unfold Rleb; destruct (Rle_dec x y); split; auto; discriminate. Qed.

(** *** applyCorrection with strength 0 *)

Lemma scaled_bin_strength_zero (s0 : list complex) (gains : list num)
    (k : Z) :
  scaled_bin s0 gains zero k = at_ czero s0 k.
Proof.
  unfold scaled_bin, cscale, effective_gain.
  destruct (at_ czero s0 k) as [r i]; simpl.
  f_equal; field.
Qed.

(** In exact arithmetic the effective gain at strength 0 is one for
    every gain. *)
Lemma applyCorrection_strength_zero_real
    (pc : PsychoacousticCorrection) (spectrum : list complex)
    (gains : list num) :
  0 < fftSize pc ->
  Z.of_nat (length spectrum) = fftSize pc ->
  strength_zero_effect pc spectrum
    (applyCorrection pc spectrum gains zero).
Proof.
  intros Hpos Hlen.
  apply applyCorrection_unit_gain; auto.
  intros k _; apply scaled_bin_strength_zero.
Qed.

(** *** smoothTransition *)

(** In exact arithmetic [g*s + g*(1-s) = g] for every [s]. *)
Lemma smoothTransition_self_blend_real (g : list num) (s : num) :
  smoothTransition g g s = g /\ smoothTransition_self g s = g.
Proof.
  assert (H : smoothTransition g g s = g).
  { destruct (smoothTransition_at g g s) as (Hlen & Hat).
    apply (list_eq_at zero); [exact Hlen|].
    intros j Hj; rewrite Hlen in Hj; rewrite Hat by exact Hj.
    unfold blend; simpl; field. }
  split; [exact H|].
  now rewrite smoothTransition_self_eq.
Qed.

(** *** calculateCorrectionCurve *)

Lemma same_level_zero_correction_real (p : num) :
  calculateCorrectionCurve p p = repeat zero (Z.to_nat NUM_FREQUENCIES).
Proof.
  unfold calculateCorrectionCurve.
  erewrite map_ext.
  2:{ intros i; simpl; rewrite Rminus_diag; reflexivity. }
  reflexivity.
Qed.

(** *** convertToFFTBins *)

(** In exact arithmetic [pow(10, x) = 10^x] is positive, and so is every
    entry. *)
Lemma convertToFFTBins_positive_real
    (pc : PsychoacousticCorrection) (curve : list num) :
  0 < fftSize pc ->
  Forall (fun g => (0 < g)%R) (convertToFFTBins pc curve).
Proof.
  intros Hpos.
  destruct (convertToFFTBins_shape pc curve Hpos) as (_ & Hshape).
  eapply Forall_impl; [|exact Hshape].
  intros g [-> | (x & ->)]; simpl.
  - lra.
  - unfold Rpower; apply exp_pos.
Qed.

Lemma Rpower_10_5 : Rpower 10 5 = 100000%R.
Proof.
  replace 5%R with (INR 5) by (simpl; lra).
  rewrite Rpower_pow by lra; simpl; lra.
Qed.

(** The DC bin of the 48 kHz / 2048-point configuration, in exact
    arithmetic: the gain is [10^(100/20) = 100000], not [1]. *)
Lemma dc_bin_real :
  at_ zero (convertToFFTBins pc_48k_2048 curve_20dB_at_20Hz) 0 = 100000%R.
Proof.
  destruct (convertToFFTBins_at pc_48k_2048 curve_20dB_at_20Hz)
    as (_ & Hat).
  rewrite Hat by (vm_compute; split; congruence).
  assert (Hf : bin_freq pc_48k_2048 0 = 0%R).
  { unfold bin_freq; simpl; field. }
  unfold bin_gain, bin_idx; rewrite Hf.
  rewrite scan_idx_stay.
  2:{ apply Rltb_false.
      cbv [freq_at at_ FREQUENCIES nth Z.to_nat Pos.to_nat Pos.iter_op
           Nat.add of_int RR]; lra. }
  cbv [NUM_FREQUENCIES Z.sub Z.ltb Z.compare Z.add Z.opp Z.pos_sub
       Pos.compare Pos.compare_cont Pos.pred_double].
  rewrite <- Rpower_10_5.
  unfold interpolated_gain.
  cbv [freq_at at_ FREQUENCIES curve_20dB_at_20Hz nth Z.to_nat Z.add
       Pos.to_nat Pos.iter_op Nat.add of_int litf lit pow add sub mul div
       zero RR RR_libm repeat].
  f_equal; field.
Qed.

(** *** The hyperbolic tangent *)

Lemma tanh_0 : Rtrigo_def.tanh 0 = 0%R.
Proof.
  unfold Rtrigo_def.tanh, sinh.
  rewrite Ropp_0, exp_0; unfold Rdiv; ring.
Qed.

Lemma exp_le (x y : R) : (x <= y)%R -> (exp x <= exp y)%R.
Proof.
  intros [H| ->]; [left; now apply exp_increasing|right; reflexivity].
Qed.

Lemma tanh_monotone (x y : R) :
  (x <= y)%R -> (Rtrigo_def.tanh x <= Rtrigo_def.tanh y)%R.
Proof.
  intros H.
  pose proof (exp_pos x) as Ha; pose proof (exp_pos (- x)) as Hb.
  pose proof (exp_pos y) as Hc; pose proof (exp_pos (- y)) as Hd.
  pose proof (exp_le x y H) as Hac.
  pose proof (exp_le (- y) (- x) ltac:(lra)) as Hdb.
  cut (0 <= Rtrigo_def.tanh y - Rtrigo_def.tanh x)%R; [lra|].
  replace (Rtrigo_def.tanh y - Rtrigo_def.tanh x)%R
    with (2 * (exp (- x) * exp y - exp x * exp (- y))
          / ((exp x + exp (- x)) * (exp y + exp (- y))))%R.
  - apply Rmult_le_pos; [nra|].
    left; apply Rinv_0_lt_compat; nra.
  - unfold Rtrigo_def.tanh, sinh, cosh; field; lra.
Qed.

(** *** getAdaptiveCompensationFactor *)

Lemma clamp_real (v lo hi : R) :
  (lo <= hi)%R -> clamp v lo hi = Rmax lo (Rmin hi v).
Proof.
  intros H; unfold clamp; simpl; unfold Rltb, Rmax, Rmin.
  destruct (Rlt_dec v lo), (Rlt_dec hi v), (Rle_dec hi v);
    try destruct (Rle_dec lo hi); try destruct (Rle_dec lo v); lra.
Qed.

Ltac split_minmax :=
  unfold Rmax, Rmin;
  repeat match goal with
    | |- context [Rle_dec ?a ?b] =>
        lazymatch b with
        | context [Rle_dec] => fail
        | _ => destruct (Rle_dec a b)
        end
    end.

(** The factor in exact arithmetic, with the mathematical [tanh]. *)
Lemma getAdaptiveCompensationFactor_real (seconds : num) :
  (0 <= seconds)%R ->
  let factor := getAdaptiveCompensationFactor in
  factor seconds
  = Rmax (2 / 10)
         (Rmin (5 / 10)
               (5 / 10 - 3 / 10 * Rtrigo_def.tanh (seconds / 60 / 10)))
  /\ (2 / 10 <= factor seconds <= 5 / 10)%R
  /\ factor 0%R = (5 / 10)%R
  /\ (forall later, (seconds <= later)%R ->
        (factor later <= factor seconds)%R).
Proof.
  intros Hs factor.
  assert (E : forall t, factor t
              = Rmax (2 / 10)
                  (Rmin (5 / 10)
                     (5 / 10 - 3 / 10 * Rtrigo_def.tanh (t / 60 / 10)))).
  { intros t; unfold factor, getAdaptiveCompensationFactor.
    rewrite clamp_real by (simpl; lra).
    simpl.
    now replace (t / (60 / 1) / (10 / 1))%R with (t / 60 / 10)%R
      by field. }
  split; [apply E|split; [|split]].
  - rewrite E; split_minmax; lra.
  - rewrite E.
    replace (0 / 60 / 10)%R with 0%R by field.
    rewrite tanh_0; split_minmax; lra.
  - intros later Hl; rewrite !E.
    pose proof (tanh_monotone (seconds / 60 / 10) (later / 60 / 10)
                  ltac:(lra)) as Hm.
    split_minmax; lra.
Qed.

End ExactProgram.

(** ** The DC bin *)

(** C1 fails on the code below the table.  In the 48 kHz / 2048-point
    configuration, with a curve of 20 dB at 20 Hz and 0 dB elsewhere, the
    DC bin (centre frequency 0, below 20 Hz) does not have gain [1.0]: in
    binary32 it is whatever [pow(10.0f, 5.0f)] returns, in exact
    arithmetic it is [100000]. *)
Theorem C1_dc_bin_is_extrapolated :
  (forall powf tanhf,
     at_ (@zero F32)
         (convertToFFTBins (L:=F32_libm powf tanhf)
                           pc_48k_2048 curve_20dB_at_20Hz) 0
     = powf (B32.of_Z 10) (B32.of_Z 5))
  /\ at_ (@zero RR)
         (convertToFFTBins (L:=RR_libm) pc_48k_2048 curve_20dB_at_20Hz) 0
     = 100000%R
  /\ 100000%R <> @litf RR 1 1.
Proof.
  split; [|split].
  - intros powf tanhf; apply (dc_bin_f32 powf tanhf).
  - exact dc_bin_real.
  - simpl; lra.
Qed.

(** ** Strength 0 and the mirrored half *)

(** C3, as it holds on the code.  With [strength = 0], for every
    spectrum of [fftSize] entries and every gains vector of
    [B = fftSize/2 + 1] entries, [applyCorrection] leaves the bins
    [0 .. B-1] unchanged and stores the conjugate of bin [k] at
    [fftSize - k] for [0 < k < B - 1]; the whole array is unchanged when
    it was conjugate-symmetric on entry.  In binary32 this holds bit for
    bit for well-formed entries and gains [g] with [g - 1.0f] finite; in
    exact arithmetic for all gains. *)
Theorem C3_strength_zero_keeps_lower_half :
  (forall (pc : @PsychoacousticCorrection F32)
          (spectrum : list (@complex F32)) (gains : list B32.t),
     0 < fftSize pc ->
     Z.of_nat (length spectrum) = fftSize pc ->
     Z.of_nat (length gains) = numBins_of pc ->
     (forall k, 0 <= k < numBins_of pc ->
        valid_cx (at_ (@czero F32) spectrum k) = true
        /\ B32.is_finite
             (B32.fsub (at_ (@zero F32) gains k) (B32.of_dec 1 1))
           = true) ->
     strength_zero_effect pc spectrum
       (applyCorrection pc spectrum gains (@zero F32)))
  /\ (forall (pc : @PsychoacousticCorrection RR)
             (spectrum : list (@complex RR)) (gains : list R),
        0 < fftSize pc ->
        Z.of_nat (length spectrum) = fftSize pc ->
        Z.of_nat (length gains) = numBins_of pc ->
        strength_zero_effect pc spectrum
          (applyCorrection pc spectrum gains (@zero RR))).
Proof.
  split.
  - intros pc spectrum gains Hpos Hlen _ Hok.
    now apply applyCorrection_strength_zero_f32.
  - intros pc spectrum gains Hpos Hlen _.
    now apply applyCorrection_strength_zero_real.
Qed.

Lemma C3_witness :
  0 < fftSize (@pc_4 F32)
  /\ Z.of_nat (length (@spectrum_4 F32)) = fftSize (@pc_4 F32)
  /\ Z.of_nat (length (@unit_gains_3 F32)) = numBins_of (@pc_4 F32)
  /\ (forall k, 0 <= k < numBins_of (@pc_4 F32) ->
        valid_cx (at_ (@czero F32) spectrum_4 k) = true
        /\ B32.is_finite
             (B32.fsub (at_ (@zero F32) unit_gains_3 k) (B32.of_dec 1 1))
           = true)
  /\ strength_zero_effect (@pc_4 F32) spectrum_4
       (applyCorrection pc_4 spectrum_4 unit_gains_3 (@zero F32)).
Proof.
  assert (H1 : 0 < fftSize (@pc_4 F32)) by reflexivity.
  assert (H2 : Z.of_nat (length (@spectrum_4 F32)) = fftSize (@pc_4 F32))
    by reflexivity.
  assert (H3 : Z.of_nat (length (@unit_gains_3 F32))
               = numBins_of (@pc_4 F32)) by reflexivity.
  assert (H4 : forall k, 0 <= k < numBins_of (@pc_4 F32) ->
                 valid_cx (at_ (@czero F32) spectrum_4 k) = true
                 /\ B32.is_finite
                      (B32.fsub (at_ (@zero F32) unit_gains_3 k)
                                (B32.of_dec 1 1))
                    = true).
  { intros k Hk; change (numBins_of (@pc_4 F32)) with 3 in Hk.
    assert (E : k = 0 \/ k = 1 \/ k = 2) by lia.
    destruct E as [-> | [-> | ->]]; split; reflexivity. }
  split; [exact H1|split; [exact H2|split; [exact H3|split; [exact H4|]]]].
  exact (proj1 C3_strength_zero_keeps_lower_half (@pc_4 F32)
           (@spectrum_4 F32) (@unit_gains_3 F32) H1 H2 H3 H4).
Defined.

(** ** The smoother applied to one vector *)

(** C7, as it holds on the code.  [smoothTransition(g, g, s)] leaves [g]
    unchanged, per bin [g[k]*s + g[k]*(1-s) = g[k]], for every [s] in
    exact arithmetic; in binary32, for finite gains, at [s = 0] and at
    [s = 1], where no product or sum is rounded.  Both with one vector
    passed twice and with two equal vectors. *)
Theorem C7_smoother_idempotence :
  (forall (g : list R) (s : R),
     smoothTransition (A:=RR) g g s = g
     /\ smoothTransition_self (A:=RR) g s = g)
  /\ (forall g : list B32.t,
        finite_gains g ->
        smoothTransition (A:=F32) g g (B32.of_dec 1 1) = g
        /\ smoothTransition (A:=F32) g g (B32.of_Z 0) = g
        /\ smoothTransition_self (A:=F32) g (B32.of_dec 1 1) = g
        /\ smoothTransition_self (A:=F32) g (B32.of_Z 0) = g).
Proof.
  split.
  - exact smoothTransition_self_blend_real.
  - intros g Hg.
    destruct (smoothTransition_endpoints_f32 g Hg) as (H1 & H0).
    rewrite !(smoothTransition_self_eq (A:=F32)).
    repeat split; assumption.
Qed.

Lemma C7_witness :
  finite_gains [B32.of_Z 3; B32.of_dec 1 10]
  /\ smoothTransition (A:=F32) [B32.of_Z 3; B32.of_dec 1 10]
       [B32.of_Z 3; B32.of_dec 1 10] (B32.of_dec 1 1)
     = [B32.of_Z 3; B32.of_dec 1 10].
Proof.
  assert (H : finite_gains [B32.of_Z 3; B32.of_dec 1 10]).
  { intros j Hj; change (0 <= j < 2) in Hj.
    assert (E : j = 0 \/ j = 1) by lia.
    destruct E as [-> | ->]; split; reflexivity. }
  split; [exact H|].
  exact (proj1 (proj2 C7_smoother_idempotence _ H)).
Defined.

(** ** An eight-point transform *)

Lemma C4_witness :
  0 < fftSize (@pc_8 F32)
  /\ Z.of_nat (length (@spectrum_8 F32)) = fftSize (@pc_8 F32)
  /\ Z.of_nat (length (@double_gains_5 F32)) = numBins_of (@pc_8 F32)
  /\ at_ czero (applyCorrection (@pc_8 F32) spectrum_8 double_gains_5
                                (@litf F32 1 1)) (8 - 3)
     = conj (at_ czero (applyCorrection (@pc_8 F32) spectrum_8
                                        double_gains_5 (@litf F32 1 1)) 3)
  /\ ~ In (Mirrored 0)
          (snd (applyCorrection_log (@pc_8 F32) spectrum_8 double_gains_5
                                    (@litf F32 1 1))).
Proof.
  assert (H1 : 0 < fftSize (@pc_8 F32)) by reflexivity.
  assert (H2 : Z.of_nat (length (@spectrum_8 F32)) = fftSize (@pc_8 F32))
    by reflexivity.
  assert (H3 : Z.of_nat (length (@double_gains_5 F32))
               = numBins_of (@pc_8 F32)) by reflexivity.
  destruct (C4_conjugate_symmetry_after_correction (@pc_8 F32) spectrum_8
              double_gains_5 (@litf F32 1 1) H1 H2 H3) as (G1 & G2 & _).
  split; [exact H1|split; [exact H2|split; [exact H3|split]]].
  - apply (G1 3); split; reflexivity.
  - exact G2.
Defined.

(** * Further properties of the code *)

(** ** More on the order of binary32 *)

Module B32Order.
Import B32 B32Facts.

Lemma fle_not_nan (a b : t) :
  fle a b = true -> is_nan a = false /\ is_nan b = false.
Proof. unfold is_nan; by_cases; split; reflexivity. Qed.

Lemma not_fle_fle (a b : t) :
  is_nan a = false -> is_nan b = false -> fle a b = false -> fle b a = true.
Proof. unfold is_nan; by_cases. Qed.

Lemma fle_refl (a : t) : is_nan a = false -> fle a a = true.
Proof. unfold is_nan; by_cases. Qed.

End B32Order.

(** ** The interpolator on and inside the table, in binary32 *)

Section Binary32Tables.

Import B32Facts B32Order.
#[local] Existing Instance F32.

(** X1. At each of the 29 table frequencies, and for every phon level,
    [interpolatePhonToSPL] returns exactly the tabulated entry of the row
    it selects: nothing is lost in [spl1 + ratio * (spl2 - spl1)]. *)
Theorem X1_table_frequency_returns_table_entry (p : num) (i : Z) :
  0 <= i < NUM_FREQUENCIES ->
  interpolatePhonToSPL (freq_at i) p = spl_at (phonIdx_of p) i.
Proof.
  intros Hi; apply in_range in Hi.
  unfold interpolatePhonToSPL, phonIdx_of.
  destruct (ltb (of_int 50) p);
    vm_compute in Hi;
    repeat (destruct Hi as [<- | Hi]; [vm_compute; reflexivity|]);
    contradiction.
Qed.

Lemma X1_witness :
  0 <= 17 < NUM_FREQUENCIES
  /\ interpolatePhonToSPL (freq_at 17) (of_int 40) = lit 290 10.
Proof.
  assert (H : 0 <= 17 < NUM_FREQUENCIES) by (split; [discriminate|reflexivity]).
  split; [exact H|].
  exact (X1_table_frequency_returns_table_entry (of_int 40) 17 H).
Defined.

(** The search loop, started at [i] with [F[i] <= f], stops at a segment
    that holds [f]. *)
Lemma find_freqIdx_bracket (n : nat) (i : Z) (f : num) :
  0 <= i -> i + Z.of_nat n = 27 ->
  leb (freq_at i) f = true ->
  leb f (freq_at 28) = true ->
  let r := find_freqIdx (S n) i f in
  0 <= r <= 27
  /\ leb (freq_at r) f = true /\ leb f (freq_at (r + 1)) = true.
Proof.
  revert i; induction n as [|n IH]; intros i H0 Hn Hlo Hhi;
    cbn [find_freqIdx]; rewrite Hlo; cbn [andb].
  - replace i with 27 in * by lia.
    change (27 + 1) with 28; rewrite Hhi.
    repeat split; try lia; assumption.
  - destruct (leb f (freq_at (i + 1))) eqn:E.
    + repeat split; try lia; assumption.
    + apply IH; try lia; [|exact Hhi].
      destruct (fle_not_nan _ _ Hlo) as (_ & Hf).
      destruct (fle_not_nan _ _
                  (proj1 (freq_between_f32 (i + 1) ltac:(lia))))
        as (_ & Hb).
      apply not_fle_fle; assumption.
Qed.

(** X2. For every frequency in the table range [20 Hz, 12.5 kHz] the
    search loop of [interpolatePhonToSPL] breaks: the index it leaves is
    between 0 and 27 and its segment holds the frequency,
    [F[idx] <= f <= F[idx+1]]. *)
Theorem X2_in_range_search_brackets (f : num) :
  in_table_range f ->
  let idx := freqIdx_of f in
  0 <= idx <= NUM_FREQUENCIES - 2
  /\ leb (freq_at idx) f = true
  /\ leb f (freq_at (idx + 1)) = true.
Proof.
  intros (Hlo & Hhi).
  apply (find_freqIdx_bracket 27 0 f); auto; lia.
Qed.

Lemma X2_witness :
  in_table_range (of_int 1000)
  /\ 0 <= freqIdx_of (of_int 1000) <= NUM_FREQUENCIES - 2
  /\ leb (freq_at (freqIdx_of (of_int 1000))) (of_int 1000) = true
  /\ leb (of_int 1000) (freq_at (freqIdx_of (of_int 1000) + 1)) = true.
Proof.
  assert (H : in_table_range (of_int 1000)).
  { split; vm_compute; reflexivity. }
  split; [exact H|].
  exact (X2_in_range_search_brackets (of_int 1000) H).
Defined.

(** X3. Whatever the two phon levels, the correction curve is the
    difference of two rows of the table, entry by entry: the row selected
    for the target minus the row selected for the current level.  When
    the current level is at most 50 and the target above 50, every one of
    the 29 entries is a boost between 9 and 16 dB. *)
Theorem X3_curve_is_difference_of_two_rows (p1 p2 : num) :
  calculateCorrectionCurve p1 p2
  = map (fun i => sub (spl_at (phonIdx_of p2) i) (spl_at (phonIdx_of p1) i))
        (range NUM_FREQUENCIES)
  /\ (ltb (of_int 50) p1 = false -> ltb (of_int 50) p2 = true ->
      Forall (fun g => ltb (of_int 9) g = true /\ ltb g (of_int 16) = true)
             (calculateCorrectionCurve p1 p2)).
Proof.
  unfold calculateCorrectionCurve, interpolatePhonToSPL, phonIdx_of.
  split.
  - destruct (ltb (of_int 50) p1), (ltb (of_int 50) p2);
      vm_compute; reflexivity.
  - intros -> ->.
    apply Forall_forall; intros g Hg.
    vm_compute in Hg.
    repeat (destruct Hg as [<- | Hg]; [split; vm_compute; reflexivity|]).
    contradiction.
Qed.

Lemma X3_witness :
  ltb (of_int 50) (of_int 48) = false
  /\ ltb (of_int 50) (of_int 53) = true
  /\ Forall (fun g => ltb (of_int 9) g = true /\ ltb g (of_int 16) = true)
            (calculateCorrectionCurve (of_int 48) (of_int 53)).
Proof.
  assert (H1 : ltb (of_int 50) (of_int 48) = false) by reflexivity.
  assert (H2 : ltb (of_int 50) (of_int 53) = true) by reflexivity.
  split; [exact H1|split; [exact H2|]].
  exact (proj2 (X3_curve_is_difference_of_two_rows _ _) H1 H2).
Defined.

End Binary32Tables.

(** ** The loops again, in any arithmetic *)

Section MoreLoops.

Context {A : Arith}.

(** X9. [applyCorrection] multiplies each of the bins [0 .. B-1] once by
    its effective gain [1 + (gains[k] - 1) * strength], stores the
    conjugate of the scaled bin [k] at [fftSize - k] for [0 < k < B - 1],
    and leaves the one remaining entry of an odd-sized array alone. *)
Theorem X9_applyCorrection_scales_each_bin
    (pc : PsychoacousticCorrection) (spectrum : list complex)
    (gains : list num) (strength : num) :
  0 < fftSize pc ->
  Z.of_nat (length spectrum) = fftSize pc ->
  Z.of_nat (length gains) = numBins_of pc ->
  let out := applyCorrection pc spectrum gains strength in
  let scaled k :=
    cscale (at_ czero spectrum k)
           (effective_gain (at_ zero gains k) strength) in
  length out = length spectrum
  /\ (forall k, 0 <= k < numBins_of pc -> at_ czero out k = scaled k)
  /\ (forall k, 0 < k < numBins_of pc - 1 ->
        at_ czero out (fftSize pc - k) = conj (scaled k))
  /\ (forall j, numBins_of pc <= j < fftSize pc ->
        numBins_of pc - 1 <= fftSize pc - j ->
        at_ czero out j = at_ czero spectrum j).
Proof.
  intros Hpos Hlen _ out scaled.
  destruct (numBins_bounds pc Hpos) as (Hb1 & Hb2 & Hb3).
  destruct (applyCorrection_log_inv pc spectrum gains strength Hpos Hlen)
    as (Glen & Gat & _).
  fold (applyCorrection pc spectrum gains strength) in Glen, Gat.
  fold out in Glen, Gat.
  split; [exact Glen|split; [|split]].
  - intros k Hk; rewrite Gat by lia; unfold corrected_upto.
    destruct (Z.ltb_spec k (numBins_of pc)); [reflexivity|lia].
  - intros k Hk; rewrite Gat by lia; unfold corrected_upto.
    destruct (Z.ltb_spec (fftSize pc - k) (numBins_of pc)); [lia|].
    destruct (Z.ltb_spec 0 (fftSize pc - (fftSize pc - k))); [|lia].
    destruct (Z.ltb_spec (fftSize pc - (fftSize pc - k))
                (Z.min (numBins_of pc) (numBins_of pc - 1))); [|lia].
    simpl; unfold scaled, scaled_bin.
    replace (fftSize pc - (fftSize pc - k)) with k by lia; reflexivity.
  - intros j Hj Hm; rewrite Gat by lia; unfold corrected_upto.
    destruct (Z.ltb_spec j (numBins_of pc)); [lia|].
    destruct (Z.ltb_spec 0 (fftSize pc - j)); [|lia].
    destruct (Z.ltb_spec (fftSize pc - j)
                (Z.min (numBins_of pc) (numBins_of pc - 1))); [lia|].
    reflexivity.
Qed.

Context {L : Libm A}.

(** One control update: new gains of the transform's size, whatever the
    previous gains were. *)
Lemma smoothed_bins_length (pc : PsychoacousticCorrection)
    (curve cur : list num) (s : num) :
  0 < fftSize pc ->
  Z.of_nat (length (smoothTransition (convertToFFTBins pc curve) cur s))
  = numBins_of pc.
Proof.
  intros Hpos.
  destruct (smoothTransition_at (convertToFFTBins pc curve) cur s)
    as (Hlen & _).
  destruct (convertToFFTBins_at pc curve) as (Hlen' & _).
  destruct (numBins_bounds pc Hpos) as (Hb & _).
  rewrite Hlen, Hlen'; lia.
Qed.

Lemma updates_app (e : AdaptiveLoudnessEQ.t) (cs : list (num * num))
    (c : num * num) :
  AdaptiveLoudnessEQ.updates e (cs ++ [c])
  = AdaptiveLoudnessEQ.updateEnvironment
      (AdaptiveLoudnessEQ.updates e cs) (fst c) (snd c).
Proof.
  unfold AdaptiveLoudnessEQ.updates; now rewrite fold_left_app.
Qed.

Context {G : LibmLog A}.

(** X15. The gain vector always has the size of the transform.  After
    the constructor of [AdaptiveLoudnessEQ] and any run of
    [updateEnvironment] calls the corrector is unchanged and
    [currentGains] has 1025 entries; [PsychoacousticProcessor] keeps a
    2048-point corrector and 1025 gains through [prepareToPlay],
    [setNoiseFloor] and [setTargetPhon], and [getCurrentCorrectionCurve]
    returns one value per gain. *)
Theorem X15_gain_vector_matches_transform :
  (forall sr calls,
     let e := AdaptiveLoudnessEQ.updates (AdaptiveLoudnessEQ.make sr) calls in
     AdaptiveLoudnessEQ.corrector e = Build_PsychoacousticCorrection sr 2048
     /\ Z.of_nat (length (AdaptiveLoudnessEQ.currentGains e)) = 1025)
  /\ (let inv p :=
        fftSize (PsychoacousticProcessor.corrector p) = 2048
        /\ Z.of_nat (length (PsychoacousticProcessor.currentGains p)) = 1025
        /\ length (PsychoacousticProcessor.getCurrentCorrectionCurve p)
           = length (PsychoacousticProcessor.currentGains p) in
      inv PsychoacousticProcessor.make
      /\ forall p, inv p ->
           (forall sr, inv (PsychoacousticProcessor.prepareToPlay p sr))
           /\ (forall n, inv (PsychoacousticProcessor.setNoiseFloor p n))
           /\ (forall t, inv (PsychoacousticProcessor.setTargetPhon p t))).
Proof.
  split.
  - intros sr calls; induction calls as [|c cs IH] using rev_ind.
    + split; reflexivity.
    + cbv zeta in IH |- *; rewrite updates_app.
      destruct IH as (Hc & _).
      unfold AdaptiveLoudnessEQ.updateEnvironment; cbn [AdaptiveLoudnessEQ.corrector AdaptiveLoudnessEQ.currentGains].
      split; [exact Hc|].
      rewrite smoothed_bins_length; rewrite Hc; reflexivity.
  - cbv zeta; split; [repeat split|].
    intros p (Hf & _ & _).
    assert (Hmap : forall q,
              length (PsychoacousticProcessor.getCurrentCorrectionCurve q)
              = length (PsychoacousticProcessor.currentGains q)).
    { intros q; unfold PsychoacousticProcessor.getCurrentCorrectionCurve.
      apply length_map. }
    repeat split; try apply Hmap; try exact Hf; try reflexivity.
    all: unfold PsychoacousticProcessor.prepareToPlay,
           PsychoacousticProcessor.setNoiseFloor,
           PsychoacousticProcessor.setTargetPhon,
           PsychoacousticProcessor.updateCorrectionCurve;
         cbn [PsychoacousticProcessor.corrector
              PsychoacousticProcessor.currentGains].
    all: rewrite smoothed_bins_length; unfold numBins_of; cbn [fftSize];
         try rewrite Hf; reflexivity.
Qed.

End MoreLoops.

Lemma X9_witness :
  0 < fftSize (@pc_8 F32)
  /\ Z.of_nat (length (@spectrum_8 F32)) = fftSize (@pc_8 F32)
  /\ Z.of_nat (length (@double_gains_5 F32)) = numBins_of (@pc_8 F32)
  /\ at_ czero (applyCorrection (@pc_8 F32) spectrum_8 double_gains_5
                  (@litf F32 1 2)) 2
     = cscale (at_ czero (@spectrum_8 F32) 2)
              (effective_gain (at_ zero (@double_gains_5 F32) 2)
                              (@litf F32 1 2)).
Proof.
  assert (H1 : 0 < fftSize (@pc_8 F32)) by reflexivity.
  assert (H2 : Z.of_nat (length (@spectrum_8 F32)) = fftSize (@pc_8 F32))
    by reflexivity.
  assert (H3 : Z.of_nat (length (@double_gains_5 F32))
               = numBins_of (@pc_8 F32)) by reflexivity.
  destruct (X9_applyCorrection_scales_each_bin (@pc_8 F32) spectrum_8
              double_gains_5 (@litf F32 1 2) H1 H2 H3) as (_ & G & _).
  split; [exact H1|split; [exact H2|split; [exact H3|]]].
  apply (G 2); split; [discriminate|reflexivity].
Defined.

Lemma X15_witness :
  let p := @PsychoacousticProcessor.make RR in
  fftSize (PsychoacousticProcessor.corrector p) = 2048
  /\ Z.of_nat (length (PsychoacousticProcessor.currentGains
                         (PsychoacousticProcessor.setNoiseFloor
                            (L:=RR_libm) p 30%R)))
     = 1025.
Proof.
  destruct (proj2 (X15_gain_vector_matches_transform
                     (A:=RR) (L:=RR_libm) (G:=RR_log)))
    as (Hmake & Hkeep).
  split; [exact (proj1 Hmake)|].
  exact (proj1 (proj2 (proj1 (proj2 (Hkeep _ Hmake)) 30%R))).
Defined.

(** ** More of the program in binary32 *)

Section Binary32More.

Import B32Facts B32Order.
#[local] Existing Instance F32.

(** *** applyCorrection with unit gains *)

Lemma effective_gain_unit_f32 (a : num) :
  B32.is_finite a = true -> effective_gain (litf 1 1) a = litf 1 1.
Proof.
  unfold effective_gain.
  destruct a as [s|s| |s m e]; try discriminate; intros _;
    destruct s; vm_compute; reflexivity.
Qed.

(** X11. With a gain of [1.0f] on every bin, [applyCorrection] at any
    finite strength leaves the lower half of a spectrum of canonical
    binary32 values as it was, writes the conjugates into the upper half,
    and returns a conjugate-symmetric spectrum unchanged:
    [1 + (1 - 1) * strength] is exactly [1.0f]. *)
Theorem X11_unit_gains_any_strength
    (pc : PsychoacousticCorrection) (spectrum : list complex)
    (gains : list num) (strength : num) :
  0 < fftSize pc ->
  Z.of_nat (length spectrum) = fftSize pc ->
  B32.is_finite strength = true ->
  (forall k, 0 <= k < numBins_of pc ->
     at_ zero gains k = litf 1 1
     /\ valid_cx (at_ czero spectrum k) = true) ->
  strength_zero_effect pc spectrum
    (applyCorrection pc spectrum gains strength).
Proof.
  intros Hpos Hlen Hfin Hok.
  apply applyCorrection_unit_gain; auto.
  intros k Hk; destruct (Hok k Hk) as (Hg & Hv).
  unfold scaled_bin; rewrite Hg, effective_gain_unit_f32 by exact Hfin.
  destruct (at_ czero spectrum k) as [r i].
  unfold valid_cx in Hv; apply andb_prop in Hv; destruct Hv as (Hr & Hi).
  unfold cscale; simpl in *.
  now rewrite !B32Round.fmul_one_r.
Qed.

Lemma X11_witness :
  0 < fftSize pc_4
  /\ Z.of_nat (length spectrum_4) = fftSize pc_4
  /\ B32.is_finite (litf 7 10) = true
  /\ (forall k, 0 <= k < numBins_of pc_4 ->
        at_ zero unit_gains_3 k = litf 1 1
        /\ valid_cx (at_ czero spectrum_4 k) = true)
  /\ strength_zero_effect pc_4 spectrum_4
       (applyCorrection pc_4 spectrum_4 unit_gains_3 (litf 7 10)).
Proof.
  assert (H1 : 0 < fftSize pc_4) by reflexivity.
  assert (H2 : Z.of_nat (length spectrum_4) = fftSize pc_4) by reflexivity.
  assert (H3 : B32.is_finite (litf 7 10) = true) by reflexivity.
  assert (H4 : forall k, 0 <= k < numBins_of pc_4 ->
                 at_ zero unit_gains_3 k = litf 1 1
                 /\ valid_cx (at_ czero spectrum_4 k) = true).
  { intros k Hk; change (numBins_of pc_4) with 3 in Hk.
    assert (E : k = 0 \/ k = 1 \/ k = 2) by lia.
    destruct E as [->|[->| ->]]; split; reflexivity. }
  split; [exact H1|split; [exact H2|split; [exact H3|split; [exact H4|]]]].
  exact (X11_unit_gains_any_strength pc_4 spectrum_4 unit_gains_3
           (litf 7 10) H1 H2 H3 H4).
Defined.

(** *** calculateSimplifiedCorrection *)

Lemma clamp_range_f32 (v lo hi : num) :
  leb lo hi = true ->
  let r := clamp v lo hi in
  B32.is_nan r = true \/ (leb lo r = true /\ leb r hi = true).
Proof.
  intros Hle; unfold clamp.
  destruct (fle_not_nan _ _ Hle) as (Hlo & Hhi).
  pose proof (fle_refl _ Hlo) as Hll.
  pose proof (fle_refl _ Hhi) as Hhh.
  destruct (ltb v lo) eqn:E1; [right; split; assumption|].
  destruct (ltb hi v) eqn:E2; [right; split; assumption|].
  destruct (B32.is_nan v) eqn:En; [left; reflexivity|right].
  split; apply not_flt_fle; assumption.
Qed.

Lemma fsub_diag_f32 (x : num) :
  B32.is_finite x = true -> sub x x = zero.
Proof.
  destruct x as [s|s| |s m e]; try discriminate; intros _.
  - destruct s; reflexivity.
  - simpl; unfold B32.fsub, SFsub.
    rewrite Z.sub_diag; reflexivity.
Qed.

(** X12. In binary32, each of the three band gains of
    [calculateSimplifiedCorrection] is within its limit (6, 2 and 3 dB)
    unless it is NaN, whatever the two levels are; and for two equal
    finite levels the three gains are [+0.0f]. *)
Theorem X12_simplified_correction_binary32 (c t : num) :
  let eq := Simplified.calculateSimplifiedCorrection c t in
  let within x lim :=
    B32.is_nan x = true
    \/ (leb (neg (litf lim 1)) x = true /\ leb x (litf lim 1) = true) in
  (within (Simplified.bassGain eq) 6
   /\ within (Simplified.midGain eq) 2
   /\ within (Simplified.trebleGain eq) 3)
  /\ (B32.is_finite c = true ->
      Simplified.calculateSimplifiedCorrection c c
      = Simplified.Build_SimplifiedEQ zero zero zero).
Proof.
  cbv zeta; split.
  - unfold Simplified.calculateSimplifiedCorrection;
      cbn [Simplified.bassGain Simplified.midGain Simplified.trebleGain].
    repeat split; apply clamp_range_f32; reflexivity.
  - intros H; pose proof (fsub_diag_f32 c H) as E.
    unfold Simplified.calculateSimplifiedCorrection.
    set (d := sub c c) in *; clearbody d; subst d.
    reflexivity.
Qed.

Lemma X12_witness :
  B32.is_finite (of_int 48) = true
  /\ Simplified.calculateSimplifiedCorrection (of_int 48) (of_int 48)
     = Simplified.Build_SimplifiedEQ zero zero zero.
Proof.
  assert (H : B32.is_finite (of_int 48) = true) by reflexivity.
  split; [exact H|].
  exact (proj2 (X12_simplified_correction_binary32 (of_int 48) (of_int 53))
           H).
Defined.

(** *** The control path with two levels on the same side of 50 phon *)

Lemma curve_same_side_zero_f32 (p1 p2 : num) :
  same_side_of_50 p1 p2 -> calculateCorrectionCurve p1 p2 = zero_curve.
Proof.
  intros H; apply phonIdx_same_side in H.
  unfold calculateCorrectionCurve, interpolatePhonToSPL.
  rewrite H; unfold phonIdx_of.
  destruct (ltb (of_int 50) p2); vm_compute; reflexivity.
Qed.

(** [1.0f * s + 1.0f * (1.0f - s)] is exactly [1.0f] for the two
    smoothing factors the callers use, [0.98f] and [0.99f]. *)
Lemma smooth_unit_gains_f32 (n : Z) (s : num) :
  s = litf 98 100 \/ s = litf 99 100 ->
  smoothTransition (unit_gains n) (unit_gains n) s = unit_gains n.
Proof.
  intros Hs.
  destruct (smoothTransition_at (unit_gains n) (unit_gains n) s)
    as (Hlen & Hat).
  apply (list_eq_at zero); [exact Hlen|].
  intros j Hj; rewrite Hlen in Hj; rewrite Hat by exact Hj.
  unfold unit_gains in *; rewrite repeat_length in Hj.
  rewrite at_repeat by lia.
  destruct Hs as [-> | ->]; vm_compute; reflexivity.
Qed.

Section WithLibm.

Variable powf : B32.t -> B32.t -> B32.t.
Variable tanhf : B32.t -> B32.t.

Let libm : Libm F32 := F32_libm powf tanhf.

Lemma interpolated_gain_exponent (curve : list num) (idx : Z) (freq : num) :
  interpolated_gain (L:=libm) curve idx freq
  = powf (litf 10 1)
         (interpolated_gain (L:=F32_pow_exponent) curve idx freq).
Proof. reflexivity. Qed.

(** At 48 kHz and 2048 points, the exponent computed for each of the
    bins below the top of the table from the all-zero curve is [+0.0f]. *)
Lemma zero_curve_exponents_48k :
  forallb (fun bin =>
             negb (bin_idx pc_48k_2048 bin <? NUM_FREQUENCIES - 1)
             || f32_is_pos_zero
                  (interpolated_gain (L:=F32_pow_exponent) zero_curve
                     (bin_idx pc_48k_2048 bin) (bin_freq pc_48k_2048 bin)))
          (range 1025)
  = true.
Proof. vm_compute; reflexivity. Qed.

(** At 48 kHz and 2048 points, bins 534 to 1024 are above 12.5 kHz. *)
Lemma above_table_48k :
  forallb (fun bin => ltb (freq_at (NUM_FREQUENCIES - 1))
                          (bin_freq pc_48k_2048 (534 + bin)))
          (range 491)
  = true.
Proof. vm_compute; reflexivity. Qed.

(** X4. Whatever the correction curve and whatever [powf] returns,
    [convertToFFTBins] leaves every bin whose frequency is above the last
    table frequency (12.5 kHz) at the initial gain [1.0f]: the correction
    stops at 12.5 kHz.  At 48 kHz with 2048 points these are the bins 534
    to 1024, almost half of the gain vector. *)
Theorem X4_bins_above_table_keep_unity
    (pc : PsychoacousticCorrection) (curve : list num) :
  (forall bin, 0 <= bin < numBins_of pc ->
     ltb (freq_at (NUM_FREQUENCIES - 1)) (bin_freq pc bin) = true ->
     at_ zero (convertToFFTBins (L:=libm) pc curve) bin = litf 1 1)
  /\ (forall bin, 534 <= bin <= 1024 ->
        at_ zero (convertToFFTBins (L:=libm) pc_48k_2048 curve) bin
        = litf 1 1).
Proof.
  assert (H : forall pc' bin, 0 <= bin < numBins_of pc' ->
            ltb (freq_at (NUM_FREQUENCIES - 1)) (bin_freq pc' bin) = true ->
            at_ zero (convertToFFTBins (L:=libm) pc' curve) bin = litf 1 1).
  { intros pc' bin Hb Hhi.
    destruct (convertToFFTBins_at (L:=libm) pc' curve) as (_ & Hat).
    rewrite Hat by exact Hb.
    unfold bin_gain, bin_idx.
    rewrite scan_idx_all; [reflexivity|simpl; lia|reflexivity|].
    intros i Hi; eapply fle_flt_trans; [|exact Hhi].
    apply freq_between_f32; unfold NUM_FREQUENCIES in Hi; lia. }
  split; [apply H|].
  intros bin Hb; apply H; [change (numBins_of pc_48k_2048) with 1025; lia|].
  pose proof above_table_48k as G.
  rewrite forallb_forall in G.
  specialize (G (bin - 534)); rewrite in_range in G.
  replace (534 + (bin - 534)) with bin in G by lia.
  apply G; lia.
Qed.

Lemma zero_curve_unity_48k :
  powf (litf 10 1) zero = litf 1 1 ->
  convertToFFTBins (L:=libm) pc_48k_2048 zero_curve = unit_gains 1025.
Proof.
  intros Hpow.
  destruct (convertToFFTBins_at (L:=libm) pc_48k_2048 zero_curve)
    as (Hlen & Hat).
  apply (list_eq_at zero).
  { rewrite Hlen; unfold unit_gains; now rewrite repeat_length. }
  intros bin Hb; rewrite Hlen in Hb.
  change (Z.of_nat (Z.to_nat (numBins_of pc_48k_2048))) with 1025 in Hb.
  rewrite Hat by (change (numBins_of pc_48k_2048) with 1025; lia).
  unfold unit_gains; rewrite at_repeat by lia.
  pose proof zero_curve_exponents_48k as G.
  rewrite forallb_forall in G.
  specialize (G bin); rewrite in_range in G; specialize (G Hb).
  unfold bin_gain.
  destruct (bin_idx pc_48k_2048 bin <? NUM_FREQUENCIES - 1); [|reflexivity].
  cbn [negb orb] in G; rewrite interpolated_gain_exponent.
  set (x := interpolated_gain (L:=F32_pow_exponent) _ _ _) in *.
  clearbody x; destruct x as [[]| | |]; try discriminate G.
  exact Hpow.
Qed.

(** X16. In binary32, with a [powf] for which [powf(10, +0) = 1] (as the
    C standard requires), the all-zero curve converts at 48 kHz and 2048
    points to 1025 gains of exactly [1.0f]; and an [AdaptiveLoudnessEQ]
    at 48 kHz keeps all its gains at exactly [1.0f] through any run of
    [updateEnvironment] calls in which the playback level and the target
    derived from it (level + 5) fall on the same side of 50 phon.  The
    noise floor argument plays no part. *)
Theorem X16_same_side_levels_leave_gains_at_unity
    (calls : list (num * num)) :
  powf (litf 10 1) zero = litf 1 1 ->
  convertToFFTBins (L:=libm) pc_48k_2048 zero_curve = unit_gains 1025
  /\ (Forall (fun c => same_side_of_50 (snd c) (add (snd c) (litf 5 1)))
             calls ->
      AdaptiveLoudnessEQ.currentGains
        (AdaptiveLoudnessEQ.updates (L:=libm)
           (AdaptiveLoudnessEQ.make (of_int 48000)) calls)
      = unit_gains 1025).
Proof.
  intros Hpow; split; [exact (zero_curve_unity_48k Hpow)|].
  intros Hall.
  assert (G : forall e,
             AdaptiveLoudnessEQ.corrector e = pc_48k_2048 ->
             AdaptiveLoudnessEQ.currentGains e = unit_gains 1025 ->
             AdaptiveLoudnessEQ.currentGains
               (AdaptiveLoudnessEQ.updates (L:=libm) e calls)
             = unit_gains 1025).
  { induction Hall as [|c calls Hc Hall IH]; intros e He Hg; [exact Hg|].
    unfold AdaptiveLoudnessEQ.updates; cbn [fold_left]; apply IH.
    - unfold AdaptiveLoudnessEQ.updateEnvironment;
        cbn [AdaptiveLoudnessEQ.corrector]; exact He.
    - unfold AdaptiveLoudnessEQ.updateEnvironment;
        cbn [AdaptiveLoudnessEQ.currentGains].
      rewrite (curve_same_side_zero_f32 _ _ Hc), He.
      rewrite (zero_curve_unity_48k Hpow), Hg.
      apply smooth_unit_gains_f32; left; reflexivity. }
  apply G; reflexivity.
Qed.

(** X19. In binary32, under the same condition on [powf], the example
    processor applies no correction as long as the playback level it
    derives from the noise floor (noise + 8) and the target level are on
    the same side of 50 phon: it starts with all gains at [1.0f] at
    48 kHz, and [setNoiseFloor] and [setTargetPhon] keep them there. *)
Theorem X19_processor_same_side_stays_at_unity :
  powf (litf 10 1) zero = litf 1 1 ->
  at_unity PsychoacousticProcessor.make
  /\ forall p, at_unity p ->
       (forall noiseDB,
          same_side_of_50 (add noiseDB (litf 8 1))
                          (PsychoacousticProcessor.targetPhon p) ->
          at_unity (PsychoacousticProcessor.setNoiseFloor (L:=libm) p
                      noiseDB))
       /\ (forall phon,
             same_side_of_50
               (add (PsychoacousticProcessor.currentNoiseFloor p)
                    (litf 8 1)) phon ->
             at_unity (PsychoacousticProcessor.setTargetPhon (L:=libm) p
                         phon)).
Proof.
  intros Hpow; split.
  { split; [|reflexivity].
    unfold PsychoacousticProcessor.make, pc_48k_2048;
      cbn [PsychoacousticProcessor.corrector].
    f_equal; vm_compute; reflexivity. }
  intros p (Hc & Hg); split; intros x Hx; split;
    unfold PsychoacousticProcessor.setNoiseFloor,
      PsychoacousticProcessor.setTargetPhon,
      PsychoacousticProcessor.updateCorrectionCurve;
    cbn [PsychoacousticProcessor.corrector
         PsychoacousticProcessor.currentGains
         PsychoacousticProcessor.currentNoiseFloor
         PsychoacousticProcessor.targetPhon];
    try exact Hc.
  all: rewrite (curve_same_side_zero_f32 _ _ Hx), Hc,
         (zero_curve_unity_48k Hpow), Hg.
  all: apply smooth_unit_gains_f32; right; reflexivity.
Qed.

End WithLibm.

Lemma X4_witness :
  0 <= 600 < numBins_of pc_48k_2048
  /\ ltb (freq_at (NUM_FREQUENCIES - 1)) (bin_freq pc_48k_2048 600) = true
  /\ at_ zero (convertToFFTBins (L:=F32_pow_exponent) pc_48k_2048
                 curve_20dB_at_20Hz) 600
     = litf 1 1.
Proof.
  assert (H1 : 0 <= 600 < numBins_of pc_48k_2048)
    by (split; [discriminate|reflexivity]).
  assert (H2 : ltb (freq_at (NUM_FREQUENCIES - 1))
                   (bin_freq pc_48k_2048 600) = true)
    by (vm_compute; reflexivity).
  split; [exact H1|split; [exact H2|]].
  exact (proj1 (X4_bins_above_table_keep_unity (fun _ y => y) (fun x => x)
                  pc_48k_2048 curve_20dB_at_20Hz) 600 H1 H2).
Defined.

End Binary32More.

Lemma X16_witness :
  let powf : B32.t -> B32.t -> B32.t := fun _ _ => @litf F32 1 1 in
  let calls := [(@of_int F32 30, @of_int F32 40);
                (@of_int F32 35, @of_int F32 60)] in
  powf (@litf F32 10 1) (@zero F32) = @litf F32 1 1
  /\ Forall (fun c => @same_side_of_50 F32 (snd c)
                        (@add F32 (snd c) (@litf F32 5 1))) calls
  /\ AdaptiveLoudnessEQ.currentGains
       (AdaptiveLoudnessEQ.updates (L:=F32_libm powf (fun x => x))
          (AdaptiveLoudnessEQ.make (@of_int F32 48000)) calls)
     = @unit_gains F32 1025.
Proof.
  cbv zeta.
  assert (H1 : (fun _ _ : B32.t => @litf F32 1 1)
                 (@litf F32 10 1) (@zero F32) = @litf F32 1 1)
    by reflexivity.
  assert (H2 : Forall (fun c => @same_side_of_50 F32 (snd c)
                                  (@add F32 (snd c) (@litf F32 5 1)))
                 [(@of_int F32 30, @of_int F32 40);
                  (@of_int F32 35, @of_int F32 60)]).
  { apply Forall_cons; [left; split; vm_compute; reflexivity|].
    apply Forall_cons; [right; split; vm_compute; reflexivity|].
    apply Forall_nil. }
  split; [exact H1|split; [exact H2|]].
  exact (proj2 (X16_same_side_levels_leave_gains_at_unity
                  (fun _ _ => @litf F32 1 1) (fun x => x) _ H1) H2).
Defined.

Lemma X19_witness :
  let powf : B32.t -> B32.t -> B32.t := fun _ _ => @litf F32 1 1 in
  let libm := F32_libm powf (fun x => x) in
  powf (@litf F32 10 1) (@zero F32) = @litf F32 1 1
  /\ @at_unity F32 PsychoacousticProcessor.make
  /\ @same_side_of_50 F32 (@add F32 (@of_int F32 45) (@litf F32 8 1))
        (PsychoacousticProcessor.targetPhon
           (@PsychoacousticProcessor.make F32))
  /\ @at_unity F32
        (PsychoacousticProcessor.setNoiseFloor (L:=libm)
           PsychoacousticProcessor.make (@of_int F32 45)).
Proof.
  cbv zeta.
  assert (H1 : (fun _ _ : B32.t => @litf F32 1 1)
                 (@litf F32 10 1) (@zero F32) = @litf F32 1 1)
    by reflexivity.
  assert (H2 : @same_side_of_50 F32
                 (@add F32 (@of_int F32 45) (@litf F32 8 1))
                 (PsychoacousticProcessor.targetPhon
                    (@PsychoacousticProcessor.make F32))).
  { right; split; vm_compute; reflexivity. }
  destruct (X19_processor_same_side_stays_at_unity
              (fun _ _ => @litf F32 1 1) (fun x => x) H1) as (G1 & G2).
  split; [exact H1|split; [exact G1|split; [exact H2|]]].
  exact (proj1 (G2 _ G1) (@of_int F32 45) H2).
Defined.

(** * Rounding in binary32 *)

(** ** Powers of two and nearest integers *)

Lemma bpow_pos (e : Z) : (0 < bpow e)%R.
Proof. unfold bpow; apply powerRZ_lt; lra. Qed.

Lemma bpow_add (a b : Z) : bpow (a + b) = (bpow a * bpow b)%R.
Proof. unfold bpow; apply powerRZ_add; lra. Qed.

Lemma bpow_0 : bpow 0 = 1%R.
Proof. reflexivity. Qed.

Lemma bpow_1 : bpow 1 = 2%R.
Proof. unfold bpow; simpl; lra. Qed.

Lemma bpow_succ (e : Z) : bpow (e + 1) = (2 * bpow e)%R.
Proof. rewrite bpow_add, bpow_1; lra. Qed.

Lemma bpow_pred (e : Z) : bpow (e - 1) = (bpow e / 2)%R.
Proof.
  replace e with (e - 1 + 1) at 2 by lia; rewrite bpow_succ; lra.
Qed.

Lemma bpow_le (a b : Z) : a <= b -> (bpow a <= bpow b)%R.
Proof.
  intros H; replace b with (a + Z.of_nat (Z.to_nat (b - a))) by lia.
  induction (Z.to_nat (b - a)) as [|n IH].
  - rewrite Z.add_0_r; lra.
  - replace (a + Z.of_nat (S n)) with (a + Z.of_nat n + 1) by lia.
    rewrite bpow_succ; pose proof (bpow_pos (a + Z.of_nat n)); lra.
Qed.

Lemma bpow_lt (a b : Z) : a < b -> (bpow a < bpow b)%R.
Proof.
  intros H; pose proof (bpow_le (a + 1) b ltac:(lia)) as G.
  rewrite bpow_succ in G; pose proof (bpow_pos a); lra.
Qed.

Lemma bpow_nat (n : nat) : bpow (Z.of_nat n) = IZR (2 ^ Z.of_nat n).
Proof.
  induction n as [|n IH].
  - reflexivity.
  - replace (Z.of_nat (S n)) with (Z.of_nat n + 1) by lia.
    rewrite bpow_succ, IH, Z.pow_add_r, mult_IZR by lia.
    simpl; lra.
Qed.

Lemma bpow_Z (e : Z) : 0 <= e -> bpow e = IZR (2 ^ e).
Proof.
  intros H; rewrite <- (Z2Nat.id e H); apply bpow_nat.
Qed.

(** The nearest integer grows with the real. *)
Lemma nearest_even_mono (y1 y2 : R) (z1 z2 : Z) :
  (y1 <= y2)%R -> nearest_even y1 z1 -> nearest_even y2 z2 -> z1 <= z2.
Proof.
  intros Hy H1 H2.
  destruct (Z_le_gt_dec z1 z2) as [|Hgt]; [assumption|exfalso].
  assert (Hz : (IZR z2 + 1 <= IZR z1)%R).
  { rewrite <- plus_IZR; apply IZR_le; lia. }
  unfold nearest_even in *.
  destruct H1 as [H1|[H1 E1]], H2 as [H2|[H2 E2]];
    try (apply Rabs_def2 in H1); try (apply Rabs_def2 in H2);
    try (revert H1; unfold Rabs; destruct (Rcase_abs _); intros);
    try (revert H2; unfold Rabs; destruct (Rcase_abs _); intros);
    try lra.
  assert (IZR z1 = IZR z2 + 1)%R by lra.
  rewrite <- plus_IZR in H; apply eq_IZR in H; subst z1.
  rewrite Z.even_add in E1; rewrite E2 in E1; discriminate.
Qed.

Lemma nearest_even_int (z : Z) : nearest_even (IZR z) z.
Proof.
  left; rewrite Rminus_diag, Rabs_R0; lra.
Qed.

Lemma nearest_even_unique (y : R) (z1 z2 : Z) :
  nearest_even y z1 -> nearest_even y z2 -> z1 = z2.
Proof.
  intros H1 H2.
  pose proof (nearest_even_mono y y z1 z2 ltac:(lra) H1 H2).
  pose proof (nearest_even_mono y y z2 z1 ltac:(lra) H2 H1).
  lia.
Qed.

(** One shift to the right halves the located value. *)
Lemma IZR_xO (p : positive) : IZR (Zpos p~0) = (2 * IZR (Zpos p))%R.
Proof. rewrite <- mult_IZR; reflexivity. Qed.

Lemma IZR_xI (p : positive) : IZR (Zpos p~1) = (2 * IZR (Zpos p) + 1)%R.
Proof. change (Zpos p~1) with (2 * Zpos p + 1); rewrite plus_IZR, mult_IZR; reflexivity. Qed.

Lemma shr_1_located (y : R) (mrs : shr_record) :
  0 <= shr_m mrs -> located y mrs ->
  located (y / 2) (shr_1 mrs) /\ 0 <= shr_m (shr_1 mrs).
Proof.
  destruct mrs as [m r s]; cbn [shr_m]; intros Hm.
  destruct m as [|p|p]; [| |lia].
  - unfold located, shr_1; destruct r, s; cbn; intros H; split; try lia; lra.
  - unfold located; destruct p as [p|p|]; destruct r, s; cbn [shr_1 shr_m shr_r shr_s orb];
      try rewrite IZR_xO; try rewrite IZR_xI; intros H; split; try lia; lra.
Qed.

Lemma iter_shr_1_located (p : positive) (y : R) (mrs : shr_record) :
  0 <= shr_m mrs -> located y mrs ->
  located (y / bpow (Zpos p)) (SpecFloat.iter_pos shr_1 p mrs)
  /\ 0 <= shr_m (SpecFloat.iter_pos shr_1 p mrs).
Proof.
  revert y mrs; induction p as [p IH|p IH|]; intros y mrs Hm Hy;
    cbn [SpecFloat.iter_pos].
  - destruct (shr_1_located y mrs Hm Hy) as (H1 & M1).
    destruct (IH _ _ M1 H1) as (H2 & M2).
    destruct (IH _ _ M2 H2) as (H3 & M3).
    split; [|exact M3].
    replace (y / bpow (Zpos p~1))%R with (y / 2 / bpow (Zpos p) / bpow (Zpos p))%R;
      [exact H3|].
    replace (Zpos p~1) with (Zpos p + Zpos p + 1) by lia.
    rewrite !bpow_add, bpow_1.
    pose proof (bpow_pos (Zpos p)); field; lra.
  - destruct (IH _ _ Hm Hy) as (H2 & M2).
    destruct (IH _ _ M2 H2) as (H3 & M3).
    split; [|exact M3].
    replace (y / bpow (Zpos p~0))%R with (y / bpow (Zpos p) / bpow (Zpos p))%R;
      [exact H3|].
    replace (Zpos p~0) with (Zpos p + Zpos p) by lia.
    rewrite !bpow_add.
    pose proof (bpow_pos (Zpos p)); field; lra.
  - rewrite bpow_1; now apply shr_1_located.
Qed.

Lemma round_nearest_even_ok (y : R) (mrs : shr_record) :
  located y mrs ->
  nearest_even y (round_nearest_even (shr_m mrs) (loc_of_shr_record mrs)).
Proof.
  destruct mrs as [m r s]; unfold located; cbn [shr_m shr_r shr_s].
  destruct r, s; cbn [loc_of_shr_record round_nearest_even]; intros H.
  - left; rewrite plus_IZR; apply Rabs_def1; lra.
  - destruct (Z.even m) eqn:E.
    + right; split; [|exact E].
      subst y; replace (IZR m + 1 / 2 - IZR m)%R with (1 / 2)%R by lra.
      apply Rabs_pos_eq; lra.
    + right; split.
      * subst y; rewrite plus_IZR.
        replace (IZR m + 1 / 2 - (IZR m + 1))%R with (- (1 / 2))%R by lra.
        rewrite Rabs_Ropp; apply Rabs_pos_eq; lra.
      * rewrite Z.even_add, E; reflexivity.
  - left; apply Rabs_def1; lra.
  - left; subst y; rewrite Rminus_diag, Rabs_R0; lra.
Qed.

(** ** The exponent of a rounded value and its encoding *)

Lemma digits2_pos_bounds (m : positive) :
  2 ^ (Zpos (digits2_pos m) - 1) <= Zpos m < 2 ^ Zpos (digits2_pos m).
Proof.
  induction m as [m IH|m IH|]; cbn [digits2_pos].
  - rewrite Pos2Z.inj_succ.
    replace (Z.succ (Zpos (digits2_pos m)) - 1) with (Zpos (digits2_pos m) - 1 + 1) by lia.
    rewrite Z.pow_succ_r, Z.pow_add_r by lia.
    change (2 ^ 1) with 2; lia.
  - rewrite Pos2Z.inj_succ.
    replace (Z.succ (Zpos (digits2_pos m)) - 1) with (Zpos (digits2_pos m) - 1 + 1) by lia.
    rewrite Z.pow_succ_r, Z.pow_add_r by lia.
    change (2 ^ 1) with 2; lia.
  - simpl; lia.
Qed.

Lemma digits2_pos_le (m : positive) (n : Z) :
  Zpos m < 2 ^ n -> Zpos (digits2_pos m) <= n.
Proof.
  intros H; destruct (digits2_pos_bounds m) as (Hlo & _).
  destruct (Z_le_gt_dec (Zpos (digits2_pos m)) n) as [|Hgt]; [assumption|].
  exfalso.
  assert (2 ^ n <= 2 ^ (Zpos (digits2_pos m) - 1)).
  { destruct (Z_lt_le_dec n 0).
    - rewrite Z.pow_neg_r by lia. apply Z.pow_nonneg; lia.
    - apply Z.pow_le_mono_r; lia. }
  lia.
Qed.

Lemma digits2_pos_ge (m : positive) (n : Z) :
  2 ^ n <= Zpos m -> 0 <= n -> n + 1 <= Zpos (digits2_pos m).
Proof.
  intros H Hn; destruct (digits2_pos_bounds m) as (_ & Hhi).
  destruct (Z_le_gt_dec (n + 1) (Zpos (digits2_pos m))) as [|Hgt];
    [assumption|exfalso].
  assert (2 ^ Zpos (digits2_pos m) <= 2 ^ n) by (apply Z.pow_le_mono_r; lia).
  lia.
Qed.

(** The exponent function of binary32. *)
Lemma fexp32_eq (mag : Z) : fexp32 mag = Z.max (mag - 24) (-149).
Proof. reflexivity. Qed.

Lemma located_exact (m : Z) : located (IZR m) (shr_record_of_loc m loc_Exact).
Proof. reflexivity. Qed.

Lemma loc_of_shr_record_of_loc (m : Z) (l : location) :
  loc_of_shr_record (shr_record_of_loc m l) = l.
Proof. destruct l as [|[]]; reflexivity. Qed.

Lemma shr_m_of_loc (m : Z) (l : location) :
  shr_m (shr_record_of_loc m l) = m.
Proof. destruct l as [|[]]; reflexivity. Qed.

Lemma located_range (y : R) (mrs : shr_record) :
  located y mrs -> (IZR (shr_m mrs) <= y < IZR (shr_m mrs) + 1)%R.
Proof.
  destruct mrs as [m [] []]; unfold located; cbn; intros; lra.
Qed.

Lemma shr_fexp_located (mx ex : Z) (lx : location) (y : R) :
  0 <= mx -> located y (shr_record_of_loc mx lx) ->
  let k := Z.max (fexp32 (Zdigits2 mx + ex) - ex) 0 in
  let res := shr_fexp B32.prec B32.emax mx ex lx in
  0 <= shr_m (fst res) /\ snd res = ex + k
  /\ located (y / bpow k) (fst res).
Proof.
  intros Hm Hy; cbv zeta.
  unfold shr_fexp, fexp32.
  set (n := fexp B32.prec B32.emax (Zdigits2 mx + ex) - ex).
  destruct n as [|p|p]; cbn [shr fst snd Z.max Z.compare].
  - rewrite shr_m_of_loc, Z.add_0_r, bpow_0.
    split; [exact Hm|split; [reflexivity|]].
    now replace (y / 1)%R with y by field.
  - replace (Z.max (Zpos p) 0) with (Zpos p) by lia.
    destruct (iter_shr_1_located p y (shr_record_of_loc mx lx)) as (H1 & H2);
      [now rewrite shr_m_of_loc|exact Hy|].
    split; [exact H2|split; [reflexivity|exact H1]].
  - replace (Z.max (Zneg p) 0) with 0 by lia.
    rewrite shr_m_of_loc, Z.add_0_r, bpow_0.
    split; [exact Hm|split; [reflexivity|]].
    now replace (y / 1)%R with y by field.
Qed.

(** The encoding of a rounded mantissa. *)
Lemma encode_0 (s : bool) (e : Z) : encode s 0 e = S754_zero s.
Proof.
  unfold encode.
  pose proof (shr_fexp_located 0 e loc_Exact 0%R ltac:(lia)
                (located_exact 0)) as H; cbv zeta in H.
  destruct (shr_fexp B32.prec B32.emax 0 e loc_Exact) as [mrs e'].
  cbn [fst snd] in H; destruct H as (H0 & _ & Hl).
  apply located_range in Hl.
  replace (0 / bpow _)%R with 0%R in Hl by (unfold Rdiv; ring).
  assert (shr_m mrs = 0).
  { destruct Hl as (Ha & Hb).
    assert (Hc : (IZR (shr_m mrs) < IZR 1)%R) by lra.
    apply lt_IZR in Hc; lia. }
  now rewrite H.
Qed.

Lemma encode_small (s : bool) (z e : Z) :
  0 < z < 2 ^ 24 -> -149 <= e ->
  encode s z e
  = if e <=? 104 then S754_finite s (Z.to_pos z) e else S754_infinity s.
Proof.
  intros Hz He; unfold encode, shr_fexp.
  destruct z as [|p|p]; try lia.
  cbn [Zdigits2].
  pose proof (digits2_pos_le p 24 ltac:(lia)) as Hd.
  replace (fexp B32.prec B32.emax (Zpos (digits2_pos p) + e) - e)
    with (Z.max (Zpos (digits2_pos p) + e - 24) (-149) - e) by reflexivity.
  destruct (Z.max (Zpos (digits2_pos p) + e - 24) (-149) - e) eqn:E; try lia.
  - cbn [shr shr_record_of_loc shr_m]; reflexivity.
  - cbn [shr shr_record_of_loc shr_m]; reflexivity.
Qed.

Lemma encode_top (s : bool) (e : Z) :
  -149 <= e ->
  encode s (2 ^ 24) e
  = if e + 1 <=? 104 then S754_finite s 8388608 (e + 1)
    else S754_infinity s.
Proof.
  intros He; unfold encode, shr_fexp.
  change (2 ^ 24) with 16777216.
  cbn [Zdigits2 digits2_pos Pos.succ].
  replace (fexp B32.prec B32.emax (25 + e) - e) with 1
    by (change (fexp B32.prec B32.emax (25 + e)) with (Z.max (25 + e - 24) (-149)); lia).
  reflexivity.
Qed.

Lemma bpow_sub (a b : Z) : bpow (a - b) = (bpow a / bpow b)%R.
Proof.
  replace a with (a - b + b) at 2 by lia.
  rewrite bpow_add; pose proof (bpow_pos b); field; lra.
Qed.

Lemma bpow_23 : bpow 23 = 8388608%R.
Proof. rewrite bpow_Z by lia; reflexivity. Qed.

Lemma bpow_24 : bpow 24 = 16777216%R.
Proof. rewrite bpow_Z by lia; reflexivity. Qed.

Lemma div_le_div (a b c : R) : (0 < c)%R -> (a <= b)%R -> (a / c <= b / c)%R.
Proof.
  intros Hc H; unfold Rdiv; apply Rmult_le_compat_r; [|exact H].
  left; now apply Rinv_0_lt_compat.
Qed.

Lemma div_lt_div (a b c : R) : (0 < c)%R -> (a < b)%R -> (a / c < b / c)%R.
Proof.
  intros Hc H; unfold Rdiv; apply Rmult_lt_compat_r; [|exact H].
  now apply Rinv_0_lt_compat.
Qed.

Lemma in_binade_unique (v : R) (m1 m2 : Z) :
  in_binade v m1 -> in_binade v m2 -> m1 = m2.
Proof.
  unfold in_binade; intros (A1 & B1) (A2 & B2).
  destruct (Z.lt_trichotomy m1 m2) as [H|[H|H]]; [exfalso| exact H |exfalso].
  - pose proof (bpow_le m1 (m2 - 1) ltac:(lia)); lra.
  - pose proof (bpow_le m2 (m1 - 1) ltac:(lia)); lra.
Qed.

Lemma in_binade_mono (v1 v2 : R) (m1 m2 : Z) :
  in_binade v1 m1 -> in_binade v2 m2 -> (v1 <= v2)%R -> m1 <= m2.
Proof.
  unfold in_binade; intros (A1 & B1) (A2 & B2) H.
  destruct (Z_le_gt_dec m1 m2) as [|Hgt]; [assumption|exfalso].
  pose proof (bpow_le m2 (m1 - 1) ltac:(lia)); lra.
Qed.

(** The shape of a rounded positive value. *)
Lemma rnd_pos_inv (v : R) (s : bool) (r : B32.t) :
  rnd_pos v s r ->
  exists mag z,
    in_binade v mag
    /\ nearest_even (v / bpow (fexp32 mag)) z
    /\ r = encode s z (fexp32 mag)
    /\ 0 <= z <= 2 ^ 24
    /\ (-149 < fexp32 mag -> 2 ^ 23 <= z).
Proof.
  intros (mag & z & Hb & Hn & Hr); exists mag, z.
  split; [exact Hb|split; [exact Hn|split; [exact Hr|]]].
  pose proof (bpow_pos (fexp32 mag)) as Hp.
  destruct Hb as (Hlo & Hhi).
  pose proof (bpow_pos (mag - 1)) as Hp1.
  rewrite fexp32_eq in *.
  set (y := (v / bpow (Z.max (mag - 24) (-149)))%R) in *.
  split; [split|].
  - apply (nearest_even_mono 0%R y 0 z); [|apply nearest_even_int|exact Hn].
    apply Rmult_le_pos; [lra|left; now apply Rinv_0_lt_compat].
  - apply (nearest_even_mono y (IZR (2 ^ 24)) z (2 ^ 24));
      [|exact Hn|apply nearest_even_int].
    rewrite <- bpow_Z by lia.
    apply (Rle_trans _ (bpow mag / bpow (Z.max (mag - 24) (-149)))).
    + left; now apply div_lt_div.
    + rewrite <- bpow_sub; apply bpow_le; lia.
  - intros He.
    apply (nearest_even_mono (IZR (2 ^ 23)) y (2 ^ 23) z);
      [|apply nearest_even_int|exact Hn].
    rewrite <- bpow_Z by lia.
    apply (Rle_trans _ (bpow (mag - 1) / bpow (Z.max (mag - 24) (-149)))).
    + rewrite <- bpow_sub; apply bpow_le; lia.
    + now apply div_le_div.
Qed.

(** An encoded value is a zero, a finite number or an infinity. *)
Lemma encode_cases (s : bool) (z e : Z) :
  0 <= z <= 2 ^ 24 -> -149 <= e ->
  (z = 0 /\ encode s z e = S754_zero s)
  \/ (0 < z < 2 ^ 24
      /\ encode s z e = if e <=? 104 then S754_finite s (Z.to_pos z) e
                        else S754_infinity s)
  \/ (z = 2 ^ 24
      /\ encode s z e = if e + 1 <=? 104 then S754_finite s 8388608 (e + 1)
                        else S754_infinity s).
Proof.
  intros Hz He.
  destruct (Z.eq_dec z 0) as [->|Hnz]; [left; split; [reflexivity|apply encode_0]|].
  destruct (Z.eq_dec z (2 ^ 24)) as [->|Hnt].
  - right; right; split; [reflexivity|now apply encode_top].
  - right; left; split; [lia|apply encode_small; lia].
Qed.

Lemma fle_finite_pos (m1 m2 : positive) (e1 e2 : Z) :
  e1 < e2 \/ (e1 = e2 /\ (m1 <= m2)%positive) ->
  B32.fle (S754_finite false m1 e1) (S754_finite false m2 e2) = true.
Proof.
  unfold B32.fle, SFleb, SFcompare; intros H.
  change (Pos.compare_cont Eq m1 m2) with (Pos.compare m1 m2).
  destruct (Z.compare_spec e1 e2); try reflexivity; try lia.
  destruct (Pos.compare_spec m1 m2); try reflexivity; lia.
Qed.

Lemma fle_finite_neg (m1 m2 : positive) (e1 e2 : Z) :
  e1 < e2 \/ (e1 = e2 /\ (m1 <= m2)%positive) ->
  B32.fle (S754_finite true m2 e2) (S754_finite true m1 e1) = true.
Proof.
  unfold B32.fle, SFleb, SFcompare; intros H.
  change (Pos.compare_cont Eq m2 m1) with (Pos.compare m2 m1).
  destruct (Z.compare_spec e2 e1); try reflexivity; try lia.
  destruct (Pos.compare_spec m2 m1); try reflexivity; lia.
Qed.

(** Encoded values are ordered like their pairs (exponent, mantissa). *)
Lemma encode_le (s : bool) (z1 e1 z2 e2 : Z) :
  0 <= z1 <= 2 ^ 24 -> 0 <= z2 <= 2 ^ 24 -> -149 <= e1 ->
  (e1 = e2 /\ z1 <= z2) \/ (e1 < e2 /\ 2 ^ 23 <= z2) ->
  if s then B32.fle (encode s z2 e2) (encode s z1 e1) = true
  else B32.fle (encode s z1 e1) (encode s z2 e2) = true.
Proof.
  intros H1 H2 He H.
  change (2 ^ 23) with 8388608 in *; change (2 ^ 24) with 16777216 in *.
  assert (He2 : -149 <= e2) by lia.
  destruct (encode_cases s z1 e1 H1 He) as [(Z1 & E1)|[(Z1 & E1)|(Z1 & E1)]];
  destruct (encode_cases s z2 e2 H2 He2) as [(Z2 & E2)|[(Z2 & E2)|(Z2 & E2)]];
    rewrite E1, E2; clear E1 E2;
    change (2 ^ 24) with 16777216 in *;
    repeat match goal with
      | |- context [?a <=? ?b] => destruct (Z.leb_spec a b)
      end;
    destruct s; try reflexivity; try lia;
    try (apply fle_finite_pos); try (apply fle_finite_neg);
    try (destruct H as [(? & ?)|(? & ?)];
         [right; split; [lia|]; try (apply Pos2Z.pos_le_pos; rewrite ?Z2Pos.id by lia; lia) | left; lia]);
    try lia.
Qed.

(** ** Rounding is monotone *)

Lemma rnd_pos_mono (v1 v2 : R) (s : bool) (r1 r2 : B32.t) :
  (v1 <= v2)%R -> rnd_pos v1 s r1 -> rnd_pos v2 s r2 ->
  if s then B32.fle r2 r1 = true else B32.fle r1 r2 = true.
Proof.
  intros Hv H1 H2.
  destruct (rnd_pos_inv _ _ _ H1) as (m1 & z1 & B1 & N1 & -> & Z1 & T1).
  destruct (rnd_pos_inv _ _ _ H2) as (m2 & z2 & B2 & N2 & -> & Z2 & T2).
  pose proof (in_binade_mono _ _ _ _ B1 B2 Hv) as Hm.
  apply encode_le; try assumption.
  - rewrite fexp32_eq; lia.
  - rewrite !fexp32_eq in *.
    destruct (Z.eq_dec (Z.max (m1 - 24) (-149)) (Z.max (m2 - 24) (-149)))
      as [E|E].
    + left; split; [exact E|].
      rewrite <- E in N2.
      apply (nearest_even_mono _ _ _ _ (div_le_div _ _ _ (bpow_pos _) Hv) N1 N2).
    + right; split; [lia|apply T2; lia].
Qed.

Lemma rnd_pos_sign (v : R) (s : bool) (r : B32.t) :
  rnd_pos v s r ->
  if s then is_neg_or_zero r else is_pos_or_zero r.
Proof.
  intros H; destruct (rnd_pos_inv _ _ _ H) as (m & z & B & N & -> & Z1 & T).
  destruct (encode_cases s z (fexp32 m) Z1) as [(? & E)|[(? & E)|(? & E)]];
    [rewrite fexp32_eq; lia| | |]; rewrite E;
    repeat match goal with
      | |- context [?a <=? ?b] => destruct (Z.leb_spec a b)
      end; destruct s; exact I.
Qed.

Lemma rnd_pos_valid (v : R) (s : bool) (r : B32.t) :
  rnd_pos v s r -> B32.valid r = true.
Proof.
  intros H; destruct (rnd_pos_inv _ _ _ H) as (m & z & B & N & -> & Z1 & T).
  assert (He : -149 <= fexp32 m) by (rewrite fexp32_eq; lia).
  destruct (encode_cases s z (fexp32 m) Z1 He) as [(? & E)|[(? & E)|(? & E)]];
    rewrite E; clear E; try reflexivity.
  - destruct (Z.leb_spec (fexp32 m) 104) as [Hle|]; [|reflexivity].
    unfold B32.valid, valid_binary, bounded, canonical_mantissa.
    apply andb_true_intro; split; [|apply Z.leb_le; exact Hle].
    apply Z.eqb_eq.
    change (fexp B32.prec B32.emax ?x) with (Z.max (x - 24) (-149)).
    destruct z as [|p|p]; try lia; cbn [Z.to_pos].
    pose proof (digits2_pos_le p 24 ltac:(lia)) as Hd.
    destruct (Z.eq_dec (fexp32 m) (-149)) as [E|E]; [lia|].
    pose proof (digits2_pos_ge p 23 ltac:(apply T; lia) ltac:(lia)).
    lia.
  - destruct (Z.leb_spec (fexp32 m + 1) 104) as [Hle|]; [|reflexivity].
    unfold B32.valid, valid_binary, bounded, canonical_mantissa.
    apply andb_true_intro; split; [|apply Z.leb_le; exact Hle].
    apply Z.eqb_eq.
    change (fexp B32.prec B32.emax ?x) with (Z.max (x - 24) (-149)).
    cbn [digits2_pos Pos.succ]; lia.
Qed.

Lemma fle_neg_pos (a b : B32.t) :
  is_neg_or_zero a -> is_pos_or_zero b -> B32.fle a b = true.
Proof.
  destruct a as [[]|[]| |[] ? ?], b as [[]|[]| |[] ? ?];
    simpl; intros; try contradiction; reflexivity.
Qed.

Lemma fle_zero_pos (s : bool) (b : B32.t) :
  is_pos_or_zero b -> B32.fle (S754_zero s) b = true.
Proof.
  destruct b as [[]|[]| |[] ? ?];
    simpl; intros; try contradiction; reflexivity.
Qed.

Lemma fle_neg_zero (s : bool) (a : B32.t) :
  is_neg_or_zero a -> B32.fle a (S754_zero s) = true.
Proof.
  destruct a as [[]|[]| |[] ? ?];
    simpl; intros; try contradiction; reflexivity.
Qed.

(** A larger real rounds to a binary32 value that is not smaller. *)
Lemma rnd_mono (v1 v2 : R) (r1 r2 : B32.t) :
  (v1 <= v2)%R -> rnd v1 r1 -> rnd v2 r2 -> B32.fle r1 r2 = true.
Proof.
  intros Hv [(Z1 & s1 & ->)|[(P1 & H1)|(N1 & H1)]]
            [(Z2 & s2 & ->)|[(P2 & H2)|(N2 & H2)]]; try lra.
  - reflexivity.
  - apply fle_zero_pos; apply (rnd_pos_sign _ _ _ H2).
  - apply (rnd_pos_mono _ _ false _ _ Hv H1 H2).
  - apply fle_neg_zero; apply (rnd_pos_sign _ _ _ H1).
  - apply fle_neg_pos;
      [apply (rnd_pos_sign _ _ _ H1)|apply (rnd_pos_sign _ _ _ H2)].
  - apply (rnd_pos_mono (- v2) (- v1) true r2 r1 ltac:(lra) H2 H1).
Qed.

Lemma rnd_valid (v : R) (r : B32.t) : rnd v r -> B32.valid r = true.
Proof.
  intros [(_ & s & ->)|[(_ & H)|(_ & H)]];
    [reflexivity|apply (rnd_pos_valid _ _ _ H)..].
Qed.

Lemma rnd_not_nan (v : R) (r : B32.t) : rnd v r -> B32.is_nan r = false.
Proof.
  intros [(_ & s & ->)|[(_ & H)|(_ & H)]]; [reflexivity| |];
    apply rnd_pos_sign in H; destruct r as [[]|[]| |[] ? ?];
    simpl in H; try contradiction; reflexivity.
Qed.

(** [binary_round_aux] returns the rounding of the located value. *)
Lemma binary_round_aux_encode (sx : bool) (mx ex : Z) (lx : location) :
  binary_round_aux B32.prec B32.emax sx mx ex lx
  = let sf := shr_fexp B32.prec B32.emax mx ex lx in
    encode sx (round_nearest_even (shr_m (fst sf))
                                  (loc_of_shr_record (fst sf))) (snd sf).
Proof.
  unfold binary_round_aux, encode; cbv zeta.
  destruct (shr_fexp B32.prec B32.emax mx ex lx) as [mrs' e']; cbn [fst snd].
  reflexivity.
Qed.

Lemma in_binade_scale (y : R) (d e : Z) :
  in_binade y d -> in_binade (y * bpow e) (d + e).
Proof.
  unfold in_binade; intros (A & B).
  replace (d + e - 1) with (d - 1 + e) by lia.
  rewrite !bpow_add; pose proof (bpow_pos e).
  split; [apply Rmult_le_compat_r; lra|apply Rmult_lt_compat_r; lra].
Qed.

Lemma in_binade_pos (m : positive) :
  in_binade (IZR (Zpos m)) (Zpos (digits2_pos m)).
Proof.
  destruct (digits2_pos_bounds m) as (A & B); unfold in_binade.
  rewrite !bpow_Z by lia.
  split; [apply IZR_le; exact A|apply IZR_lt; exact B].
Qed.

Lemma binary_round_aux_rnd (sx : bool) (mx ex : Z) (lx : location)
    (y : R) (mag : Z) :
  0 <= mx -> located y (shr_record_of_loc mx lx) ->
  in_binade (y * bpow ex) mag ->
  fexp32 (Zdigits2 mx + ex) = fexp32 mag ->
  ex <= fexp32 mag ->
  rnd_pos (y * bpow ex) sx (binary_round_aux B32.prec B32.emax sx mx ex lx).
Proof.
  intros Hm Hy Hb Hd He.
  rewrite binary_round_aux_encode; cbv zeta.
  pose proof (shr_fexp_located mx ex lx y Hm Hy) as H; cbv zeta in H.
  destruct H as (H0 & H1 & H2).
  rewrite Hd in H1, H2.
  replace (Z.max (fexp32 mag - ex) 0) with (fexp32 mag - ex) in * by lia.
  exists mag, (round_nearest_even
                 (shr_m (fst (shr_fexp B32.prec B32.emax mx ex lx)))
                 (loc_of_shr_record
                    (fst (shr_fexp B32.prec B32.emax mx ex lx)))).
  split; [exact Hb|split].
  - apply round_nearest_even_ok in H2.
    replace (y * bpow ex / bpow (fexp32 mag))%R
      with (y / bpow (fexp32 mag - ex))%R; [exact H2|].
    rewrite bpow_sub.
    pose proof (bpow_pos ex); pose proof (bpow_pos (fexp32 mag)).
    field; lra.
  - rewrite H1; f_equal; lia.
Qed.

(** ** Canonical values and the rounded operations *)

(** Every positive real lies in one binade. *)
Lemma bpow_Rpower (e : Z) : bpow e = Rpower 2 (IZR e).
Proof. unfold bpow; apply powerRZ_Rpower; lra. Qed.

Lemma binade_exists (v : R) : (0 < v)%R -> exists mag, in_binade v mag.
Proof.
  intros Hv.
  assert (Hl2 : (0 < ln 2)%R) by (rewrite <- ln_1; apply ln_increasing; lra).
  set (L := (ln v / ln 2)%R).
  destruct (archimed L) as (A1 & A2).
  exists (up L); unfold in_binade.
  assert (Ev : v = Rpower 2 L).
  { unfold Rpower, L.
    replace (ln v / ln 2 * ln 2)%R with (ln v) by (field; lra).
    now rewrite exp_ln. }
  rewrite !bpow_Rpower, minus_IZR.
  clearbody L; subst v.
  split.
  - apply Rle_Rpower; lra.
  - apply Rpower_lt; lra.
Qed.

(** A canonical value is the rounding of its own real value. *)
Lemma valid_finite_inv (s : bool) (m : positive) (e : Z) :
  B32.valid (S754_finite s m e) = true ->
  e = Z.max (Zpos (digits2_pos m) + e - 24) (-149) /\ e <= 104.
Proof.
  unfold B32.valid, valid_binary, bounded, canonical_mantissa.
  intros H; apply andb_prop in H; destruct H as (Hc & Hb).
  apply Z.eqb_eq in Hc; apply Z.leb_le in Hb.
  change (fexp B32.prec B32.emax ?x) with (Z.max (x - 24) (-149)) in Hc.
  change (B32.emax - B32.prec) with 104 in Hb.
  split; [symmetry; exact Hc|exact Hb].
Qed.

Lemma rnd_pos_self (s : bool) (m : positive) (e : Z) :
  B32.valid (S754_finite s m e) = true ->
  rnd_pos (IZR (Zpos m) * bpow e) s (S754_finite s m e).
Proof.
  intros Hv; destruct (valid_finite_inv s m e Hv) as (Hc & Hb).
  exists (Zpos (digits2_pos m) + e), (Zpos m).
  rewrite fexp32_eq, <- Hc.
  split; [apply in_binade_scale, in_binade_pos|split].
  - replace (IZR (Zpos m) * bpow e / bpow e)%R with (IZR (Zpos m));
      [apply nearest_even_int|].
    pose proof (bpow_pos e); field; lra.
  - rewrite encode_small.
    + destruct (Z.leb_spec e 104); [reflexivity|lia].
    + destruct (digits2_pos_bounds m) as (_ & Hhi).
      split; [lia|].
      apply (Z.lt_le_trans _ _ _ Hhi).
      apply Z.pow_le_mono_r; lia.
    + lia.
Qed.

Lemma B2R_finite (s : bool) (m : positive) (e : Z) :
  B2R (S754_finite s m e)
  = if s then (- (IZR (Zpos m) * bpow e))%R else (IZR (Zpos m) * bpow e)%R.
Proof. reflexivity. Qed.

Lemma mant_pos (m : positive) (e : Z) : (0 < IZR (Zpos m) * bpow e)%R.
Proof.
  apply Rmult_lt_0_compat; [apply IZR_lt; lia|apply bpow_pos].
Qed.

Lemma rnd_self (x : B32.t) :
  B32.is_finite x = true -> B32.valid x = true -> rnd (B2R x) x.
Proof.
  destruct x as [s|s| |s m e]; try discriminate; intros _ Hv.
  - left; split; [reflexivity|now exists s].
  - pose proof (mant_pos m e); rewrite B2R_finite; destruct s.
    + right; right; split; [lra|].
      rewrite Ropp_involutive; now apply rnd_pos_self.
    + right; left; split; [lra|now apply rnd_pos_self].
Qed.

(** Finite canonical values are ordered like their real values. *)
Lemma fle_antisym_B2R (x y : B32.t) :
  B32.is_finite x = true -> B32.is_finite y = true ->
  B32.fle x y = true -> B32.fle y x = true -> B2R x = B2R y.
Proof.
  destruct x as [sx|sx| |sx mx ex], y as [sy|sy| |sy my ey];
    try discriminate; intros _ _; try reflexivity;
    unfold B32.fle, SFleb, SFcompare.
  - destruct sy; discriminate.
  - destruct sx; discriminate.
  - change (Pos.compare_cont Eq mx my) with (Pos.compare mx my).
    change (Pos.compare_cont Eq my mx) with (Pos.compare my mx).
    destruct sx, sy; try discriminate;
      destruct (Z.compare_spec ex ey); destruct (Z.compare_spec ey ex);
      try lia; try discriminate;
      destruct (Pos.compare_spec mx my); destruct (Pos.compare_spec my mx);
      try lia; try discriminate; subst; intros; reflexivity.
Qed.

Lemma fle_B2R (x y : B32.t) :
  B32.is_finite x = true -> B32.is_finite y = true ->
  B32.valid x = true -> B32.valid y = true ->
  B32.fle x y = true -> (B2R x <= B2R y)%R.
Proof.
  intros Fx Fy Vx Vy H.
  destruct (Rle_or_lt (B2R x) (B2R y)) as [|Hlt]; [assumption|].
  pose proof (rnd_mono _ _ _ _ (Rlt_le _ _ Hlt) (rnd_self y Fy Vy)
                (rnd_self x Fx Vx)) as G.
  rewrite (fle_antisym_B2R x y Fx Fy H G); lra.
Qed.

Lemma B2R_fle (x y : B32.t) :
  B32.is_finite x = true -> B32.is_finite y = true ->
  B32.valid x = true -> B32.valid y = true ->
  (B2R x <= B2R y)%R -> B32.fle x y = true.
Proof.
  intros Fx Fy Vx Vy H.
  exact (rnd_mono _ _ _ _ H (rnd_self x Fx Vx) (rnd_self y Fy Vy)).
Qed.

(** *** Multiplication *)
Lemma fmul_rnd (x y : B32.t) :
  B32.is_finite x = true -> B32.is_finite y = true ->
  B32.valid x = true -> B32.valid y = true ->
  rnd (B2R x * B2R y) (B32.fmul x y).
Proof.
  destruct x as [sx|sx| |sx mx ex], y as [sy|sy| |sy my ey];
    try discriminate; intros _ _ Vx Vy.
  - left; split; [simpl; ring|now exists (xorb sx sy)].
  - left; split; [simpl; ring|now exists (xorb sx sy)].
  - left; split; [simpl; ring|now exists (xorb sx sy)].
  - destruct (valid_finite_inv _ _ _ Vx) as (Cx & Bx).
    destruct (valid_finite_inv _ _ _ Vy) as (Cy & By).
    assert (H : rnd_pos (IZR (Zpos (mx * my)) * bpow (ex + ey))
                  (xorb sx sy) (B32.fmul (S754_finite sx mx ex)
                                         (S754_finite sy my ey))).
    { unfold B32.fmul, SFmul.
      apply (binary_round_aux_rnd _ _ _ _ _
               (Zpos (digits2_pos (mx * my)) + (ex + ey))).
      - lia.
      - apply located_exact.
      - apply in_binade_scale, in_binade_pos.
      - reflexivity.
      - rewrite fexp32_eq.
        destruct (digits2_pos_bounds mx) as (Lx & _).
        destruct (digits2_pos_bounds my) as (Ly & _).
        assert (Hd : Zpos (digits2_pos mx) + Zpos (digits2_pos my) - 1
                     <= Zpos (digits2_pos (mx * my))).
        { replace (Zpos (digits2_pos mx) + Zpos (digits2_pos my) - 1)
            with (Zpos (digits2_pos mx) - 1 + (Zpos (digits2_pos my) - 1) + 1)
            by lia.
          apply digits2_pos_ge; [|lia].
          rewrite Z.pow_add_r by lia.
          rewrite Pos2Z.inj_mul; nia. }
        lia. }
    pose proof (mant_pos (mx * my) (ex + ey)) as Hp.
    assert (E : (IZR (Zpos mx) * bpow ex * (IZR (Zpos my) * bpow ey)
                 = IZR (Zpos (mx * my)) * bpow (ex + ey))%R).
    { rewrite Pos2Z.inj_mul, mult_IZR, bpow_add; ring. }
    rewrite !B2R_finite; destruct sx, sy; cbn [xorb] in H.
    + right; left; split; [|].
      * rewrite <- E in Hp; lra.
      * replace (- (IZR (Zpos mx) * bpow ex) * - (IZR (Zpos my) * bpow ey))%R
          with (IZR (Zpos (mx * my)) * bpow (ex + ey))%R by (rewrite <- E; ring).
        exact H.
    + right; right; split.
      * rewrite <- E in Hp; lra.
      * replace (- (- (IZR (Zpos mx) * bpow ex) * (IZR (Zpos my) * bpow ey)))%R
          with (IZR (Zpos (mx * my)) * bpow (ex + ey))%R by (rewrite <- E; ring).
        exact H.
    + right; right; split.
      * rewrite <- E in Hp; lra.
      * replace (- (IZR (Zpos mx) * bpow ex * - (IZR (Zpos my) * bpow ey)))%R
          with (IZR (Zpos (mx * my)) * bpow (ex + ey))%R by (rewrite <- E; ring).
        exact H.
    + right; left; split.
      * rewrite <- E in Hp; lra.
      * rewrite E; exact H.
Qed.

(** *** Addition and subtraction *)

(** The alignment of a mantissa to a smaller exponent. *)
Lemma iter_xO (d m : positive) : Zpos (Pos.iter xO m d) = Zpos m * 2 ^ Zpos d.
Proof.
  induction d as [|d IH] using Pos.peano_ind.
  - simpl; lia.
  - rewrite Pos.iter_succ, Pos2Z.inj_succ, Z.pow_succ_r by lia.
    rewrite Pos2Z.inj_xO, IH; lia.
Qed.

Lemma shl_align_spec (mx : positive) (ex ez : Z) :
  let r := shl_align mx ex ez in
  snd r <= ex /\ snd r <= Z.max ez (Z.min ex ez) /\ (ez <= ex -> snd r = ez)
  /\ (ex <= ez -> snd r = ex)
  /\ Zpos (fst r) = Zpos mx * 2 ^ (ex - snd r).
Proof.
  unfold shl_align; destruct (ez - ex) as [|p|p] eqn:E; cbn [fst snd].
  - rewrite Z.sub_diag; repeat split; try lia.
  - rewrite Z.sub_diag; repeat split; try lia.
  - rewrite iter_xO.
    replace (ex - ez) with (Zpos p) by lia.
    repeat split; try lia.
Qed.

Lemma IZR_shift (m : positive) (a b : Z) :
  b <= a -> (IZR (Zpos m * 2 ^ (a - b)) * bpow b = IZR (Zpos m) * bpow a)%R.
Proof.
  intros H; rewrite mult_IZR, <- bpow_Z by lia.
  replace a with (a - b + b) at 2 by lia.
  rewrite bpow_add; ring.
Qed.

Lemma binary_round_rnd (sx : bool) (mx : positive) (ex : Z) :
  rnd_pos (IZR (Zpos mx) * bpow ex) sx
          (binary_round B32.prec B32.emax sx mx ex).
Proof.
  unfold binary_round.
  pose proof (shl_align_spec mx ex
                (fexp B32.prec B32.emax (Zpos (digits2_pos mx) + ex))) as H.
  cbv zeta in H.
  destruct (shl_align mx ex _) as [mz ez]; cbn [fst snd] in H.
  destruct H as (H1 & H2 & H3 & H4 & H5).
  assert (E : (IZR (Zpos mz) * bpow ez = IZR (Zpos mx) * bpow ex)%R).
  { rewrite H5; apply IZR_shift; exact H1. }
  rewrite <- E.
  assert (Hmag : Zpos (digits2_pos mz) + ez = Zpos (digits2_pos mx) + ex).
  { apply (in_binade_unique (IZR (Zpos mz) * bpow ez)).
    - apply in_binade_scale, in_binade_pos.
    - rewrite E; apply in_binade_scale, in_binade_pos. }
  apply (binary_round_aux_rnd _ _ _ _ _ (Zpos (digits2_pos mz) + ez)).
  - lia.
  - apply located_exact.
  - apply in_binade_scale, in_binade_pos.
  - reflexivity.
  - rewrite Hmag.
    change (fexp B32.prec B32.emax ?x) with (fexp32 x) in *.
    destruct (Z_le_gt_dec (fexp32 (Zpos (digits2_pos mx) + ex)) ex).
    + rewrite H3 by assumption; lia.
    + rewrite H4 by lia; lia.
Qed.

Lemma binary_normalize_rnd (m e : Z) :
  rnd (IZR m * bpow e) (binary_normalize B32.prec B32.emax m e false).
Proof.
  destruct m as [|p|p]; cbn [binary_normalize].
  - left; split; [ring|now exists false].
  - right; left; split; [apply mant_pos|apply binary_round_rnd].
  - right; right; split.
    + pose proof (mant_pos p e).
      change (Zneg p) with (- Zpos p); rewrite opp_IZR; lra.
    + change (Zneg p) with (- Zpos p); rewrite opp_IZR.
      replace (- (- IZR (Zpos p) * bpow e))%R with (IZR (Zpos p) * bpow e)%R
        by ring.
      apply binary_round_rnd.
Qed.

Lemma cond_Zopp_R (s : bool) (m : positive) (a b : Z) :
  b <= a ->
  (IZR (cond_Zopp s (Zpos m * 2 ^ (a - b))) * bpow b
   = B2R (S754_finite s m a))%R.
Proof.
  intros H; rewrite B2R_finite; destruct s; cbn [cond_Zopp].
  - rewrite opp_IZR, <- (IZR_shift m a b H); ring.
  - apply IZR_shift; exact H.
Qed.

Lemma align_le (mx : positive) (ex ez : Z) :
  ez <= ex -> Zpos (fst (shl_align mx ex ez)) = Zpos mx * 2 ^ (ex - ez).
Proof.
  intros Hle.
  pose proof (shl_align_spec mx ex ez) as H; cbv zeta in H.
  destruct H as (_ & _ & H3 & _ & H5).
  rewrite H3 in H5 by lia; exact H5.
Qed.

(** The sum and the difference are the roundings of the real ones. *)
Lemma fadd_rnd (x y : B32.t) :
  B32.is_finite x = true -> B32.is_finite y = true ->
  B32.valid x = true -> B32.valid y = true ->
  rnd (B2R x + B2R y) (B32.fadd x y).
Proof.
  destruct x as [sx|sx| |sx mx ex], y as [sy|sy| |sy my ey];
    try discriminate; intros _ _ Vx Vy.
  - left; split; [simpl; ring|].
    destruct sx, sy; simpl; eexists; reflexivity.
  - replace (B2R (S754_zero sx) + B2R (S754_finite sy my ey))%R
      with (B2R (S754_finite sy my ey)) by (simpl; ring).
    now apply rnd_self.
  - replace (B2R (S754_finite sx mx ex) + B2R (S754_zero sy))%R
      with (B2R (S754_finite sx mx ex)) by (simpl; ring).
    now apply rnd_self.
  - unfold B32.fadd, SFadd.
    rewrite !align_le by lia.
    rewrite <- (cond_Zopp_R sx mx ex (Z.min ex ey)) by lia.
    rewrite <- (cond_Zopp_R sy my ey (Z.min ex ey)) by lia.
    rewrite <- Rmult_plus_distr_r, <- plus_IZR.
    apply binary_normalize_rnd.
Qed.

Lemma fsub_rnd (x y : B32.t) :
  B32.is_finite x = true -> B32.is_finite y = true ->
  B32.valid x = true -> B32.valid y = true ->
  rnd (B2R x - B2R y) (B32.fsub x y).
Proof.
  destruct x as [sx|sx| |sx mx ex], y as [sy|sy| |sy my ey];
    try discriminate; intros _ _ Vx Vy.
  - left; split; [simpl; ring|].
    destruct sx, sy; simpl; eexists; reflexivity.
  - replace (B2R (S754_zero sx) - B2R (S754_finite sy my ey))%R
      with (B2R (S754_finite (negb sy) my ey))
      by (simpl; destruct sy; simpl; ring).
    apply rnd_self; [reflexivity|exact Vy].
  - replace (B2R (S754_finite sx mx ex) - B2R (S754_zero sy))%R
      with (B2R (S754_finite sx mx ex)) by (simpl; ring).
    now apply rnd_self.
  - unfold B32.fsub, SFsub.
    rewrite !align_le by lia.
    rewrite <- (cond_Zopp_R sx mx ex (Z.min ex ey)) by lia.
    rewrite <- (cond_Zopp_R sy my ey (Z.min ex ey)) by lia.
    rewrite <- Rmult_minus_distr_r, <- minus_IZR.
    apply binary_normalize_rnd.
Qed.

(** *** Division *)

Lemma frac_cmp (k nb : Z) :
  0 < nb ->
  (2 * k < nb -> (IZR k / IZR nb < 1 / 2)%R)
  /\ (2 * k = nb -> (IZR k / IZR nb = 1 / 2)%R)
  /\ (2 * k > nb -> (1 / 2 < IZR k / IZR nb)%R)
  /\ (0 < k -> (0 < IZR k / IZR nb)%R)
  /\ (k < nb -> (IZR k / IZR nb < 1)%R).
Proof.
  intros Hnb.
  assert (Hn : (0 < IZR nb)%R) by (apply IZR_lt; lia).
  pose proof (Rinv_0_lt_compat _ Hn) as Hi.
  assert (E : (IZR nb * / IZR nb = 1)%R) by (apply Rinv_r; lra).
  unfold Rdiv; repeat split; intros H.
  - apply IZR_lt in H; rewrite mult_IZR in H. nra.
  - apply (f_equal IZR) in H; rewrite mult_IZR in H. nra.
  - apply Z.gt_lt, IZR_lt in H; rewrite mult_IZR in H. nra.
  - apply IZR_lt in H; nra.
  - apply IZR_lt in H; nra.
Qed.

Lemma new_location_0 (nb : Z) : new_location nb 0 = loc_Exact.
Proof.
  unfold new_location, new_location_even, new_location_odd.
  destruct (Z.even nb); reflexivity.
Qed.

Lemma new_location_nz (nb k : Z) :
  k <> 0 ->
  new_location nb k
  = if Z.even nb then loc_Inexact (2 * k ?= nb)
    else loc_Inexact match 2 * k + 1 ?= nb with
                     | Gt => Gt
                     | _ => Lt
                     end.
Proof.
  intros Hk; unfold new_location, new_location_even, new_location_odd.
  destruct k; [congruence| |]; destruct (Z.even nb); reflexivity.
Qed.

Lemma new_location_located (nb k q : Z) :
  0 < nb -> 0 <= k < nb ->
  located (IZR q + IZR k / IZR nb)
          (shr_record_of_loc q (new_location nb k)).
Proof.
  intros Hnb Hk.
  destruct (frac_cmp k nb Hnb) as (C1 & C2 & C3 & C4 & C5).
  destruct (Z.eq_dec k 0) as [E0|Hk0].
  - subst k; rewrite new_location_0; unfold located;
      cbn [shr_record_of_loc shr_m shr_r shr_s]; unfold Rdiv; lra.
  - rewrite new_location_nz by exact Hk0.
    destruct (Z.even nb) eqn:Ev.
    + destruct (Z.compare_spec (2 * k) nb) as [E|E|E];
        unfold located; cbn [shr_record_of_loc shr_m shr_r shr_s].
      * rewrite (C2 E); reflexivity.
      * specialize (C1 E); specialize (C4 ltac:(lia)); lra.
      * specialize (C3 ltac:(lia)); specialize (C5 ltac:(lia)); lra.
    + assert (Hodd : 2 * k <> nb).
      { intros E; rewrite <- E, Z.even_mul in Ev; discriminate. }
      destruct (Z.compare_spec (2 * k + 1) nb) as [E|E|E];
        unfold located; cbn [shr_record_of_loc shr_m shr_r shr_s].
      * specialize (C1 ltac:(lia)); specialize (C4 ltac:(lia)); lra.
      * specialize (C1 ltac:(lia)); specialize (C4 ltac:(lia)); lra.
      * specialize (C3 ltac:(lia)); specialize (C5 ltac:(lia)); lra.
Qed.

Lemma bpow_lt_inv (a b : Z) : (bpow a < bpow b)%R -> a < b.
Proof.
  intros H; destruct (Z_lt_le_dec a b) as [|Hle]; [assumption|].
  pose proof (bpow_le b a Hle); lra.
Qed.

Lemma fdiv_rnd_pos (sx sy : bool) (mx my : positive) (ex ey : Z) :
  rnd_pos (IZR (Zpos mx) * bpow ex / (IZR (Zpos my) * bpow ey))
          (xorb sx sy)
          (B32.fdiv (S754_finite sx mx ex) (S754_finite sy my ey)).
Proof.
  unfold B32.fdiv, SFdiv, SFdiv_core_binary.
  cbn [Zdigits2].
  set (d1 := Zpos (digits2_pos mx)); set (d2 := Zpos (digits2_pos my)).
  change (fexp B32.prec B32.emax ?x) with (fexp32 x).
  set (e' := Z.min (fexp32 (d1 + ex - (d2 + ey))) (ex - ey)).
  set (s := ex - ey - e').
  assert (Hs : 0 <= s) by (unfold s, e'; lia).
  set (m' := match s with
             | 0 => Zpos mx
             | Zpos _ => Z.shiftl (Zpos mx) s
             | Zneg _ => 0
             end).
  assert (Hm' : m' = Zpos mx * 2 ^ s).
  { unfold m'; generalize s Hs; intros [|p|p] Hp; try lia.
    apply Z.shiftl_mul_pow2; lia. }
  clearbody m'.
  pose proof (Z_div_mod m' (Zpos my) ltac:(lia)) as Hdiv.
  destruct (Z.div_eucl m' (Zpos my)) as [q r].
  destruct Hdiv as (Hq & Hr).
  assert (Hm0 : 0 <= m').
  { rewrite Hm'; apply Z.mul_nonneg_nonneg; [lia|apply Z.pow_nonneg; lia]. }
  assert (Hq0 : 0 <= q).
  { destruct (Z_lt_le_dec q 0) as [Hneg|]; [exfalso|assumption].
    assert (Zpos my * q <= - Zpos my) by nia.
    lia. }
  pose proof (mant_pos mx ex) as Px; pose proof (mant_pos my ey) as Py.
  assert (PIy : (0 < IZR (Zpos my))%R) by (apply IZR_lt; lia).
  set (V := (IZR (Zpos mx) * bpow ex / (IZR (Zpos my) * bpow ey))%R).
  assert (PV : (0 < V)%R).
  { unfold V, Rdiv; apply Rmult_lt_0_compat;
      [exact Px|now apply Rinv_0_lt_compat]. }
  set (y := (IZR q + IZR r / IZR (Zpos my))%R).
  assert (EV : (y * bpow e' = V)%R).
  { unfold y, V.
    replace (IZR q + IZR r / IZR (Zpos my))%R
      with (IZR m' / IZR (Zpos my))%R
      by (rewrite Hq, plus_IZR, mult_IZR; field; lra).
    rewrite Hm', mult_IZR, <- bpow_Z by exact Hs.
    assert (Eb : bpow ex = (bpow s * bpow e' * bpow ey)%R).
    { rewrite <- !bpow_add; f_equal; unfold s; lia. }
    rewrite Eb.
    pose proof (bpow_pos ey); field; split; lra. }
  destruct (binade_exists V PV) as (mag & Hmag).
  rewrite <- EV.
  assert (HD : d1 + ex - (d2 + ey) <= mag).
  { destruct Hmag as (_ & Hhi).
    destruct (in_binade_scale _ _ ex (in_binade_pos mx)) as (Lx & _).
    destruct (in_binade_scale _ _ ey (in_binade_pos my)) as (_ & Uy).
    fold d1 in Lx; fold d2 in Uy.
    assert (Hlt : (bpow (d1 + ex - (d2 + ey) - 1) < V)%R).
    { replace (d1 + ex - (d2 + ey) - 1) with (d1 + ex - 1 - (d2 + ey))
        by lia.
      rewrite bpow_sub; unfold V.
      pose proof (bpow_pos (d2 + ey)); pose proof (bpow_pos (d1 + ex - 1)).
      apply (Rlt_le_trans _ (bpow (d1 + ex - 1) / (IZR (Zpos my) * bpow ey))).
      - unfold Rdiv; apply Rmult_lt_compat_l; [assumption|].
        apply Rinv_lt_contravar; [|exact Uy].
        apply Rmult_lt_0_compat; lra.
      - now apply div_le_div. }
    pose proof (bpow_lt_inv _ _ (Rlt_trans _ _ _ Hlt Hhi)); lia. }
  apply (binary_round_aux_rnd _ _ _ _ _ mag).
  - exact Hq0.
  - apply new_location_located; lia.
  - rewrite EV; exact Hmag.
  - destruct q as [|p|p]; [| |lia].
    + cbn [Zdigits2].
      assert (Hy1 : (y < 1)%R).
      { unfold y.
        destruct (frac_cmp r (Zpos my) ltac:(lia)) as (_ & _ & _ & _ & C5).
        specialize (C5 ltac:(lia)); simpl; lra. }
      assert (Hme : mag <= e').
      { destruct Hmag as (Hlo & _); rewrite <- EV in Hlo.
        pose proof (bpow_pos e').
        assert ((bpow (mag - 1) < bpow e')%R) by nra.
        pose proof (bpow_lt_inv _ _ H0); lia. }
      rewrite !fexp32_eq in *; unfold e' in *; rewrite !fexp32_eq in *; lia.
    + cbn [Zdigits2]; f_equal.
      apply (in_binade_unique (y * bpow e')); [|rewrite EV; exact Hmag].
      apply in_binade_scale.
      destruct (in_binade_pos p) as (Lp & Up).
      destruct (digits2_pos_bounds p) as (_ & Up').
      unfold in_binade, y.
      destruct (frac_cmp r (Zpos my) ltac:(lia)) as (_ & _ & _ & _ & C5).
      specialize (C5 ltac:(lia)).
      assert (0 <= IZR r / IZR (Zpos my))%R.
      { apply Rmult_le_pos; [apply IZR_le; lia|].
        left; now apply Rinv_0_lt_compat. }
      split; [lra|].
      rewrite bpow_Z by lia.
      apply (Rlt_le_trans _ (IZR (Zpos p) + 1)); [lra|].
      rewrite <- plus_IZR; apply IZR_le; lia.
  - rewrite !fexp32_eq in *; unfold e'; rewrite !fexp32_eq; lia.
Qed.

Lemma fdiv_rnd (x y : B32.t) :
  B32.is_finite x = true -> B32.is_finite y = true ->
  B2R y <> 0%R ->
  rnd (B2R x / B2R y) (B32.fdiv x y).
Proof.
  destruct x as [sx|sx| |sx mx ex], y as [sy|sy| |sy my ey];
    try discriminate; intros _ _ Hy.
  - exfalso; apply Hy; reflexivity.
  - left; split; [simpl; unfold Rdiv; ring|now exists (xorb sx sy)].
  - exfalso; apply Hy; reflexivity.
  - pose proof (fdiv_rnd_pos sx sy mx my ex ey) as H.
    pose proof (mant_pos mx ex) as Px; pose proof (mant_pos my ey) as Py.
    set (a := (IZR (Zpos mx) * bpow ex)%R) in *.
    set (b := (IZR (Zpos my) * bpow ey)%R) in *.
    assert (Pq : (0 < a / b)%R).
    { unfold Rdiv; apply Rmult_lt_0_compat;
        [exact Px|now apply Rinv_0_lt_compat]. }
    rewrite !B2R_finite; fold a b.
    destruct sx, sy; cbn [xorb] in H.
    + right; left.
      replace (- a / - b)%R with (a / b)%R by (field; lra).
      split; assumption.
    + right; right.
      replace (- (- a / b))%R with (a / b)%R by (field; lra).
      split; [|assumption].
      replace (- a / b)%R with (- (a / b))%R by (field; lra); lra.
    + right; right.
      replace (- (a / - b))%R with (a / b)%R by (field; lra).
      split; [|assumption].
      replace (a / - b)%R with (- (a / b))%R by (field; lra); lra.
    + right; left; split; assumption.
Qed.

(** ** The operations keep the order *)

Section RoundedOrder.

Import B32.

Lemma B2R_nonzero (s : bool) (m : positive) (e : Z) :
  B2R (S754_finite s m e) <> 0%R.
Proof.
  pose proof (mant_pos m e); rewrite B2R_finite; destruct s; lra.
Qed.

(** The results of the four operations are canonical. *)
Lemma fmul_valid (x y : t) :
  valid x = true -> valid y = true -> valid (fmul x y) = true.
Proof.
  intros Vx Vy.
  destruct (is_finite x) eqn:Fx, (is_finite y) eqn:Fy;
    [apply (rnd_valid _ _ (fmul_rnd x y Fx Fy Vx Vy))|..];
    destruct x as [[]|[]| |[] ? ?], y as [[]|[]| |[] ? ?];
    try discriminate; reflexivity.
Qed.

Lemma fadd_valid (x y : t) :
  valid x = true -> valid y = true -> valid (fadd x y) = true.
Proof.
  intros Vx Vy.
  destruct (is_finite x) eqn:Fx, (is_finite y) eqn:Fy;
    [apply (rnd_valid _ _ (fadd_rnd x y Fx Fy Vx Vy))|..];
    destruct x as [[]|[]| |[] ? ?], y as [[]|[]| |[] ? ?];
    try discriminate; reflexivity.
Qed.

Lemma fsub_valid (x y : t) :
  valid x = true -> valid y = true -> valid (fsub x y) = true.
Proof.
  intros Vx Vy.
  destruct (is_finite x) eqn:Fx, (is_finite y) eqn:Fy;
    [apply (rnd_valid _ _ (fsub_rnd x y Fx Fy Vx Vy))|..];
    destruct x as [[]|[]| |[] ? ?], y as [[]|[]| |[] ? ?];
    try discriminate; reflexivity.
Qed.

Lemma fdiv_valid (x y : t) : valid (fdiv x y) = true.
Proof.
  destruct x as [sx|sx| |sx mx ex], y as [sy|sy| |sy my ey];
    try reflexivity.
  apply (rnd_valid (B2R (S754_finite sx mx ex) / B2R (S754_finite sy my ey))).
  apply fdiv_rnd; [reflexivity|reflexivity|apply B2R_nonzero].
Qed.

(** The two infinities bound every number. *)
Lemma fle_ninf (x : t) : is_nan x = false -> fle (S754_infinity true) x = true.
Proof. destruct x as [[]|[]| |[] ? ?]; try discriminate; reflexivity. Qed.

Lemma fle_pinf (x : t) : is_nan x = false -> fle x (S754_infinity false) = true.
Proof. destruct x as [[]|[]| |[] ? ?]; try discriminate; reflexivity. Qed.

Lemma fle_pinf_inv (x : t) :
  fle (S754_infinity false) x = true -> x = S754_infinity false.
Proof. destruct x as [[]|[]| |[] ? ?]; try discriminate; reflexivity. Qed.

Lemma fle_ninf_inv (x : t) :
  fle x (S754_infinity true) = true -> x = S754_infinity true.
Proof. destruct x as [[]|[]| |[] ? ?]; try discriminate; reflexivity. Qed.

Lemma fle_refl_nn (x : t) : is_nan x = false -> fle x x = true.
Proof. exact (B32Order.fle_refl x). Qed.

Lemma fle_nn (x y : t) :
  fle x y = true -> is_nan x = false /\ is_nan y = false.
Proof. exact (B32Order.fle_not_nan x y). Qed.

(** A number is finite or one of the two infinities. *)
Lemma nn_cases (x : t) :
  is_nan x = false ->
  is_finite x = true \/ x = S754_infinity true \/ x = S754_infinity false.
Proof.
  destruct x as [s|[]| |s m e]; try discriminate; intros _; auto.
Qed.

Lemma B2R_zero_le (c : t) :
  is_finite c = true -> valid c = true ->
  fle (S754_zero false) c = true -> (0 <= B2R c)%R.
Proof.
  intros Fc Vc H.
  exact (fle_B2R (S754_zero false) c eq_refl Fc eq_refl Vc H).
Qed.

Lemma B2R_zero_lt (c : t) :
  is_finite c = true ->
  flt (S754_zero false) c = true -> (0 < B2R c)%R.
Proof.
  destruct c as [[]|[]| |[] m e]; try discriminate; intros _ _.
  rewrite B2R_finite; apply mant_pos.
Qed.

Lemma B2R_le_zero (c : t) :
  is_finite c = true -> valid c = true ->
  fle c (S754_zero false) = true -> (B2R c <= 0)%R.
Proof.
  intros Fc Vc H.
  exact (fle_B2R c (S754_zero false) Fc eq_refl Vc eq_refl H).
Qed.

(** The four operations are monotone on finite arguments. *)
Section FiniteMono.

Variables a a' b b' : t.
Hypothesis Fa : is_finite a = true.
Hypothesis Fa' : is_finite a' = true.
Hypothesis Fb : is_finite b = true.
Hypothesis Fb' : is_finite b' = true.
Hypothesis Va : valid a = true.
Hypothesis Va' : valid a' = true.
Hypothesis Vb : valid b = true.
Hypothesis Vb' : valid b' = true.

Lemma fadd_mono_fin :
  fle a a' = true -> fle b b' = true -> fle (fadd a b) (fadd a' b') = true.
Proof.
  intros Ha Hb.
  pose proof (fle_B2R _ _ Fa Fa' Va Va' Ha).
  pose proof (fle_B2R _ _ Fb Fb' Vb Vb' Hb).
  apply (rnd_mono (B2R a + B2R b) (B2R a' + B2R b'));
    [lra|now apply fadd_rnd..].
Qed.

Lemma fsub_mono_fin :
  fle a a' = true -> fle b' b = true -> fle (fsub a b) (fsub a' b') = true.
Proof.
  intros Ha Hb.
  pose proof (fle_B2R _ _ Fa Fa' Va Va' Ha).
  pose proof (fle_B2R _ _ Fb' Fb Vb' Vb Hb).
  apply (rnd_mono (B2R a - B2R b) (B2R a' - B2R b'));
    [lra|now apply fsub_rnd..].
Qed.

(** [b] is the fixed factor. *)
Lemma fmul_mono_fin_pos :
  fle (S754_zero false) b = true -> fle a a' = true ->
  fle (fmul a b) (fmul a' b) = true.
Proof.
  intros Hb Ha.
  pose proof (fle_B2R _ _ Fa Fa' Va Va' Ha).
  pose proof (B2R_zero_le b Fb Vb Hb).
  apply (rnd_mono (B2R a * B2R b) (B2R a' * B2R b));
    [nra|now apply fmul_rnd..].
Qed.

Lemma fmul_mono_fin_neg :
  fle b (S754_zero false) = true -> fle a a' = true ->
  fle (fmul a' b) (fmul a b) = true.
Proof.
  intros Hb Ha.
  pose proof (fle_B2R _ _ Fa Fa' Va Va' Ha).
  pose proof (B2R_le_zero b Fb Vb Hb).
  apply (rnd_mono (B2R a' * B2R b) (B2R a * B2R b));
    [nra|now apply fmul_rnd..].
Qed.

Lemma fdiv_mono_fin :
  flt (S754_zero false) b = true -> fle a a' = true ->
  fle (fdiv a b) (fdiv a' b) = true.
Proof.
  intros Hb Ha.
  pose proof (fle_B2R _ _ Fa Fa' Va Va' Ha).
  pose proof (B2R_zero_lt b Fb Hb).
  apply (rnd_mono (B2R a / B2R b) (B2R a' / B2R b));
    [now apply div_le_div|apply fdiv_rnd; auto; lra..].
Qed.

End FiniteMono.

Lemma fmul_comm (x y : t) : fmul x y = fmul y x.
Proof.
  destruct x as [sx|sx| |sx mx ex], y as [sy|sy| |sy my ey];
    try reflexivity; unfold fmul, SFmul;
    rewrite ?(xorb_comm sx sy); try reflexivity.
  now rewrite (Pos.mul_comm mx my), (Z.add_comm ex ey).
Qed.

Lemma rnd_fin_not_nan (v : R) (r : t) : rnd v r -> is_nan r = false.
Proof. apply rnd_not_nan. Qed.

Lemma pos_finite_cases (c : t) :
  is_finite c = true -> flt (S754_zero false) c = true ->
  exists m e, c = S754_finite false m e.
Proof.
  destruct c as [[]|[]| |[] m e]; try discriminate; intros _ _.
  now exists m, e.
Qed.

(** Division by a positive finite constant. *)
Lemma fdiv_pos_nn (a c : t) :
  is_finite c = true -> flt (S754_zero false) c = true ->
  is_nan a = false -> is_nan (fdiv a c) = false.
Proof.
  intros Fc Pc Ha; destruct (pos_finite_cases c Fc Pc) as (m & e & ->).
  destruct a as [sa|sa| |sa ma ea]; try discriminate; try reflexivity.
  apply (rnd_not_nan (B2R (S754_finite sa ma ea)
                      / B2R (S754_finite false m e))).
  apply fdiv_rnd; [reflexivity|reflexivity|apply B2R_nonzero].
Qed.

Lemma fdiv_mono (a a' c : t) :
  valid a = true -> valid a' = true -> valid c = true ->
  is_finite c = true -> flt (S754_zero false) c = true ->
  fle a a' = true -> fle (fdiv a c) (fdiv a' c) = true.
Proof.
  intros Va Va' Vc Fc Pc H.
  destruct (fle_nn _ _ H) as (Na & Na').
  pose proof (fdiv_pos_nn a c Fc Pc Na) as Ra.
  pose proof (fdiv_pos_nn a' c Fc Pc Na') as Ra'.
  destruct (nn_cases a Na) as [Fa|[->| ->]];
    destruct (nn_cases a' Na') as [Fa'|[->| ->]].
  - now apply fdiv_mono_fin.
  - destruct a as [[]|[]| |[] ? ?]; discriminate.
  - destruct (pos_finite_cases c Fc Pc) as (m & e & ->).
    apply fle_pinf; exact Ra.
  - destruct (pos_finite_cases c Fc Pc) as (m & e & ->).
    apply fle_ninf; exact Ra'.
  - apply fle_refl_nn; exact Ra.
  - destruct (pos_finite_cases c Fc Pc) as (m & e & ->); reflexivity.
  - destruct a' as [[]|[]| |[] ? ?]; discriminate.
  - discriminate.
  - apply fle_refl_nn; exact Ra.
Qed.

(** Multiplication by a positive finite constant. *)
Lemma fmul_pos_nn (c a : t) :
  is_finite c = true -> flt (S754_zero false) c = true ->
  valid c = true -> valid a = true ->
  is_nan a = false -> is_nan (fmul c a) = false.
Proof.
  intros Fc Pc Vc Va Ha; destruct (pos_finite_cases c Fc Pc) as (m & e & ->).
  destruct a as [sa|sa| |sa ma ea]; try discriminate; try reflexivity.
  apply (rnd_not_nan _ _ (fmul_rnd (S754_finite false m e)
                            (S754_finite sa ma ea) eq_refl eq_refl Vc Va)).
Qed.

Lemma fmul_mono (c a a' : t) :
  valid a = true -> valid a' = true -> valid c = true ->
  is_finite c = true -> flt (S754_zero false) c = true ->
  fle a a' = true -> fle (fmul c a) (fmul c a') = true.
Proof.
  intros Va Va' Vc Fc Pc H.
  destruct (fle_nn _ _ H) as (Na & Na').
  pose proof (fmul_pos_nn c a Fc Pc Vc Va Na) as Ra.
  pose proof (fmul_pos_nn c a' Fc Pc Vc Va' Na') as Ra'.
  assert (Zc : fle (S754_zero false) c = true).
  { destruct (pos_finite_cases c Fc Pc) as (m & e & ->); reflexivity. }
  destruct (nn_cases a Na) as [Fa|[->| ->]];
    destruct (nn_cases a' Na') as [Fa'|[->| ->]].
  - rewrite (fmul_comm c a), (fmul_comm c a').
    now apply fmul_mono_fin_pos.
  - destruct a as [[]|[]| |[] ? ?]; discriminate.
  - destruct (pos_finite_cases c Fc Pc) as (m & e & ->).
    apply fle_pinf; exact Ra.
  - destruct (pos_finite_cases c Fc Pc) as (m & e & ->).
    apply fle_ninf; exact Ra'.
  - apply fle_refl_nn; exact Ra.
  - destruct (pos_finite_cases c Fc Pc) as (m & e & ->); reflexivity.
  - destruct a' as [[]|[]| |[] ? ?]; discriminate.
  - discriminate.
  - apply fle_refl_nn; exact Ra.
Qed.

(** Subtraction from a finite constant. *)
Lemma fsub_fin_nn (c a : t) :
  is_finite c = true -> valid c = true -> valid a = true ->
  is_nan a = false -> is_nan (fsub c a) = false.
Proof.
  intros Fc Vc Va Ha.
  destruct (nn_cases a Ha) as [Fa|[->| ->]].
  - apply (rnd_not_nan _ _ (fsub_rnd _ _ Fc Fa Vc Va)).
  - destruct c as [[]|[]| |[] ? ?]; try discriminate; reflexivity.
  - destruct c as [[]|[]| |[] ? ?]; try discriminate; reflexivity.
Qed.

Lemma fsub_anti (c a a' : t) :
  valid a = true -> valid a' = true -> valid c = true ->
  is_finite c = true ->
  fle a a' = true -> fle (fsub c a') (fsub c a) = true.
Proof.
  intros Va Va' Vc Fc H.
  destruct (fle_nn _ _ H) as (Na & Na').
  pose proof (fsub_fin_nn c a Fc Vc Va Na) as Ra.
  pose proof (fsub_fin_nn c a' Fc Vc Va' Na') as Ra'.
  destruct (nn_cases a Na) as [Fa|[->| ->]];
    destruct (nn_cases a' Na') as [Fa'|[->| ->]].
  - apply fsub_mono_fin; auto.
    now apply fle_refl_nn; destruct c; try discriminate.
  - destruct a as [[]|[]| |[] ? ?]; discriminate.
  - replace (fsub c (S754_infinity false)) with (S754_infinity true)
      by (destruct c as [[]|[]| |[] ? ?]; try discriminate; reflexivity).
    apply fle_ninf; exact Ra.
  - replace (fsub c (S754_infinity true)) with (S754_infinity false)
      by (destruct c as [[]|[]| |[] ? ?]; try discriminate; reflexivity).
    apply fle_pinf; exact Ra'.
  - apply fle_refl_nn; exact Ra.
  - destruct c as [[]|[]| |[] ? ?]; try discriminate; reflexivity.
  - destruct a' as [[]|[]| |[] ? ?]; discriminate.
  - discriminate.
  - apply fle_refl_nn; exact Ra.
Qed.

(** The order is transitive. *)
Lemma fle_trans (a b c : t) :
  fle a b = true -> fle b c = true -> fle a c = true.
Proof. B32Facts.by_cases. Qed.

Lemma flt_fle (a b : t) : flt a b = true -> fle a b = true.
Proof. B32Facts.by_cases. Qed.

(** [std::clamp] is monotone. *)
Lemma clamp_mono (x y lo hi : t) :
  fle lo hi = true -> fle x y = true ->
  fle (@clamp F32 x lo hi) (@clamp F32 y lo hi) = true.
Proof.
  intros Hb H; unfold clamp.
  change (@ltb F32) with flt.
  destruct (fle_nn _ _ Hb) as (Nlo & Nhi).
  destruct (fle_nn _ _ H) as (Nx & Ny).
  destruct (flt x lo) eqn:E1, (flt y lo) eqn:E2.
  - now apply fle_refl_nn.
  - destruct (flt hi y) eqn:E3; [exact Hb|].
    now apply B32Facts.not_flt_fle.
  - exfalso.
    pose proof (B32Facts.fle_flt_trans _ _ _ H E2) as G.
    rewrite G in E1; discriminate.
  - destruct (flt hi x) eqn:E3, (flt hi y) eqn:E4.
    + now apply fle_refl_nn.
    + exfalso.
      pose proof (B32Facts.flt_fle_trans _ _ _ E3 H) as G.
      rewrite G in E4; discriminate.
    + now apply B32Facts.not_flt_fle.
    + exact H.
Qed.

(** A number between two finite numbers is finite. *)
Lemma between_finite (lo x hi : t) :
  is_finite lo = true -> is_finite hi = true ->
  fle lo x = true -> fle x hi = true -> is_finite x = true.
Proof.
  destruct lo as [[]|[]| |[] ? ?], hi as [[]|[]| |[] ? ?],
    x as [[]|[]| |[] ? ?]; try discriminate; reflexivity.
Qed.

(** The conversion of an [int]. *)
Lemma of_Z_rnd (n : Z) : rnd (IZR n) (of_Z n).
Proof.
  pose proof (binary_normalize_rnd n 0) as H.
  rewrite bpow_0, Rmult_1_r in H; exact H.
Qed.

Lemma of_Z_mono (n m : Z) : n <= m -> fle (of_Z n) (of_Z m) = true.
Proof.
  intros H; apply (rnd_mono (IZR n) (IZR m)); [now apply IZR_le|apply of_Z_rnd..].
Qed.

Lemma of_Z_valid (n : Z) : valid (of_Z n) = true.
Proof. apply (rnd_valid _ _ (of_Z_rnd n)). Qed.

Lemma of_int_nonneg (n : Z) :
  0 <= n < 2 ^ 31 ->
  valid (of_Z n) = true /\ is_finite (of_Z n) = true
  /\ fle (S754_zero false) (of_Z n) = true.
Proof.
  intros Hn; split; [apply of_Z_valid|].
  pose proof (of_Z_mono 0 n ltac:(lia)) as H0.
  pose proof (of_Z_mono n (2 ^ 31) ltac:(lia)) as H1.
  split; [|exact H0].
  apply (between_finite (of_Z 0) _ (of_Z (2 ^ 31))); try assumption;
    reflexivity.
Qed.

Lemma of_int_pos (n : Z) :
  0 < n < 2 ^ 31 -> flt (S754_zero false) (of_Z n) = true.
Proof.
  intros Hn.
  pose proof (of_Z_mono 1 n ltac:(lia)) as H1.
  apply (B32Facts.flt_fle_trans _ (of_Z 1)); [reflexivity|exact H1].
Qed.

End RoundedOrder.

(** * Properties that rest on rounding *)

(** ** The adaptive compensation factor *)

Section FactorBinary32.

Import B32.
#[local] Existing Instance F32.

Variable powf : B32.t -> B32.t -> B32.t.
Variable tanhf : B32.t -> B32.t.

Let libm : Libm F32 := F32_libm powf tanhf.

Hypothesis tanhf_valid : forall x, valid x = true -> valid (tanhf x) = true.
Hypothesis tanhf_mono :
  forall a b, fle a b = true -> fle (tanhf a) (tanhf b) = true.

Lemma factor_arg_mono (s1 s2 : num) :
  valid s1 = true -> valid s2 = true -> fle s1 s2 = true ->
  fle (div (div s1 (litf 60 1)) (litf 10 1))
      (div (div s2 (litf 60 1)) (litf 10 1)) = true.
Proof.
  intros V1 V2 H.
  apply fdiv_mono; try reflexivity; try apply fdiv_valid.
  apply fdiv_mono; try reflexivity; assumption.
Qed.

Lemma unclamped_factor_anti (s1 s2 : num) :
  valid s1 = true -> valid s2 = true -> fle s1 s2 = true ->
  fle (sub (litf 5 10) (mul (litf 3 10)
             (tanhf (div (div s2 (litf 60 1)) (litf 10 1)))))
      (sub (litf 5 10) (mul (litf 3 10)
             (tanhf (div (div s1 (litf 60 1)) (litf 10 1))))) = true.
Proof.
  intros V1 V2 H.
  pose proof (factor_arg_mono s1 s2 V1 V2 H) as Ha.
  apply tanhf_mono in Ha.
  apply fsub_anti; try reflexivity;
    try (apply fmul_valid; [reflexivity|apply tanhf_valid, fdiv_valid]).
  apply fmul_mono; try reflexivity;
    try (apply tanhf_valid, fdiv_valid).
  exact Ha.
Qed.

Lemma factor_anti_f32 (s1 s2 : num) :
  valid s1 = true -> valid s2 = true -> fle s1 s2 = true ->
  fle (getAdaptiveCompensationFactor (L:=libm) s2)
      (getAdaptiveCompensationFactor (L:=libm) s1) = true.
Proof.
  intros V1 V2 H; unfold getAdaptiveCompensationFactor.
  apply clamp_mono; [reflexivity|].
  exact (unclamped_factor_anti s1 s2 V1 V2 H).
Qed.

Lemma factor_range_f32 (s : num) :
  valid s = true -> is_nan s = false ->
  fle (litf 2 10) (getAdaptiveCompensationFactor (L:=libm) s) = true
  /\ fle (getAdaptiveCompensationFactor (L:=libm) s) (litf 5 10) = true.
Proof.
  intros V N.
  pose proof (factor_anti_f32 s s V V (fle_refl_nn s N)) as H.
  apply fle_nn in H; destruct H as (H & _).
  unfold getAdaptiveCompensationFactor in *.
  set (f := sub _ _) in *.
  unfold clamp in *.
  destruct (ltb f (litf 2 10)) eqn:E1; [split; reflexivity|].
  destruct (ltb (litf 5 10) f) eqn:E2; [split; reflexivity|].
  split; apply B32Facts.not_flt_fle; try assumption; reflexivity.
Qed.

End FactorBinary32.

Lemma clip_unit_valid (x : B32.t) :
  B32.valid x = true -> B32.valid (clip_unit x) = true.
Proof.
  intros H; unfold clip_unit, clamp.
  destruct (@ltb F32 x _); [reflexivity|].
  destruct (@ltb F32 _ x); [reflexivity|exact H].
Qed.

Lemma clip_unit_mono (a b : B32.t) :
  B32.fle a b = true -> B32.fle (clip_unit a) (clip_unit b) = true.
Proof. intros H; apply clamp_mono; [reflexivity|exact H]. Qed.

(** C8. For every [listeningSeconds >= 0],
    [getAdaptiveCompensationFactor] equals
    [clamp(0.5 - 0.3*tanh(minutes/10), 0.2, 0.5)] with
    [minutes = listeningSeconds/60]; the result lies in [[0.2, 0.5]], is
    [0.5] at [0], and does not increase when the duration grows.

    In binary32 (fourth part), for every [tanhf] that returns canonical
    values and is monotone ([std::tanh] is not part of the repository) and
    for every canonical [seconds >= 0]: the result is the clamp of
    [0.5f - 0.3f * tanhf(seconds / 60.0f / 10.0f)], every operation
    rounded; it lies within [0.2f] and [0.5f], so it is not NaN; and a
    later duration gives a factor that is not larger.  Whatever [tanhf]
    returns the result is within the two limits unless it is NaN (second
    part), and it is [0.5f] at [0] when [tanhf(0) = 0] (third part).  In
    exact arithmetic with the mathematical [tanh] the four properties
    hold as well (first part). *)
Theorem C8_adaptive_compensation_factor :
  (forall seconds : R,
     (0 <= seconds)%R ->
     let factor := getAdaptiveCompensationFactor (L:=RR_libm) in
     factor seconds
     = Rmax (2 / 10)
            (Rmin (5 / 10)
                  (5 / 10 - 3 / 10 * Rtrigo_def.tanh (seconds / 60 / 10)))
     /\ (2 / 10 <= factor seconds <= 5 / 10)%R
     /\ factor 0%R = (5 / 10)%R
     /\ (forall later, (seconds <= later)%R ->
           (factor later <= factor seconds)%R))
  /\ (forall powf tanhf (seconds : B32.t),
        let r := getAdaptiveCompensationFactor (L:=F32_libm powf tanhf)
                   seconds in
        B32.is_nan r = true
        \/ (B32.fle (B32.of_dec 2 10) r = true
            /\ B32.fle r (B32.of_dec 5 10) = true))
  /\ (forall powf tanhf,
        tanhf (B32.of_Z 0) = B32.of_Z 0 ->
        getAdaptiveCompensationFactor (L:=F32_libm powf tanhf) (B32.of_Z 0)
        = B32.of_dec 5 10)
  /\ (forall powf tanhf,
        (forall x, B32.valid x = true -> B32.valid (tanhf x) = true) ->
        (forall a b, B32.fle a b = true ->
                     B32.fle (tanhf a) (tanhf b) = true) ->
        forall seconds later : B32.t,
          B32.valid seconds = true -> B32.valid later = true ->
          B32.fle (B32.of_Z 0) seconds = true ->
          B32.fle seconds later = true ->
          let factor :=
            getAdaptiveCompensationFactor (L:=F32_libm powf tanhf) in
          factor seconds
          = @clamp F32
              (B32.fsub (B32.of_dec 5 10)
                 (B32.fmul (B32.of_dec 3 10)
                    (tanhf (B32.fdiv (B32.fdiv seconds (B32.of_dec 60 1))
                                     (B32.of_dec 10 1)))))
              (B32.of_dec 2 10) (B32.of_dec 5 10)
          /\ B32.fle (B32.of_dec 2 10) (factor seconds) = true
          /\ B32.fle (factor seconds) (B32.of_dec 5 10) = true
          /\ B32.fle (factor later) (factor seconds) = true).
Proof.
  split; [|split; [|split]].
  - exact getAdaptiveCompensationFactor_real.
  - exact getAdaptiveCompensationFactor_range_f32.
  - exact getAdaptiveCompensationFactor_at_zero_f32.
  - intros powf tanhf Hv Hm s1 s2 V1 V2 P1 H; cbv zeta.
    split; [reflexivity|].
    destruct (factor_range_f32 powf tanhf Hv Hm s1 V1) as (R1 & R2).
    { now apply fle_nn in H. }
    split; [exact R1|split; [exact R2|]].
    now apply factor_anti_f32.
Qed.

Lemma C8_witness :
  ((0 <= 300)%R
   /\ (2 / 10 <= getAdaptiveCompensationFactor (L:=RR_libm) 300%R
       <= 5 / 10)%R
   /\ (getAdaptiveCompensationFactor (L:=RR_libm) 900%R
       <= getAdaptiveCompensationFactor (L:=RR_libm) 300%R)%R)
  /\ ((forall x, B32.valid x = true -> B32.valid (clip_unit x) = true)
      /\ (forall a b, B32.fle a b = true ->
                      B32.fle (clip_unit a) (clip_unit b) = true)
      /\ B32.valid (B32.of_Z 300) = true
      /\ B32.valid (B32.of_Z 900) = true
      /\ B32.fle (B32.of_Z 0) (B32.of_Z 300) = true
      /\ B32.fle (B32.of_Z 300) (B32.of_Z 900) = true
      /\ B32.fle
           (getAdaptiveCompensationFactor
              (L:=F32_libm (fun _ y => y) clip_unit) (B32.of_Z 900))
           (getAdaptiveCompensationFactor
              (L:=F32_libm (fun _ y => y) clip_unit) (B32.of_Z 300))
         = true).
Proof.
  assert (H : (0 <= 300)%R) by lra.
  destruct (proj1 C8_adaptive_compensation_factor 300%R H)
    as (_ & G1 & _ & G2).
  split; [split; [exact H|split; [exact G1|apply G2; lra]]|].
  assert (V1 : B32.valid (B32.of_Z 300) = true) by reflexivity.
  assert (V2 : B32.valid (B32.of_Z 900) = true) by reflexivity.
  assert (P1 : B32.fle (B32.of_Z 0) (B32.of_Z 300) = true) by reflexivity.
  assert (P2 : B32.fle (B32.of_Z 300) (B32.of_Z 900) = true) by reflexivity.
  split; [exact clip_unit_valid|split; [exact clip_unit_mono|]].
  split; [exact V1|split; [exact V2|split; [exact P1|split; [exact P2|]]]].
  exact (proj2 (proj2 (proj2
           (proj2 (proj2 (proj2 C8_adaptive_compensation_factor))
              (fun _ y => y) clip_unit clip_unit_valid clip_unit_mono
              (B32.of_Z 300) (B32.of_Z 900) V1 V2 P1 P2)))).
Defined.

(** ** The bins of the gain vector *)

Section RoundedBins.

Import B32.

Lemma B2R_fneg (x : t) : B2R (fneg x) = (- B2R x)%R.
Proof.
  destruct x as [s|s| |s m e]; simpl; try ring.
  destruct s; simpl; ring.
Qed.

Lemma fneg_valid (x : t) : valid (fneg x) = valid x.
Proof. destruct x; reflexivity. Qed.

Lemma fneg_finite (x : t) : is_finite (fneg x) = is_finite x.
Proof. destruct x; reflexivity. Qed.

(** The product of two bounded numbers is bounded. *)
Lemma fmul_abs_bound (x y bx b_y : t) :
  is_finite bx = true -> is_finite b_y = true ->
  valid x = true -> valid y = true -> valid bx = true -> valid b_y = true ->
  fle (fneg bx) x = true -> fle x bx = true ->
  fle (fneg b_y) y = true -> fle y b_y = true ->
  fle (fmul (fneg bx) b_y) (fmul x y) = true
  /\ fle (fmul x y) (fmul bx b_y) = true.
Proof.
  intros Fbx Fby Vx Vy Vbx Vby Hx1 Hx2 Hy1 Hy2.
  assert (Fnx : is_finite (fneg bx) = true) by now rewrite fneg_finite.
  assert (Fny : is_finite (fneg b_y) = true) by now rewrite fneg_finite.
  assert (Vnx : valid (fneg bx) = true) by now rewrite fneg_valid.
  assert (Vny : valid (fneg b_y) = true) by now rewrite fneg_valid.
  pose proof (between_finite _ _ _ Fnx Fbx Hx1 Hx2) as Fx.
  pose proof (between_finite _ _ _ Fny Fby Hy1 Hy2) as Fy.
  pose proof (fle_B2R _ _ Fnx Fx Vnx Vx Hx1) as A1.
  pose proof (fle_B2R _ _ Fx Fbx Vx Vbx Hx2) as A2.
  pose proof (fle_B2R _ _ Fny Fy Vny Vy Hy1) as A3.
  pose proof (fle_B2R _ _ Fy Fby Vy Vby Hy2) as A4.
  rewrite B2R_fneg in A1, A3.
  split.
  - apply (rnd_mono (B2R (fneg bx) * B2R b_y) (B2R x * B2R y));
      [rewrite B2R_fneg; nra|now apply fmul_rnd..].
  - apply (rnd_mono (B2R x * B2R y) (B2R bx * B2R b_y));
      [nra|now apply fmul_rnd..].
Qed.

Section BinExponent.

#[local] Existing Instance F32.

(** The frequency of a bin is canonical and not negative. *)
Lemma bin_freq_nonneg (pc : PsychoacousticCorrection) (bin : Z) :
  0 < fftSize pc < 2 ^ 31 -> 0 <= bin < 2 ^ 31 ->
  valid (sampleRate pc) = true -> is_finite (sampleRate pc) = true ->
  leb zero (sampleRate pc) = true ->
  valid (bin_freq pc bin) = true /\ leb zero (bin_freq pc bin) = true.
Proof.
  intros Hf Hb Vs Fs Ps; unfold bin_freq.
  split; [apply fdiv_valid|].
  destruct (of_int_nonneg bin Hb) as (Vb & Fb & Pb).
  destruct (of_int_nonneg (fftSize pc) ltac:(lia)) as (Vn & Fn & _).
  pose proof (of_int_pos (fftSize pc) Hf) as Pn.
  assert (Hp : fle (S754_zero false) (fmul (of_Z bin) (sampleRate pc)) = true).
  { apply (fle_trans _ (fmul (S754_zero false) (sampleRate pc))).
    - destruct (sampleRate pc) as [[]|[]| |[] ? ?]; try discriminate;
        reflexivity.
    - apply fmul_mono_fin_pos; try assumption; reflexivity. }
  change (fle (S754_zero false)
            (fdiv (fmul (of_Z bin) (sampleRate pc)) (of_Z (fftSize pc)))
          = true).
  apply (fle_trans _ (fdiv (S754_zero false) (of_Z (fftSize pc)))).
  - destruct (pos_finite_cases _ Fn Pn) as (m & e & ->); reflexivity.
  - apply fdiv_mono; try assumption; try reflexivity.
    now apply fmul_valid.
Qed.

Lemma segments_ok : forallb segment_ok (range 28) = true.
Proof. vm_compute; reflexivity. Qed.

Lemma ratio_bounds (i : Z) (freq : num) :
  0 <= i < 28 ->
  valid freq = true -> leb zero freq = true ->
  leb freq (freq_at (i + 1)) = true ->
  let r := div (sub freq (freq_at i)) (sub (freq_at (i + 1)) (freq_at i)) in
  valid r = true /\ leb (of_int (-4)) r = true /\ leb r (of_int 1) = true.
Proof.
  intros Hi Vf Pf Uf; cbv zeta.
  pose proof segments_ok as G; rewrite forallb_forall in G.
  specialize (G i ltac:(apply in_range; lia)).
  unfold segment_ok in G; cbv zeta in G.
  repeat (apply andb_prop in G; destruct G as (G & ?)).
  set (f1 := freq_at i) in *; set (f2 := freq_at (i + 1)) in *.
  assert (Ff : is_finite freq = true).
  { apply (between_finite (S754_zero false) freq f2); auto. }
  split; [apply fdiv_valid|].
  assert (Vn : valid (fsub freq f1) = true) by now apply fsub_valid.
  split.
  - apply (fle_trans _ (fdiv (fsub (S754_zero false) f1) (fsub f2 f1)));
      [assumption|].
    apply fdiv_mono; try assumption; [now apply fsub_valid|].
    apply fsub_mono_fin; try assumption; try reflexivity.
    apply fle_refl_nn; destruct f1; try discriminate; reflexivity.
  - apply (fle_trans _ (fdiv (fsub f2 f1) (fsub f2 f1))); [|assumption].
    apply fdiv_mono; try assumption.
    apply fsub_mono_fin; try assumption.
    apply fle_refl_nn; destruct f1; try discriminate; reflexivity.
Qed.

(** The exponent that is passed to [pow]. *)
Lemma exponent_bounds (g1 g2 r : num) :
  valid g1 = true -> valid g2 = true -> valid r = true ->
  leb (of_int (-100)) g1 = true -> leb g1 (of_int 100) = true ->
  leb (of_int (-100)) g2 = true -> leb g2 (of_int 100) = true ->
  leb (of_int (-4)) r = true -> leb r (of_int 1) = true ->
  let e := div (add g1 (mul r (sub g2 g1))) (litf 20 1) in
  leb (of_int (-45)) e = true /\ leb e (of_int 45) = true.
Proof.
  intros V1 V2 Vr L1 U1 L2 U2 Lr Ur; cbv zeta.
  assert (F1 : is_finite g1 = true)
    by (apply (between_finite (of_Z (-100)) g1 (of_Z 100)); auto).
  assert (F2 : is_finite g2 = true)
    by (apply (between_finite (of_Z (-100)) g2 (of_Z 100)); auto).
  (* the difference *)
  assert (Ld : fle (of_Z (-200)) (fsub g2 g1) = true).
  { apply (fle_trans _ (fsub (of_Z (-100)) (of_Z 100))); [reflexivity|].
    apply fsub_mono_fin; auto. }
  assert (Ud : fle (fsub g2 g1) (of_Z 200) = true).
  { apply (fle_trans _ (fsub (of_Z 100) (of_Z (-100)))); [|reflexivity].
    apply fsub_mono_fin; auto. }
  assert (Vd : valid (fsub g2 g1) = true) by now apply fsub_valid.
  (* the product *)
  destruct (fmul_abs_bound r (fsub g2 g1) (of_Z 4) (of_Z 200))
    as (Lp & Up); auto.
  { apply (fle_trans _ (of_Z 1)); [exact Ur|reflexivity]. }
  assert (Vp : valid (fmul r (fsub g2 g1)) = true) by now apply fmul_valid.
  assert (Fp : is_finite (fmul r (fsub g2 g1)) = true).
  { apply (between_finite (fmul (fneg (of_Z 4)) (of_Z 200)) _
             (fmul (of_Z 4) (of_Z 200))); auto. }
  (* the sum *)
  assert (Ls : fle (of_Z (-900)) (fadd g1 (fmul r (fsub g2 g1))) = true).
  { apply (fle_trans _ (fadd (of_Z (-100))
                              (fmul (fneg (of_Z 4)) (of_Z 200))));
      [reflexivity|].
    apply fadd_mono_fin; auto. }
  assert (Us : fle (fadd g1 (fmul r (fsub g2 g1))) (of_Z 900) = true).
  { apply (fle_trans _ (fadd (of_Z 100) (fmul (of_Z 4) (of_Z 200))));
      [|reflexivity].
    apply fadd_mono_fin; auto. }
  assert (Vs : valid (fadd g1 (fmul r (fsub g2 g1))) = true)
    by now apply fadd_valid.
  split.
  - apply (fle_trans _ (fdiv (of_Z (-900)) (of_dec 20 1))); [reflexivity|].
    apply fdiv_mono; auto.
  - apply (fle_trans _ (fdiv (of_Z 900) (of_dec 20 1))); [|reflexivity].
    apply fdiv_mono; auto.
Qed.

End BinExponent.

Section BinPositive.

#[local] Existing Instance F32.

Variable powf : B32.t -> B32.t -> B32.t.
Variable tanhf : B32.t -> B32.t.

Let libm : Libm F32 := F32_libm powf tanhf.

(** Where the scan of the table stops. *)
Lemma bin_idx_segment (pc : PsychoacousticCorrection) (bin : Z) :
  is_nan (bin_freq pc bin) = false ->
  let idx := bin_idx pc bin in
  0 <= idx
  /\ ((idx <? NUM_FREQUENCIES - 1) = true ->
      leb (bin_freq pc bin) (freq_at (idx + 1)) = true)
  /\ (1 <= idx -> ltb (freq_at idx) (bin_freq pc bin) = true).
Proof.
  intros Hn; cbv zeta; unfold bin_idx.
  destruct (scan_idx_exit (Z.to_nat (NUM_FREQUENCIES - 1)) 0
              (bin_freq pc bin)) as (H0 & Hexit & Hbelow);
    [lia|simpl; lia|].
  set (r := scan_idx _ 0 _) in *.
  split; [exact H0|split].
  - intros Hlt; rewrite Hlt in Hexit; cbn [andb] in Hexit.
    apply B32Facts.not_flt_fle; [|exact Hn|exact Hexit].
    apply Z.ltb_lt in Hlt; unfold NUM_FREQUENCIES in Hlt.
    destruct (freq_between_f32 (r + 1) ltac:(lia)) as (Hle & _).
    now apply fle_nn in Hle.
  - intros H1; specialize (Hbelow (r - 1) ltac:(lia)).
    now replace (r - 1 + 1) with r in Hbelow by lia.
Qed.

Lemma bin_gain_positive_f32 (pc : PsychoacousticCorrection)
    (curve : list num) (bin : Z) :
  usable_rate pc -> moderate_curve curve -> pow10_positive_on powf 45 ->
  0 <= bin < numBins_of pc ->
  ltb zero (bin_gain (L:=libm) pc curve bin) = true.
Proof.
  intros (Hf & Vs & Fs & Ps) Hc Hpow Hb.
  destruct (numBins_bounds pc ltac:(lia)) as (Hn & _).
  destruct (bin_freq_nonneg pc bin Hf ltac:(lia) Vs Fs Ps) as (Vq & Pq).
  destruct (bin_idx_segment pc bin) as (I0 & Iup & _).
  { now apply fle_nn in Pq. }
  unfold bin_gain.
  destruct (bin_idx pc bin <? NUM_FREQUENCIES - 1) eqn:E; [|reflexivity].
  specialize (Iup eq_refl).
  apply Z.ltb_lt in E; unfold NUM_FREQUENCIES in E.
  set (idx := bin_idx pc bin) in *.
  destruct (ratio_bounds idx (bin_freq pc bin) ltac:(lia) Vq Pq Iup)
    as (Vr & Lr & Ur).
  destruct (Hc idx ltac:(unfold NUM_FREQUENCIES; lia)) as (V1 & L1 & U1).
  destruct (Hc (idx + 1) ltac:(unfold NUM_FREQUENCIES; lia))
    as (V2 & L2 & U2).
  destruct (exponent_bounds _ _ _ V1 V2 Vr L1 U1 L2 U2 Lr Ur) as (Le & Ue).
  unfold interpolated_gain.
  apply (Hpow _ Le Ue).
Qed.

Lemma convertToFFTBins_positive_f32 (pc : PsychoacousticCorrection)
    (curve : list num) :
  usable_rate pc -> moderate_curve curve -> pow10_positive_on powf 45 ->
  Forall (fun g => ltb zero g = true) (convertToFFTBins (L:=libm) pc curve).
Proof.
  intros Hu Hc Hpow.
  destruct (convertToFFTBins_at (L:=libm) pc curve) as (Hlen & Hat).
  destruct (numBins_bounds pc ltac:(destruct Hu; lia)) as (Hn & _).
  apply Forall_forall; intros g Hin.
  destruct (In_nth _ g zero Hin) as (n & Hn' & <-).
  specialize (Hat (Z.of_nat n)).
  unfold at_ in Hat at 1; rewrite Nat2Z.id in Hat.
  rewrite Hat by lia.
  apply bin_gain_positive_f32; auto; lia.
Qed.

(** The curve of [-2000] dB at 48 kHz and 2048 points, bin 100. *)
Lemma minus_2000_exponent :
  bin_idx pc_48k_2048 100 = 20
  /\ interpolated_gain (L:=F32_pow_exponent) curve_minus_2000
       (bin_idx pc_48k_2048 100) (bin_freq pc_48k_2048 100)
     = of_int (-100).
Proof. split; vm_compute; reflexivity. Qed.

Lemma minus_2000_gain :
  at_ zero (convertToFFTBins (L:=libm) pc_48k_2048 curve_minus_2000) 100
  = powf (litf 10 1) (of_int (-100)).
Proof.
  destruct (convertToFFTBins_at (L:=libm) pc_48k_2048 curve_minus_2000)
    as (_ & Hat).
  rewrite Hat by (split; [discriminate|reflexivity]).
  unfold bin_gain.
  destruct minus_2000_exponent as (E1 & E2).
  rewrite E1; cbn [Z.ltb Z.compare NUM_FREQUENCIES Z.sub Z.add Z.opp Z.pos_sub Pos.compare Pos.compare_cont Pos.pred_double].
  rewrite <- E1.
  change (interpolated_gain (L:=libm) curve_minus_2000
            (bin_idx pc_48k_2048 100) (bin_freq pc_48k_2048 100))
    with (powf (litf 10 1)
            (interpolated_gain (L:=F32_pow_exponent) curve_minus_2000
               (bin_idx pc_48k_2048 100) (bin_freq pc_48k_2048 100))).
  now rewrite E2.
Qed.

End BinPositive.

(** The binary32 value nearest to [10^-100] is [+0.0f]. *)
Lemma ten_to_minus_100_rounds_to_zero :
  rnd (/ IZR (10 ^ 100)) (S754_zero false).
Proof.
  pose proof (fdiv_rnd_pos false false 1 (Z.to_pos (10 ^ 100)) 0 0) as H.
  replace (fdiv (S754_finite false 1 0)
             (S754_finite false (Z.to_pos (10 ^ 100)) 0))
    with (S754_zero false) in H by (vm_compute; reflexivity).
  rewrite bpow_0, !Rmult_1_r in H.
  rewrite Z2Pos.id in H by (vm_compute; reflexivity).
  cbn [xorb] in H.
  unfold Rdiv in H; rewrite Rmult_1_l in H.
  right; left; split; [|exact H].
  apply Rinv_0_lt_compat, IZR_lt; vm_compute; reflexivity.
Qed.

End RoundedBins.

(** C9, as it holds on the code.  For every correction curve, every
    sample rate and every positive transform size, the vector returned
    by [convertToFFTBins] has exactly [fftSize/2 + 1] entries, each the
    initial [1.0f] or a value returned by [pow(10.0f, _)]: in every
    arithmetic (first part).

    In binary32 every entry is strictly positive when the sample rate is
    finite and not negative, the transform size is a positive [int], the
    29 curve entries lie within [-100] and [100] dB, and [powf(10.0f, y)]
    is positive for every [y] within [-45] and [45]: under the first
    three conditions the ratio of the interpolation lies within [-4] and
    [1] and the exponent that the code passes to [powf] within [-45] and
    [45] (second part).  In exact arithmetic, with [10^x] for [pow],
    every entry is positive for every curve (third part). *)
Theorem C9_bins_length_and_positive :
  (forall (A : Arith) (L : Libm A) (pc : @PsychoacousticCorrection A)
          (curve : list (@num A)),
     0 < fftSize pc ->
     Z.of_nat (length (convertToFFTBins pc curve))
     = Z.quot (fftSize pc) 2 + 1
     /\ Forall (fun g => g = litf 1 1 \/ exists x, g = pow (litf 10 1) x)
               (convertToFFTBins pc curve))
  /\ (forall powf tanhf (pc : @PsychoacousticCorrection F32)
             (curve : list B32.t),
        usable_rate pc -> moderate_curve curve ->
        pow10_positive_on powf 45 ->
        Forall (fun g => B32.flt (B32.of_Z 0) g = true)
               (convertToFFTBins (L:=F32_libm powf tanhf) pc curve))
  /\ (forall (pc : @PsychoacousticCorrection RR) (curve : list R),
        0 < fftSize pc ->
        Forall (fun g => (0 < g)%R)
               (convertToFFTBins (L:=RR_libm) pc curve)).
Proof.
  split; [|split].
  - intros A L pc curve Hpos; now apply convertToFFTBins_shape.
  - intros powf tanhf pc curve Hu Hc Hp.
    now apply convertToFFTBins_positive_f32.
  - intros pc curve Hpos; now apply convertToFFTBins_positive_real.
Qed.

Lemma curve_20dB_moderate : moderate_curve (@curve_20dB_at_20Hz F32).
Proof.
  assert (G : forallb (fun i =>
                B32.valid (at_ (@zero F32) (@curve_20dB_at_20Hz F32) i)
                && B32.fle (B32.of_Z (-100))
                     (at_ (@zero F32) (@curve_20dB_at_20Hz F32) i)
                && B32.fle (at_ (@zero F32) (@curve_20dB_at_20Hz F32) i)
                     (B32.of_Z 100)) (range 29) = true)
    by (vm_compute; reflexivity).
  rewrite forallb_forall in G.
  intros i Hi; specialize (G i ltac:(apply in_range; exact Hi)).
  apply andb_prop in G; destruct G as (G & G3).
  apply andb_prop in G; destruct G as (G1 & G2).
  split; [exact G1|split; [exact G2|exact G3]].
Qed.

Lemma pc_48k_usable : usable_rate (@pc_48k_2048 F32).
Proof.
  split; [split; [reflexivity|reflexivity]|].
  split; [reflexivity|split; reflexivity].
Qed.

Lemma C9_witness :
  let powf : B32.t -> B32.t -> B32.t := fun _ _ => B32.of_dec 1 1 in
  usable_rate (@pc_48k_2048 F32)
  /\ moderate_curve (@curve_20dB_at_20Hz F32)
  /\ pow10_positive_on powf 45
  /\ Z.of_nat (length (convertToFFTBins (L:=F32_libm powf (fun x => x))
                         (@pc_48k_2048 F32) (@curve_20dB_at_20Hz F32)))
     = Z.quot 2048 2 + 1
  /\ Forall (fun g => B32.flt (B32.of_Z 0) g = true)
            (convertToFFTBins (L:=F32_libm powf (fun x => x))
               (@pc_48k_2048 F32) (@curve_20dB_at_20Hz F32)).
Proof.
  cbv zeta.
  assert (H0 : 0 < fftSize (@pc_48k_2048 F32)) by reflexivity.
  assert (H3 : pow10_positive_on (fun _ _ => B32.of_dec 1 1) 45).
  { intros y _ _; reflexivity. }
  split; [exact pc_48k_usable|split; [exact curve_20dB_moderate|]].
  split; [exact H3|split].
  - exact (proj1 (proj1 C9_bins_length_and_positive F32
                    (F32_libm (fun _ _ => B32.of_dec 1 1) (fun x => x))
                    (@pc_48k_2048 F32) (@curve_20dB_at_20Hz F32) H0)).
  - exact (proj1 (proj2 C9_bins_length_and_positive)
             (fun _ _ => B32.of_dec 1 1) (fun x => x)
             (@pc_48k_2048 F32) (@curve_20dB_at_20Hz F32)
             pc_48k_usable curve_20dB_moderate H3).
Defined.

(** C9 as stated fails.  With the curve that asks for [-2000] dB at every
    frequency, at 48 kHz and 2048 points, bin 100 (2343.75 Hz) lies in
    segment 20 of the table and the code calls [powf(10.0f, -100.0f)].
    The binary32 value nearest to [10^-100] is [+0.0f], so with a [powf]
    that returns it the gain of the bin is not strictly positive. *)
Lemma C9_counterexample :
  (forall i, 0 <= i < 29 ->
     at_ (@zero F32) curve_minus_2000 i = B32.of_Z (-2000))
  /\ interpolated_gain (L:=F32_pow_exponent) curve_minus_2000
       (bin_idx (@pc_48k_2048 F32) 100) (bin_freq (@pc_48k_2048 F32) 100)
     = B32.of_Z (-100)
  /\ rnd (/ IZR (10 ^ 100)) (S754_zero false)
  /\ (forall powf tanhf,
        powf (B32.of_dec 10 1) (B32.of_Z (-100)) = S754_zero false ->
        B32.flt (B32.of_Z 0)
          (at_ (@zero F32)
             (convertToFFTBins (L:=F32_libm powf tanhf) (@pc_48k_2048 F32)
                curve_minus_2000) 100)
        = false).
Proof.
  split; [|split; [|split]].
  - intros i Hi; unfold curve_minus_2000; apply at_repeat; lia.
  - exact (proj2 minus_2000_exponent).
  - exact ten_to_minus_100_rounds_to_zero.
  - intros powf tanhf H.
    rewrite (minus_2000_gain powf tanhf).
    change (@litf F32 10 1) with (B32.of_dec 10 1).
    change (@of_int F32 (-100)) with (B32.of_Z (-100)).
    rewrite H; reflexivity.
Qed.

(** ** Flat curves and the interpolation inside the table *)

Section RoundedInterpolation.

Import B32.

Lemma fmul_zero_r (x : t) (s : bool) :
  is_finite x = true -> exists s', fmul x (S754_zero s) = S754_zero s'.
Proof.
  destruct x as [sx|sx| |sx m e]; try discriminate; intros _; simpl; eauto.
Qed.

Lemma fmul_zero_l (x : t) (s : bool) :
  is_finite x = true -> exists s', fmul (S754_zero s) x = S754_zero s'.
Proof.
  destruct x as [sx|sx| |sx m e]; try discriminate; intros _; simpl; eauto.
Qed.

Lemma fadd_zero_r (x : t) (s : bool) :
  is_finite x = true -> x <> S754_zero true ->
  fadd x (S754_zero s) = x.
Proof.
  destruct x as [[]|sx| |sx m e]; try discriminate; intros _ H;
    try reflexivity; try congruence.
  destruct s; reflexivity.
Qed.

Lemma fadd_zero_r_fle (x : t) (s : bool) :
  is_finite x = true ->
  fle x (fadd x (S754_zero s)) = true /\ fle (fadd x (S754_zero s)) x = true.
Proof.
  destruct x as [[]|sx| |sx m e]; try discriminate; intros _;
    try (destruct s; split; reflexivity).
  cbn [fadd SFadd]; split; apply fle_refl_nn; reflexivity.
Qed.

Lemma fle_antisym (x y : t) :
  is_finite y = true -> (forall s, y <> S754_zero s) ->
  fle x y = true -> fle y x = true -> x = y.
Proof.
  destruct x as [sx|sx| |sx mx ex], y as [sy|sy| |sy my ey];
    try discriminate; intros _ Hz; try (exfalso; now apply (Hz sy));
    unfold fle, SFleb, SFcompare.
  - destruct sy; discriminate.
  - destruct sx, sy; discriminate.
  - change (Pos.compare_cont Eq mx my) with (Pos.compare mx my).
    change (Pos.compare_cont Eq my mx) with (Pos.compare my mx).
    destruct sx, sy; try discriminate;
      destruct (Z.compare_spec ex ey); destruct (Z.compare_spec ey ex);
      try lia; try discriminate;
      destruct (Pos.compare_spec mx my); destruct (Pos.compare_spec my mx);
      try lia; try discriminate; subst; intros; reflexivity.
Qed.

Section BinInterpolation.

#[local] Existing Instance F32.

Variable powf : B32.t -> B32.t -> B32.t.
Variable tanhf : B32.t -> B32.t.

Let libm : Libm F32 := F32_libm powf tanhf.

Lemma interpolated_gain_lerp (curve : list num) (idx : Z) (freq : num) :
  interpolated_gain (L:=libm) curve idx freq
  = powf (litf 10 1)
         (div (lerp freq (freq_at idx) (freq_at (idx + 1))
                    (at_ zero curve idx) (at_ zero curve (idx + 1)))
              (litf 20 1)).
Proof. reflexivity. Qed.

(** A frequency not above 12.5 kHz is interpolated; one above is not. *)
Lemma bin_idx_in_table (pc : PsychoacousticCorrection) (bin : Z) :
  is_nan (bin_freq pc bin) = false ->
  ltb (freq_at (NUM_FREQUENCIES - 1)) (bin_freq pc bin) = false ->
  0 <= bin_idx pc bin <= 27.
Proof.
  intros Hn Hle.
  destruct (bin_idx_segment pc bin Hn) as (I0 & _ & _).
  split; [exact I0|].
  destruct (Z_le_gt_dec (bin_idx pc bin) 27) as [|Hgt]; [assumption|exfalso].
  unfold bin_idx in *.
  destruct (scan_idx_exit (Z.to_nat (NUM_FREQUENCIES - 1)) 0
              (bin_freq pc bin)) as (_ & _ & Hbelow); [lia|simpl; lia|].
  specialize (Hbelow 27 ltac:(lia)).
  change (27 + 1) with (NUM_FREQUENCIES - 1) in Hbelow.
  rewrite Hbelow in Hle; discriminate.
Qed.

Lemma bin_idx_above_table (pc : PsychoacousticCorrection) (bin : Z) :
  ltb (freq_at (NUM_FREQUENCIES - 1)) (bin_freq pc bin) = true ->
  bin_idx pc bin = NUM_FREQUENCIES - 1.
Proof.
  intros Hhi; unfold bin_idx.
  apply scan_idx_all; [simpl; lia|reflexivity|].
  intros i Hi; eapply B32Facts.fle_flt_trans; [|exact Hhi].
  apply freq_between_f32; unfold NUM_FREQUENCIES in Hi; lia.
Qed.

Lemma ratio_finite (i : Z) (freq : num) :
  0 <= i < 28 ->
  valid freq = true -> leb zero freq = true ->
  leb freq (freq_at (i + 1)) = true ->
  is_finite (div (sub freq (freq_at i))
                 (sub (freq_at (i + 1)) (freq_at i))) = true.
Proof.
  intros Hi Vf Pf Uf.
  destruct (ratio_bounds i freq Hi Vf Pf Uf) as (_ & L & U).
  apply (between_finite _ _ _ (eq_refl : is_finite (of_Z (-4)) = true)
           (eq_refl : is_finite (of_Z 1) = true) L U).
Qed.

(** X5. In binary32, a correction curve with the same finite value [c]
    (other than [-0.0f]) at all 29 table frequencies gives, for every
    finite non-negative sample rate and every transform size that is a
    positive [int], at every bin whose rounded frequency is not above
    [12500.0f] the gain [powf(10.0f, c / 20.0f)], bins below 20 Hz
    included: the interpolated value [c + ratio * (c - c)] is [c] again,
    bit for bit.  A bin whose rounded frequency is above [12500.0f]
    keeps the gain [1.0f]. *)
Theorem X5_flat_curve_gives_flat_gain
    (pc : PsychoacousticCorrection) (c : num) (bin : Z) :
  usable_rate pc ->
  valid c = true -> is_finite c = true -> c <> S754_zero true ->
  0 <= bin < numBins_of pc ->
  let out :=
    convertToFFTBins (L:=libm) pc (repeat c (Z.to_nat NUM_FREQUENCIES)) in
  (ltb (freq_at (NUM_FREQUENCIES - 1)) (bin_freq pc bin) = false ->
   at_ zero out bin = powf (litf 10 1) (div c (litf 20 1)))
  /\ (ltb (freq_at (NUM_FREQUENCIES - 1)) (bin_freq pc bin) = true ->
      at_ zero out bin = litf 1 1).
Proof.
  intros (Hf & Vs & Fs & Ps) Vc Fc Hc Hb; cbv zeta.
  destruct (numBins_bounds pc ltac:(lia)) as (Hn & _).
  destruct (bin_freq_nonneg pc bin Hf ltac:(lia) Vs Fs Ps) as (Vq & Pq).
  assert (Nq : is_nan (bin_freq pc bin) = false) by now apply fle_nn in Pq.
  destruct (convertToFFTBins_at (L:=libm) pc
              (repeat c (Z.to_nat NUM_FREQUENCIES))) as (_ & Hat).
  rewrite (Hat bin Hb); unfold bin_gain.
  split; intros Hcmp.
  - destruct (bin_idx_in_table pc bin Nq Hcmp) as (I0 & I27).
    destruct (bin_idx_segment pc bin Nq) as (_ & Iup & _).
    destruct (Z.ltb_spec (bin_idx pc bin) (NUM_FREQUENCIES - 1)) as [_|Hge];
      [|unfold NUM_FREQUENCIES in Hge; lia].
    specialize (Iup eq_refl).
    set (idx := bin_idx pc bin) in *.
    pose proof (ratio_finite idx _ ltac:(lia) Vq Pq Iup) as Fr.
    rewrite interpolated_gain_lerp; unfold lerp.
    rewrite !at_repeat by (unfold NUM_FREQUENCIES; lia).
    rewrite (fsub_diag_f32 c Fc); change (@zero F32) with (S754_zero false).
    set (r := div _ _) in *.
    destruct (fmul_zero_r r false Fr) as (s' & E).
    change (mul r (S754_zero false)) with (fmul r (S754_zero false)).
    rewrite E.
    change (add c (S754_zero s')) with (fadd c (S754_zero s')).
    now rewrite fadd_zero_r.
  - rewrite (bin_idx_above_table pc bin Hcmp); reflexivity.
Qed.

(** X6. In binary32, for a bin whose rounded frequency lies within
    [20.0f] and [12500.0f], the scan of [convertToFFTBins] stops at a
    table segment [idx <= 27] that holds the bin frequency, the gain of
    the bin is [powf(10.0f, dB / 20.0f)] for the interpolated value
    [dB = g1 + ratio * (g2 - g1)], and [dB] lies between [g1] and the
    rounded sum [g1 + (g2 - g1)], on the side given by the sign of the
    rounded difference [g2 - g1]: inside the table the interpolation does
    not overshoot the segment.  The two entries are canonical, [g1] and
    the rounded difference are finite. *)
Theorem X6_in_range_bins_do_not_overshoot
    (pc : PsychoacousticCorrection) (curve : list num) (bin : Z) :
  usable_rate pc ->
  0 <= bin < numBins_of pc ->
  let freq := bin_freq pc bin in
  let idx := bin_idx pc bin in
  let g1 := at_ zero curve idx in
  let g2 := at_ zero curve (idx + 1) in
  let d := sub g2 g1 in
  let dB := lerp freq (freq_at idx) (freq_at (idx + 1)) g1 g2 in
  leb (freq_at 0) freq = true ->
  leb freq (freq_at (NUM_FREQUENCIES - 1)) = true ->
  valid g1 = true -> valid g2 = true ->
  is_finite g1 = true -> is_finite d = true ->
  0 <= idx <= 27
  /\ leb (freq_at idx) freq = true /\ leb freq (freq_at (idx + 1)) = true
  /\ at_ zero (convertToFFTBins (L:=libm) pc curve) bin
     = powf (litf 10 1) (div dB (litf 20 1))
  /\ (leb zero d = true -> leb g1 dB = true /\ leb dB (add g1 d) = true)
  /\ (leb d zero = true -> leb (add g1 d) dB = true /\ leb dB g1 = true).
Proof.
  intros (Hf & Vs & Fs & Ps) Hb; cbv zeta; intros Hlo Hhi V1 V2 F1 Fd.
  destruct (numBins_bounds pc ltac:(lia)) as (Hn & _).
  destruct (bin_freq_nonneg pc bin Hf ltac:(lia) Vs Fs Ps) as (Vq & Pq).
  assert (Nq : is_nan (bin_freq pc bin) = false) by now apply fle_nn in Pq.
  destruct (bin_idx_in_table pc bin Nq) as (I0 & I27).
  { now apply B32Facts.fle_not_flt. }
  destruct (bin_idx_segment pc bin Nq) as (_ & Iup & Idown).
  destruct (convertToFFTBins_at (L:=libm) pc curve) as (_ & Hat).
  rewrite (Hat bin Hb); unfold bin_gain.
  destruct (Z.ltb_spec (bin_idx pc bin) (NUM_FREQUENCIES - 1)) as [_|Hge];
    [|unfold NUM_FREQUENCIES in Hge; lia].
  specialize (Iup eq_refl).
  set (idx := bin_idx pc bin) in *.
  set (freq := bin_freq pc bin) in *.
  assert (Ilo : leb (freq_at idx) freq = true).
  { destruct (Z.eq_dec idx 0) as [E|E]; [rewrite E; exact Hlo|].
    apply flt_fle, Idown; lia. }
  split; [lia|split; [exact Ilo|split; [exact Iup|]]].
  split; [apply interpolated_gain_lerp|].
  (* the ratio is between 0 and 1 *)
  pose proof segments_ok as G; rewrite forallb_forall in G.
  specialize (G idx ltac:(apply in_range; lia)).
  unfold segment_ok in G; cbv zeta in G.
  repeat (apply andb_prop in G; destruct G as (G & ?)).
  set (f1 := freq_at idx) in *; set (f2 := freq_at (idx + 1)) in *.
  assert (Ff : is_finite freq = true).
  { apply (between_finite (S754_zero false) freq f2); auto. }
  set (r := div (sub freq f1) (sub f2 f1)).
  assert (Vr : valid r = true) by apply fdiv_valid.
  assert (Lr : fle (S754_zero false) r = true).
  { apply (fle_trans _ (fdiv (fsub f1 f1) (fsub f2 f1))).
    - rewrite fsub_diag_f32 by assumption.
      destruct (pos_finite_cases (fsub f2 f1)) as (m & e & ->);
        [assumption..|reflexivity].
    - apply fdiv_mono; try assumption; try (now apply fsub_valid).
      apply fsub_mono_fin; try assumption.
      apply fle_refl_nn; destruct f1; try discriminate; reflexivity. }
  assert (Ur : fle r (of_dec 1 1) = true).
  { apply (fle_trans _ (fdiv (fsub f2 f1) (fsub f2 f1))); [|assumption].
    apply fdiv_mono; try assumption; try (now apply fsub_valid).
    apply fsub_mono_fin; try assumption.
    apply fle_refl_nn; destruct f1; try discriminate; reflexivity. }
  assert (Fr : is_finite r = true).
  { apply (between_finite (S754_zero false) r (of_dec 1 1)); auto. }
  set (g1 := at_ zero curve idx) in *.
  set (g2 := at_ zero curve (idx + 1)) in *.
  set (d := sub g2 g1) in *.
  assert (Vd : valid d = true) by now apply fsub_valid.
  assert (E1 : fmul (of_dec 1 1) d = d)
    by (rewrite fmul_comm; now apply B32Round.fmul_one_r).
  destruct (fmul_zero_l d false Fd) as (s0 & E0).
  destruct (fadd_zero_r_fle g1 s0 F1) as (Z1 & Z2).
  assert (Vp : valid (fmul r d) = true) by now apply fmul_valid.
  unfold lerp; fold f1 f2 r d.
  change (add g1 (mul r d)) with (fadd g1 (fmul r d)).
  change (add g1 d) with (fadd g1 d).
  assert (Ng : fle g1 g1 = true)
    by (apply fle_refl_nn; destruct g1; try discriminate; reflexivity).
  split; intros Hd.
  - assert (P1 : fle (fmul (S754_zero false) d) (fmul r d) = true)
      by (apply fmul_mono_fin_pos; auto).
    assert (P2 : fle (fmul r d) (fmul (of_dec 1 1) d) = true)
      by (apply fmul_mono_fin_pos; auto).
    rewrite E0 in P1; rewrite E1 in P2.
    assert (Fp : is_finite (fmul r d) = true)
      by (apply (between_finite (S754_zero s0) _ d); auto).
    split.
    + apply (fle_trans _ (fadd g1 (S754_zero s0))); [exact Z1|].
      apply fadd_mono_fin; auto.
    + apply fadd_mono_fin; auto.
  - assert (P1 : fle (fmul r d) (fmul (S754_zero false) d) = true)
      by (apply fmul_mono_fin_neg; auto).
    assert (P2 : fle (fmul (of_dec 1 1) d) (fmul r d) = true)
      by (apply fmul_mono_fin_neg; auto).
    rewrite E0 in P1; rewrite E1 in P2.
    assert (Fp : is_finite (fmul r d) = true)
      by (apply (between_finite d _ (S754_zero s0)); auto).
    split.
    + apply fadd_mono_fin; auto.
    + apply (fle_trans _ (fadd g1 (S754_zero s0))); [|exact Z2].
      apply fadd_mono_fin; auto.
Qed.

End BinInterpolation.

End RoundedInterpolation.

Lemma X5_witness :
  usable_rate (@pc_48k_2048 F32)
  /\ B32.valid (B32.of_Z 6) = true
  /\ B32.is_finite (B32.of_Z 6) = true
  /\ B32.of_Z 6 <> S754_zero true
  /\ 0 <= 100 < numBins_of (@pc_48k_2048 F32)
  /\ B32.flt (@freq_at F32 (NUM_FREQUENCIES - 1))
             (bin_freq (@pc_48k_2048 F32) 100) = false
  /\ at_ (@zero F32)
       (convertToFFTBins (L:=F32_pow_exponent) pc_48k_2048
          (repeat (B32.of_Z 6) (Z.to_nat NUM_FREQUENCIES))) 100
     = B32.fdiv (B32.of_Z 6) (B32.of_dec 20 1).
Proof.
  assert (H1 : B32.valid (B32.of_Z 6) = true) by reflexivity.
  assert (H2 : B32.is_finite (B32.of_Z 6) = true) by reflexivity.
  assert (H3 : B32.of_Z 6 <> S754_zero true) by discriminate.
  assert (H4 : 0 <= 100 < numBins_of (@pc_48k_2048 F32))
    by (split; [discriminate|reflexivity]).
  assert (H5 : B32.flt (@freq_at F32 (NUM_FREQUENCIES - 1))
                 (bin_freq (@pc_48k_2048 F32) 100) = false)
    by (vm_compute; reflexivity).
  split; [exact pc_48k_usable|split; [exact H1|split; [exact H2|]]].
  split; [exact H3|split; [exact H4|split; [exact H5|]]].
  exact (proj1 (X5_flat_curve_gives_flat_gain (fun _ y => y) (fun x => x)
                  pc_48k_2048 (B32.of_Z 6) 100 pc_48k_usable H1 H2 H3 H4)
           H5).
Defined.

Lemma X6_witness :
  let pc := @pc_48k_2048 F32 in
  let curve := @curve_20dB_at_20Hz F32 in
  let idx := bin_idx pc 100 in
  usable_rate pc
  /\ 0 <= 100 < numBins_of pc
  /\ B32.fle (@freq_at F32 0) (bin_freq pc 100) = true
  /\ B32.fle (bin_freq pc 100) (@freq_at F32 (NUM_FREQUENCIES - 1)) = true
  /\ B32.valid (at_ (@zero F32) curve idx) = true
  /\ B32.valid (at_ (@zero F32) curve (idx + 1)) = true
  /\ B32.is_finite (at_ (@zero F32) curve idx) = true
  /\ B32.is_finite (B32.fsub (at_ (@zero F32) curve (idx + 1))
                             (at_ (@zero F32) curve idx)) = true
  /\ 0 <= idx <= 27
  /\ B32.fle (@freq_at F32 idx) (bin_freq pc 100) = true
  /\ B32.fle (bin_freq pc 100) (@freq_at F32 (idx + 1)) = true.
Proof.
  cbv zeta.
  assert (H2 : 0 <= 100 < numBins_of (@pc_48k_2048 F32))
    by (split; [discriminate|reflexivity]).
  assert (H3 : B32.fle (@freq_at F32 0) (bin_freq (@pc_48k_2048 F32) 100)
               = true) by (vm_compute; reflexivity).
  assert (H4 : B32.fle (bin_freq (@pc_48k_2048 F32) 100)
                 (@freq_at F32 (NUM_FREQUENCIES - 1)) = true)
    by (vm_compute; reflexivity).
  assert (H5 : B32.valid (at_ (@zero F32) (@curve_20dB_at_20Hz F32)
                            (bin_idx (@pc_48k_2048 F32) 100)) = true)
    by (vm_compute; reflexivity).
  assert (H6 : B32.valid (at_ (@zero F32) (@curve_20dB_at_20Hz F32)
                            (bin_idx (@pc_48k_2048 F32) 100 + 1)) = true)
    by (vm_compute; reflexivity).
  assert (H7 : B32.is_finite (at_ (@zero F32) (@curve_20dB_at_20Hz F32)
                                (bin_idx (@pc_48k_2048 F32) 100)) = true)
    by (vm_compute; reflexivity).
  assert (H8 : B32.is_finite
                 (B32.fsub
                    (at_ (@zero F32) (@curve_20dB_at_20Hz F32)
                       (bin_idx (@pc_48k_2048 F32) 100 + 1))
                    (at_ (@zero F32) (@curve_20dB_at_20Hz F32)
                       (bin_idx (@pc_48k_2048 F32) 100))) = true)
    by (vm_compute; reflexivity).
  destruct (X6_in_range_bins_do_not_overshoot (fun _ y => y) (fun x => x)
              pc_48k_2048 curve_20dB_at_20Hz 100 pc_48k_usable H2
              H3 H4 H5 H6 H7 H8) as (G1 & G2 & G3 & _).
  repeat (split; [assumption|]); try exact pc_48k_usable.
  split; [exact pc_48k_usable|].
  repeat (split; [assumption|]); assumption.
Defined.

(** ** calculateSimplifiedCorrection *)

Section RoundedBands.

Import B32.

Lemma fmul_mono_l (c a a' : t) :
  valid a = true -> valid a' = true -> valid c = true ->
  is_finite c = true -> flt (S754_zero false) c = true ->
  fle a a' = true -> fle (fmul a c) (fmul a' c) = true.
Proof.
  intros; rewrite (fmul_comm a c), (fmul_comm a' c); now apply fmul_mono.
Qed.

(** Two clamps of values that are not below the lower limits. *)
Lemma clamp_upper_mono (x y lo1 hi1 lo2 hi2 : t) :
  flt x lo1 = false -> flt y lo2 = false ->
  fle hi1 hi2 = true -> fle x y = true ->
  fle (@clamp F32 x lo1 hi1) (@clamp F32 y lo2 hi2) = true.
Proof.
  intros Hx Hy Hh H; unfold clamp.
  change (@ltb F32) with flt; rewrite Hx, Hy.
  destruct (fle_nn _ _ Hh) as (N1 & N2).
  destruct (fle_nn _ _ H) as (Nx & Ny).
  destruct (flt hi1 x) eqn:E1, (flt hi2 y) eqn:E2.
  - exact Hh.
  - apply flt_fle, (B32Facts.flt_fle_trans _ _ _ E1 H).
  - apply (fle_trans _ hi1); [|exact Hh].
    now apply B32Facts.not_flt_fle.
  - exact H.
Qed.

(** A value at or above the upper limit is clamped to it. *)
Lemma clamp_saturates (x lo hi : t) :
  is_finite hi = true -> (forall s, hi <> S754_zero s) ->
  fle lo hi = true -> fle hi x = true ->
  @clamp F32 x lo hi = hi.
Proof.
  intros Fh Hz Hb H; unfold clamp; change (@ltb F32) with flt.
  destruct (flt x lo) eqn:E1.
  - exfalso.
    pose proof (B32Facts.fle_flt_trans _ _ _ H E1) as G.
    apply B32Facts.flt_not_fle in G; rewrite G in Hb; discriminate.
  - destruct (flt hi x) eqn:E2; [reflexivity|].
    apply fle_antisym; try assumption.
    destruct (fle_nn _ _ H) as (N1 & N2).
    now apply B32Facts.not_flt_fle.
Qed.

Section SimplifiedBinary32.

#[local] Existing Instance F32.

Lemma simplified_bands (c t : num) :
  let d := sub t c in
  Simplified.calculateSimplifiedCorrection c t
  = Simplified.Build_SimplifiedEQ (band d (litf 8 10) (litf 6 1))
      (band d (litf 1 10) (litf 2 1)) (band d (litf 3 10) (litf 3 1)).
Proof. reflexivity. Qed.

Lemma scaled_mono (d d' k : num) :
  valid d = true -> valid d' = true -> valid k = true ->
  is_finite k = true -> ltb zero k = true ->
  leb d d' = true ->
  leb (mul (mul d k) (litf 4 10)) (mul (mul d' k) (litf 4 10)) = true.
Proof.
  intros Vd Vd' Vk Fk Pk H.
  apply fmul_mono_l; try reflexivity; try (now apply fmul_valid).
  now apply fmul_mono_l.
Qed.

Lemma band_mono (d d' k lim : num) :
  valid d = true -> valid d' = true -> valid k = true ->
  is_finite k = true -> ltb zero k = true ->
  leb (neg lim) lim = true ->
  leb d d' = true -> leb (band d k lim) (band d' k lim) = true.
Proof.
  intros Vd Vd' Vk Fk Pk Hl H; unfold band.
  apply clamp_mono; [exact Hl|now apply scaled_mono].
Qed.

Lemma band_saturates (d k lim thr : num) :
  valid d = true -> valid k = true ->
  is_finite k = true -> ltb zero k = true ->
  is_finite lim = true -> (forall s, lim <> S754_zero s) ->
  leb (neg lim) lim = true ->
  valid thr = true ->
  leb lim (mul (mul thr k) (litf 4 10)) = true ->
  leb thr d = true -> band d k lim = lim.
Proof.
  intros Vd Vk Fk Pk Fl Zl Hl Vt Ht H; unfold band.
  apply clamp_saturates; try assumption.
  apply (fle_trans _ _ _ Ht).
  now apply scaled_mono.
Qed.

(** X13. In binary32, [calculateSimplifiedCorrection] is monotone in the
    rounded difference [d = target - current]: a larger difference gives
    bass, mid and treble gains that are not smaller.  The bass gain is
    exactly [6.0f] from [d >= 18.75f] on, the treble gain exactly [3.0f]
    from [d >= 25.0f] on and the mid gain exactly [2.0f] from
    [d >= 50.0f] on; and for a finite [d >= 0] the three gains are
    ordered [0 <= mid <= treble <= bass]. *)
Theorem X13_simplified_correction_shape (c t c' t' : num) :
  valid c = true -> valid t = true -> valid c' = true -> valid t' = true ->
  let d := sub t c in
  let eq := Simplified.calculateSimplifiedCorrection c t in
  let eq' := Simplified.calculateSimplifiedCorrection c' t' in
  (leb d (sub t' c') = true ->
   leb (Simplified.bassGain eq) (Simplified.bassGain eq') = true
   /\ leb (Simplified.midGain eq) (Simplified.midGain eq') = true
   /\ leb (Simplified.trebleGain eq) (Simplified.trebleGain eq') = true)
  /\ (leb (litf 1875 100) d = true -> Simplified.bassGain eq = litf 6 1)
  /\ (leb (litf 25 1) d = true -> Simplified.trebleGain eq = litf 3 1)
  /\ (leb (litf 50 1) d = true -> Simplified.midGain eq = litf 2 1)
  /\ (is_finite d = true -> leb zero d = true ->
      leb zero (Simplified.midGain eq) = true
      /\ leb (Simplified.midGain eq) (Simplified.trebleGain eq) = true
      /\ leb (Simplified.trebleGain eq) (Simplified.bassGain eq) = true).
Proof.
  intros Vc Vt Vc' Vt'; cbv zeta.
  rewrite !simplified_bands; cbv zeta.
  cbn [Simplified.bassGain Simplified.midGain Simplified.trebleGain].
  assert (Vd : valid (sub t c) = true) by now apply fsub_valid.
  assert (Vd' : valid (sub t' c') = true) by now apply fsub_valid.
  set (d := sub t c) in *; set (d' := sub t' c') in *.
  split; [|split; [|split; [|split]]].
  - intros H; repeat split; apply band_mono; auto; reflexivity.
  - intros H.
    apply (band_saturates d _ _ (litf 1875 100)); auto;
      try reflexivity; intros s; destruct s; discriminate.
  - intros H.
    apply (band_saturates d _ _ (litf 25 1)); auto;
      try reflexivity; intros s; destruct s; discriminate.
  - intros H.
    apply (band_saturates d _ _ (litf 50 1)); auto;
      try reflexivity; intros s; destruct s; discriminate.
  - intros Fd Pd.
    assert (S1 : fle (S754_zero false)
                   (mul (mul d (litf 1 10)) (litf 4 10)) = true).
    { apply (fle_trans _ (fmul (fmul (S754_zero false) (of_dec 1 10))
                                 (of_dec 4 10))); [reflexivity|].
      apply scaled_mono; auto; reflexivity. }
    assert (S2 : fle (mul (mul d (litf 1 10)) (litf 4 10))
                     (mul (mul d (litf 3 10)) (litf 4 10)) = true).
    { apply fmul_mono_l; try reflexivity; try (now apply fmul_valid).
      change (fle (fmul d (of_dec 1 10)) (fmul d (of_dec 3 10)) = true).
      rewrite (fmul_comm d (of_dec 1 10)), (fmul_comm d (of_dec 3 10)).
      apply fmul_mono_fin_pos; auto; reflexivity. }
    assert (S3 : fle (mul (mul d (litf 3 10)) (litf 4 10))
                     (mul (mul d (litf 8 10)) (litf 4 10)) = true).
    { apply fmul_mono_l; try reflexivity; try (now apply fmul_valid).
      change (fle (fmul d (of_dec 3 10)) (fmul d (of_dec 8 10)) = true).
      rewrite (fmul_comm d (of_dec 3 10)), (fmul_comm d (of_dec 8 10)).
      apply fmul_mono_fin_pos; auto; reflexivity. }
    assert (N1 : forall x lim,
               fle (S754_zero false) x = true ->
               flt (S754_zero false) lim = true ->
               flt x (fneg lim) = false).
    { intros x lim Hx Hl.
      destruct x as [[]|[]| |[] ? ?], lim as [[]|[]| |[] ? ?];
        try discriminate; reflexivity. }
    unfold band; repeat split.
    + apply (fle_trans _ (@clamp F32 (S754_zero false) (fneg (of_dec 2 1))
                                 (of_dec 2 1))); [reflexivity|].
      apply clamp_mono; [reflexivity|exact S1].
    + apply clamp_upper_mono;
        [apply N1; [exact S1|reflexivity]
        |apply N1; [exact (fle_trans _ _ _ S1 S2)|reflexivity]
        |reflexivity|exact S2].
    + apply clamp_upper_mono;
        [apply N1; [exact (fle_trans _ _ _ S1 S2)|reflexivity]
        |apply N1; [exact (fle_trans _ _ _ (fle_trans _ _ _ S1 S2) S3)
                   |reflexivity]
        |reflexivity|exact S3].
Qed.

End SimplifiedBinary32.

End RoundedBands.

Lemma X13_witness :
  let eq := @Simplified.calculateSimplifiedCorrection F32 in
  (B32.fle (B32.fsub (B32.of_Z 53) (B32.of_Z 48))
           (B32.fsub (B32.of_Z 60) (B32.of_Z 48)) = true
   /\ B32.fle (Simplified.bassGain (eq (B32.of_Z 48) (B32.of_Z 53)))
              (Simplified.bassGain (eq (B32.of_Z 48) (B32.of_Z 60))) = true)
  /\ (B32.fle (B32.of_dec 50 1) (B32.fsub (B32.of_Z 90) (B32.of_Z 30))
      = true
      /\ Simplified.midGain (eq (B32.of_Z 30) (B32.of_Z 90))
         = B32.of_dec 2 1)
  /\ (B32.is_finite (B32.fsub (B32.of_Z 53) (B32.of_Z 48)) = true
      /\ B32.fle (B32.of_Z 0) (B32.fsub (B32.of_Z 53) (B32.of_Z 48)) = true
      /\ B32.fle (Simplified.trebleGain (eq (B32.of_Z 48) (B32.of_Z 53)))
                 (Simplified.bassGain (eq (B32.of_Z 48) (B32.of_Z 53)))
         = true).
Proof.
  cbv zeta.
  assert (H1 : B32.fle (B32.fsub (B32.of_Z 53) (B32.of_Z 48))
                 (B32.fsub (B32.of_Z 60) (B32.of_Z 48)) = true)
    by reflexivity.
  assert (H2 : B32.fle (B32.of_dec 50 1)
                 (B32.fsub (B32.of_Z 90) (B32.of_Z 30)) = true)
    by reflexivity.
  assert (H3 : B32.is_finite (B32.fsub (B32.of_Z 53) (B32.of_Z 48)) = true)
    by reflexivity.
  assert (H4 : B32.fle (B32.of_Z 0) (B32.fsub (B32.of_Z 53) (B32.of_Z 48))
               = true) by reflexivity.
  destruct (X13_simplified_correction_shape (B32.of_Z 48) (B32.of_Z 53)
              (B32.of_Z 48) (B32.of_Z 60) eq_refl eq_refl eq_refl eq_refl)
    as (G1 & _ & _ & _ & G5).
  destruct (X13_simplified_correction_shape (B32.of_Z 30) (B32.of_Z 90)
              (B32.of_Z 30) (B32.of_Z 90) eq_refl eq_refl eq_refl eq_refl)
    as (_ & _ & _ & G4 & _).
  split; [split; [exact H1|exact (proj1 (G1 H1))]|].
  split; [split; [exact H2|exact (G4 H2)]|].
  split; [exact H3|split; [exact H4|exact (proj2 (proj2 (G5 H3 H4)))]].
Defined.

(** ** The floor of the compensation factor *)

Section RoundedFloor.

Import B32.

Section FactorFloor.

#[local] Existing Instance F32.

Variable powf : B32.t -> B32.t -> B32.t.
Variable tanhf : B32.t -> B32.t.

Let libm : Libm F32 := F32_libm powf tanhf.

(** X14. In binary32, with [th] the value that [tanhf] returns for
    [seconds / 60.0f / 10.0f]: when [th >= 0] the upper limit [0.5f] of
    the clamp is never exceeded; when [th >= 1.0f] (the value a [tanhf]
    returns for large arguments) the unclamped [0.5f - 0.3f * th] is
    below [0.2f] and the factor is exactly the floor [0.2f]; and when
    [0 <= th <= 0.99f] the clamp changes nothing and the factor is above
    [0.2f]. *)
Theorem X14_adaptive_factor_reaches_floor (s : num) :
  let th := tanh (Libm:=libm) (div (div s (litf 60 1)) (litf 10 1)) in
  let unclamped := sub (litf 5 10) (mul (litf 3 10) th) in
  let factor := getAdaptiveCompensationFactor (L:=libm) s in
  valid th = true ->
  (leb zero th = true ->
   ltb (litf 5 10) unclamped = false
   /\ factor = if ltb unclamped (litf 2 10) then litf 2 10 else unclamped)
  /\ (leb (litf 1 1) th = true ->
      ltb unclamped (litf 2 10) = true /\ factor = litf 2 10)
  /\ (leb zero th = true -> leb th (litf 99 100) = true ->
      factor = unclamped /\ ltb (litf 2 10) factor = true).
Proof.
  cbv zeta; intros Vt.
  unfold getAdaptiveCompensationFactor.
  set (th := tanh (Libm:=libm) _) in *.
  set (u := sub (litf 5 10) (mul (litf 3 10) th)).
  assert (Up : leb zero th = true -> ltb (litf 5 10) u = false).
  { intros H; apply B32Facts.fle_not_flt.
    apply (fle_trans _ (fsub (of_dec 5 10)
                              (fmul (of_dec 3 10) (S754_zero false))));
      [|reflexivity].
    apply fsub_anti; try reflexivity; [now apply fmul_valid|].
    apply fmul_mono; auto; reflexivity. }
  split; [|split].
  - intros H; specialize (Up H).
    split; [exact Up|].
    unfold clamp; fold u; rewrite Up; reflexivity.
  - intros H.
    assert (L : ltb u (litf 2 10) = true).
    { apply (B32Facts.fle_flt_trans _
               (fsub (of_dec 5 10) (fmul (of_dec 3 10) (of_dec 1 1))));
        [|reflexivity].
      apply fsub_anti; try reflexivity; [now apply fmul_valid|].
      apply fmul_mono; auto; reflexivity. }
    split; [exact L|].
    unfold clamp; fold u; now rewrite L.
  - intros H0 H1; specialize (Up H0).
    assert (L : ltb (litf 2 10) u = true).
    { apply (B32Facts.flt_fle_trans _
               (fsub (of_dec 5 10) (fmul (of_dec 3 10) (of_dec 99 100))));
        [reflexivity|].
      apply fsub_anti; try reflexivity; [now apply fmul_valid|].
      apply fmul_mono; auto; reflexivity. }
    assert (L' : ltb u (litf 2 10) = false).
    { apply B32Facts.fle_not_flt, flt_fle; exact L. }
    unfold clamp; fold u; rewrite L', Up.
    split; [reflexivity|exact L].
Qed.

End FactorFloor.

End RoundedFloor.

Lemma X14_witness :
  let libm := F32_libm (fun _ y => y) clip_unit in
  let arg s := B32.fdiv (B32.fdiv s (B32.of_dec 60 1)) (B32.of_dec 10 1) in
  (B32.valid (clip_unit (arg (B32.of_Z 6000000))) = true
   /\ B32.fle (B32.of_dec 1 1) (clip_unit (arg (B32.of_Z 6000000))) = true
   /\ getAdaptiveCompensationFactor (L:=libm) (B32.of_Z 6000000)
      = B32.of_dec 2 10)
  /\ (B32.valid (clip_unit (arg (B32.of_Z 300))) = true
      /\ B32.fle (B32.of_Z 0) (clip_unit (arg (B32.of_Z 300))) = true
      /\ B32.fle (clip_unit (arg (B32.of_Z 300))) (B32.of_dec 99 100) = true
      /\ B32.flt (B32.of_dec 2 10)
           (getAdaptiveCompensationFactor (L:=libm) (B32.of_Z 300)) = true).
Proof.
  cbv zeta.
  assert (V1 : B32.valid
                 (clip_unit (B32.fdiv (B32.fdiv (B32.of_Z 6000000)
                                         (B32.of_dec 60 1))
                               (B32.of_dec 10 1))) = true) by reflexivity.
  assert (H1 : B32.fle (B32.of_dec 1 1)
                 (clip_unit (B32.fdiv (B32.fdiv (B32.of_Z 6000000)
                                         (B32.of_dec 60 1))
                               (B32.of_dec 10 1))) = true) by reflexivity.
  assert (V2 : B32.valid
                 (clip_unit (B32.fdiv (B32.fdiv (B32.of_Z 300)
                                         (B32.of_dec 60 1))
                               (B32.of_dec 10 1))) = true) by reflexivity.
  assert (H2 : B32.fle (B32.of_Z 0)
                 (clip_unit (B32.fdiv (B32.fdiv (B32.of_Z 300)
                                         (B32.of_dec 60 1))
                               (B32.of_dec 10 1))) = true) by reflexivity.
  assert (H3 : B32.fle
                 (clip_unit (B32.fdiv (B32.fdiv (B32.of_Z 300)
                                         (B32.of_dec 60 1))
                               (B32.of_dec 10 1)))
                 (B32.of_dec 99 100) = true) by reflexivity.
  destruct (X14_adaptive_factor_reaches_floor (fun _ y => y) clip_unit
              (B32.of_Z 6000000) V1) as (_ & G2 & _).
  destruct (X14_adaptive_factor_reaches_floor (fun _ y => y) clip_unit
              (B32.of_Z 300) V2) as (_ & _ & G3).
  split; [split; [exact V1|split; [exact H1|exact (proj2 (G2 H1))]]|].
  split; [exact V2|split; [exact H2|split; [exact H3|]]].
  exact (proj2 (G3 H2 H3)).
Defined.

(** ** smoothTransition *)

Section RoundedSmoother.

Import B32.

Lemma sign_cases (x : t) :
  is_finite x = true ->
  fle (S754_zero false) x = true \/ fle x (S754_zero false) = true.
Proof.
  destruct x as [[]|[]| |[] ? ?]; try discriminate; intros _; auto.
Qed.

(** A finite number times a factor between 0 and 1 is finite. *)
Lemma fmul_unit_finite (x s : t) :
  is_finite x = true -> valid x = true -> valid s = true ->
  fle (S754_zero false) s = true -> fle s (of_dec 1 1) = true ->
  is_finite (fmul x s) = true.
Proof.
  intros Fx Vx Vs S0 S1.
  assert (Fs : is_finite s = true)
    by (apply (between_finite (S754_zero false) s (of_dec 1 1)); auto).
  destruct (fmul_zero_l x false Fx) as (s0 & E0).
  assert (E1 : fmul (of_dec 1 1) x = x)
    by (rewrite fmul_comm; now apply B32Round.fmul_one_r).
  rewrite fmul_comm.
  destruct (sign_cases x Fx) as [P|N].
  - apply (between_finite (fmul (S754_zero false) x) _
             (fmul (of_dec 1 1) x)).
    + now rewrite E0.
    + now rewrite E1.
    + apply fmul_mono_fin_pos; auto.
    + apply fmul_mono_fin_pos; auto.
  - apply (between_finite (fmul (of_dec 1 1) x) _
             (fmul (S754_zero false) x)).
    + now rewrite E1.
    + now rewrite E0.
    + apply fmul_mono_fin_neg; auto.
    + apply fmul_mono_fin_neg; auto.
Qed.

Section SmootherBinary32.

#[local] Existing Instance F32.

Lemma one_minus_unit (s : num) :
  valid s = true -> leb zero s = true -> leb s (litf 1 1) = true ->
  valid (sub (litf 1 1) s) = true
  /\ leb zero (sub (litf 1 1) s) = true
  /\ leb (sub (litf 1 1) s) (litf 1 1) = true.
Proof.
  intros Vs S0 S1.
  assert (Fs : is_finite s = true)
    by (apply (between_finite (S754_zero false) s (of_dec 1 1)); auto).
  split; [now apply fsub_valid|split].
  - apply (fle_trans _ (fsub (of_dec 1 1) (of_dec 1 1))); [reflexivity|].
    apply fsub_mono_fin; auto.
  - apply (fle_trans _ (fsub (of_dec 1 1) (S754_zero false)));
      [|reflexivity].
    apply fsub_mono_fin; auto.
Qed.

Lemma blend_mono (n n' c c' s : num) :
  valid n = true -> valid n' = true -> valid c = true -> valid c' = true ->
  is_finite n = true -> is_finite n' = true ->
  is_finite c = true -> is_finite c' = true ->
  valid s = true -> leb zero s = true -> leb s (litf 1 1) = true ->
  leb n n' = true -> leb c c' = true ->
  leb (blend n c s) (blend n' c' s) = true.
Proof.
  intros Vn Vn' Vc Vc' Fn Fn' Fc Fc' Vs S0 S1 Hn Hc; unfold blend.
  destruct (one_minus_unit s Vs S0 S1) as (Vt & T0 & T1).
  assert (Fs : is_finite s = true)
    by (apply (between_finite (S754_zero false) s (of_dec 1 1)); auto).
  assert (Ft : is_finite (sub (litf 1 1) s) = true)
    by (apply (between_finite (S754_zero false) _ (of_dec 1 1)); auto).
  apply fadd_mono_fin;
    try (now apply fmul_unit_finite); try (now apply fmul_valid).
  - apply fmul_mono_fin_pos; auto.
  - apply fmul_mono_fin_pos; auto.
Qed.

(** X7. In binary32, [smoothTransition] is monotone in both vectors: for
    a factor [s] within [0] and [1] and finite gains, a larger new gain
    and a larger current gain at bin [j] give a smoothed gain at bin [j]
    that is not smaller.  Each product and the sum are rounded, and
    rounding keeps the order. *)
Theorem X7_smoothing_is_monotone
    (newGains newGains' currentGains currentGains' : list num) (s : num)
    (j : Z) :
  let n := at_ zero newGains j in
  let n' := at_ zero newGains' j in
  let c := at_ zero currentGains j in
  let c' := at_ zero currentGains' j in
  0 <= j < Z.of_nat (length newGains) ->
  length newGains' = length newGains ->
  length currentGains = length newGains ->
  length currentGains' = length newGains ->
  valid s = true -> leb zero s = true -> leb s (litf 1 1) = true ->
  valid n = true -> valid n' = true -> valid c = true -> valid c' = true ->
  is_finite n = true -> is_finite n' = true ->
  is_finite c = true -> is_finite c' = true ->
  leb n n' = true -> leb c c' = true ->
  leb (at_ zero (smoothTransition newGains currentGains s) j)
      (at_ zero (smoothTransition newGains' currentGains' s) j) = true.
Proof.
  cbv zeta; intros Hj L1 L2 L3 Vs S0 S1 Vn Vn' Vc Vc' Fn Fn' Fc Fc' Hn Hc.
  destruct (smoothTransition_at newGains currentGains s) as (_ & Hat).
  destruct (smoothTransition_at newGains' currentGains' s) as (_ & Hat').
  rewrite Hat by exact Hj.
  rewrite Hat' by (rewrite L1; exact Hj).
  now apply blend_mono.
Qed.

End SmootherBinary32.

End RoundedSmoother.

Lemma X7_witness :
  let s := B32.of_dec 98 100 in
  let new := [B32.of_Z 2; B32.of_Z 4] in
  let new' := [B32.of_Z 3; B32.of_Z 5] in
  let cur := [B32.of_Z 1; B32.of_Z 1] in
  0 <= 1 < Z.of_nat (length new)
  /\ B32.fle (B32.of_Z 0) s = true /\ B32.fle s (B32.of_dec 1 1) = true
  /\ B32.fle (at_ (@zero F32) new 1) (at_ (@zero F32) new' 1) = true
  /\ B32.fle (at_ (@zero F32) (@smoothTransition F32 new cur s) 1)
             (at_ (@zero F32) (@smoothTransition F32 new' cur s) 1) = true.
Proof.
  cbv zeta.
  assert (H1 : 0 <= 1 < Z.of_nat (length [B32.of_Z 2; B32.of_Z 4]))
    by (split; [discriminate|reflexivity]).
  assert (H2 : B32.fle (B32.of_Z 0) (B32.of_dec 98 100) = true)
    by reflexivity.
  assert (H3 : B32.fle (B32.of_dec 98 100) (B32.of_dec 1 1) = true)
    by reflexivity.
  assert (H4 : B32.fle (at_ (@zero F32) [B32.of_Z 2; B32.of_Z 4] 1)
                 (at_ (@zero F32) [B32.of_Z 3; B32.of_Z 5] 1) = true)
    by reflexivity.
  split; [exact H1|split; [exact H2|split; [exact H3|split; [exact H4|]]]].
  exact (X7_smoothing_is_monotone [B32.of_Z 2; B32.of_Z 4]
           [B32.of_Z 3; B32.of_Z 5] [B32.of_Z 1; B32.of_Z 1]
           [B32.of_Z 1; B32.of_Z 1] (B32.of_dec 98 100) 1
           H1 eq_refl eq_refl eq_refl eq_refl H2 H3
           eq_refl eq_refl eq_refl eq_refl eq_refl eq_refl eq_refl eq_refl
           H4 eq_refl).
Defined.

(** ** SimplePsychoacousticEQ *)

(** The whole-number noise levels from [-20] to [130] dB, one by one. *)
Lemma simple_eq_levels_checked :
  Forall (fun n =>
            let r := @SimplePsychoacousticEQ.updateEnvironment F32
                       SimplePsychoacousticEQ.make (B32.of_Z n) in
            SimplePsychoacousticEQ.currentPhon (fst r) = B32.of_Z (n + 8)
            /\ SimplePsychoacousticEQ.targetPhon (fst r) = B32.of_Z (n + 13)
            /\ Simplified.bassGain (snd r) = B32.of_dec 16 10
            /\ Simplified.midGain (snd r) = B32.of_dec 2 10
            /\ Simplified.trebleGain (snd r) = B32.of_dec 6 10)
         (map (fun k => k - 20) (range 151)).
Proof.
  let l := eval vm_compute in (map (fun k => k - 20) (range 151)) in
  change (map (fun k => k - 20) (range 151)) with l.
  repeat (apply Forall_cons;
          [cbv zeta; repeat split; vm_compute; reflexivity|]).
  apply Forall_nil.
Qed.

(** X17. In binary32, [SimplePsychoacousticEQ::updateEnvironment] sets
    [currentPhon] to the noise level plus 8 and [targetPhon] to the noise
    level plus 13.  For every whole number of dB from [-20] to [130] the
    two sums are exact, the level difference handed to
    [calculateSimplifiedCorrection] is 5, and the three band gains are
    [1.6f], [0.2f] and [0.6f] whatever the noise.  Not so for every
    noise level: at [55.3f] the two sums are rounded, their difference
    is [5 + 2^-18], and the bass gain is [1.6000013f]. *)
Theorem X17_simple_eq_whole_levels
    (s : @SimplePsychoacousticEQ.t F32) (n : Z) :
  (-20 <= n <= 130 ->
   let r := SimplePsychoacousticEQ.updateEnvironment s (B32.of_Z n) in
   SimplePsychoacousticEQ.currentPhon (fst r) = B32.of_Z (n + 8)
   /\ SimplePsychoacousticEQ.targetPhon (fst r) = B32.of_Z (n + 13)
   /\ Simplified.bassGain (snd r) = B32.of_dec 16 10
   /\ Simplified.midGain (snd r) = B32.of_dec 2 10
   /\ Simplified.trebleGain (snd r) = B32.of_dec 6 10)
  /\ (let r := SimplePsychoacousticEQ.updateEnvironment s
                 (B32.of_dec 553 10) in
      B32.fsub (SimplePsychoacousticEQ.targetPhon (fst r))
               (SimplePsychoacousticEQ.currentPhon (fst r))
      = S754_finite false 10485768 (-21)
      /\ Simplified.bassGain (snd r) = S754_finite false 13421784 (-23)
      /\ B32.flt (B32.of_dec 16 10) (Simplified.bassGain (snd r)) = true).
Proof.
  split.
  - intros Hn.
    pose proof simple_eq_levels_checked as G.
    rewrite Forall_forall in G.
    apply (G n).
    apply in_map_iff; exists (n + 20); split; [lia|].
    apply in_range; lia.
  - cbv zeta; repeat split; vm_compute; reflexivity.
Qed.

Lemma X17_witness :
  -20 <= 40 <= 130
  /\ Simplified.bassGain
       (snd (@SimplePsychoacousticEQ.updateEnvironment F32
               SimplePsychoacousticEQ.make (B32.of_Z 40)))
     = B32.of_dec 16 10.
Proof.
  assert (H : -20 <= 40 <= 130) by lia.
  split; [exact H|].
  exact (proj1 (proj2 (proj2
           (proj1 (X17_simple_eq_whole_levels SimplePsychoacousticEQ.make 40)
              H)))).
Defined.
